(** * rosbag-rx: a shallow embedding of the bag reader and its playback clock

    The development follows the TypeScript sources module by module
    (utils/timeUtil.ts, helper-functions.ts, message-reader.ts,
    chunk-info-manager.ts, the BagInspector and the RosbagManager) and
    then states the properties of the specification over these
    definitions.

    Conventions of the embedding.
    - A JavaScript number that holds an integer is a [Z]; a number that
      holds a duration in seconds is the [Q] that the double stands for.
      [addSecToTime] rounds its product as the doubles do; the sums and
      products of the playback clock are exact.
    - A JavaScript string is the list of its UTF-16 code units.
    - A function that may throw returns a [completion]. *)

From Stdlib Require Import ZArith QArith Qround Qabs List Bool Ascii String Lia.
From Stdlib Require Import Sorting.Sorted Sorting.Permutation.
From Stdlib.Strings Require Byte.
From stdpp Require Import base option list gmap.

Local Open Scope Z_scope.
Local Open Scope list_scope.

(** ** Completions

    A call either completes normally with a value or throws. *)

Inductive jsError : Type :=
| RangeError      (* an offset outside a buffer or a view *)
| TypeError       (* property access on undefined, call of undefined *)
| AssertionError  (* a failed assert of the int53 package *)
| PlainError      (* throw new Error(message) *)
| OutOfFuel.       (* the fuel of a loop or of a recursion is spent *)

Inductive completion (A : Type) : Type :=
| Ok (a : A)
| Throw (e : jsError).
Arguments Ok {A} a.
Arguments Throw {A} e.

#[global] Instance completion_ret : MRet completion := fun A a => Ok a.
#[global] Instance completion_bind : MBind completion := fun A B k r =>
  match r with
  | Ok a => k a
  | Throw e => Throw e
  end.
#[global] Instance completion_fmap : FMap completion := fun A B f r =>
  match r with
  | Ok a => Ok (f a)
  | Throw e => Throw e
  end.

(** A method of an object with mutable fields: the fields go in and come
    out, also when the method throws. *)
Definition SE (S A : Type) : Type := S -> S * completion A.

#[global] Instance SE_ret {S} : MRet (SE S) := fun A a s => (s, Ok a).
#[global] Instance SE_bind {S} : MBind (SE S) := fun A B k m s =>
  match m s with
  | (s', Ok a) => k a s'
  | (s', Throw e) => (s', Throw e)
  end.
#[global] Instance SE_fmap {S} : FMap (SE S) := fun A B f m s =>
  match m s with
  | (s', Ok a) => (s', Ok (f a))
  | (s', Throw e) => (s', Throw e)
  end.

Definition lift {S A} (c : completion A) : SE S A := fun s => (s, c).

(** [o.field] where [o] may be [undefined]. *)
Definition defined {A} (o : option A) : completion A :=
  match o with
  | Some a => Ok a
  | None => Throw TypeError
  end.

(** ** Strings and buffers of the run time *)

Abbreviation byte := Byte.byte.

#[global] Instance byte_eq_dec : EqDecision byte := Byte.byte_eq_dec.

Definition byteZ (b : byte) : Z := Z.of_N (Byte.to_N b).

Definition byte_of_Z (z : Z) : byte :=
  match Byte.of_N (Z.to_N (z mod 256)) with
  | Some b => b
  | None => Byte.x00
  end.

(** A string is the list of its UTF-16 code units. *)
Abbreviation jsstring := (list Z).

Definition js (s : string) : jsstring :=
  map (fun a => Z.of_N (N_of_ascii a)) (list_ascii_of_string s).

Definition js_bytes (s : string) : list byte :=
  map (fun a => byte_of_Z (Z.of_N (N_of_ascii a))) (list_ascii_of_string s).

(** A [Buffer] is a view on an ArrayBuffer: [bytes] are the bytes of the
    view, [trailing] the bytes of the ArrayBuffer that lie after it.
    Methods of the buffer stop at the end of [bytes]; a DataView made by
    [new DataView(buffer.buffer, buffer.byteOffset)] carries no length and
    also reaches [trailing].  Nothing reads before the start of a view. *)
Record Buffer : Type := mkBuffer { bytes : list byte; trailing : list byte }.

Definition Buffer_from (l : list byte) : Buffer := mkBuffer l [].

Definition blength (b : Buffer) : Z := Z.of_nat (length (bytes b)).

(** Relative index of [TypedArray.prototype.subarray]: a negative index
    counts from the end, the index is clamped to [0, len]. *)
Definition relIndex (len i : Z) : Z :=
  if i <? 0 then Z.max (len + i) 0 else Z.min i len.

Definition slice (l : list byte) (start : Z) (end_ : option Z) : list byte :=
  let len := Z.of_nat (length l) in
  let s := relIndex len start in
  let e := match end_ with Some e => relIndex len e | None => len end in
  take (Z.to_nat (Z.max (e - s) 0)) (drop (Z.to_nat s) l).

Definition subarray (b : Buffer) (start : Z) (end_ : option Z) : Buffer :=
  let len := blength b in
  let s := relIndex len start in
  let e := match end_ with Some e => relIndex len e | None => len end in
  let n := Z.max (e - s) 0 in
  {| bytes := slice (bytes b) start end_;
     trailing := drop (Z.to_nat (s + n)) (bytes b) ++ trailing b |}.

(** Reads of [n] bytes at [off]; outside the range they throw. *)
Definition read_bytes (l : list byte) (off : Z) (n : nat) : completion (list byte) :=
  if (0 <=? off) && (off + Z.of_nat n <=? Z.of_nat (length l))
  then Ok (take n (drop (Z.to_nat off) l))
  else Throw RangeError.

Fixpoint le_unsigned (bs : list byte) : Z :=
  match bs with
  | [] => 0
  | b :: r => byteZ b + 256 * le_unsigned r
  end.

Definition to_signed (bits v : Z) : Z :=
  if v <? 2 ^ (bits - 1) then v else v - 2 ^ bits.

Definition readUInt32LE (b : Buffer) (off : Z) : completion Z :=
  le_unsigned <$> read_bytes (bytes b) off 4.

Definition readInt32LE (b : Buffer) (off : Z) : completion Z :=
  to_signed 32 <$> readUInt32LE b off.

(** [buffer.indexOf(value)] for a byte value: [None] stands for -1. *)
Fixpoint index_of (v : byte) (l : list byte) : option Z :=
  match l with
  | [] => None
  | b :: r => if Byte.eqb b v then Some 0 else Z.succ <$> index_of v r
  end.

Definition indexOf (b : Buffer) (v : byte) : option Z := index_of v (bytes b).

(** [buffer.toString()]: the UTF-8 decoder of the buffer package. A byte
    below 0x80 is its own code unit; a well-formed sequence of 2, 3 or 4
    bytes gives its code point (two surrogates above 0xFFFF); any other
    byte gives U+FFFD and the decoder moves on by one byte. *)
Definition is_cont (b : Z) : bool := Z.land b 0xC0 =? 0x80.

Definition push_code_point (cp : Z) : list Z :=
  if 0xFFFF <? cp then
    let c := cp - 0x10000 in
    [Z.lor (Z.land (Z.shiftr c 10) 0x3FF) 0xD800;
     Z.lor 0xDC00 (Z.land c 0x3FF)]
  else [cp].

Fixpoint utf8Slice (bs : list Z) : jsstring :=
  match bs with
  | [] => []
  | b0 :: r0 =>
    let bad := 0xFFFD :: utf8Slice r0 in
    if b0 <? 0x80 then b0 :: utf8Slice r0
    else if b0 <=? 0xBF then bad
    else if b0 <=? 0xDF then
      match r0 with
      | b1 :: r1 =>
        let cp := Z.lor (Z.shiftl (Z.land b0 0x1F) 6) (Z.land b1 0x3F) in
        if is_cont b1 && (0x7F <? cp) then cp :: utf8Slice r1 else bad
      | _ => bad
      end
    else if b0 <=? 0xEF then
      match r0 with
      | b1 :: b2 :: r2 =>
        let cp := Z.lor (Z.lor (Z.shiftl (Z.land b0 0xF) 12)
                               (Z.shiftl (Z.land b1 0x3F) 6))
                        (Z.land b2 0x3F) in
        if is_cont b1 && is_cont b2 && (0x7FF <? cp)
           && ((cp <? 0xD800) || (0xDFFF <? cp))
        then cp :: utf8Slice r2 else bad
      | _ => bad
      end
    else
      match r0 with
      | b1 :: b2 :: b3 :: r3 =>
        let cp := Z.lor (Z.lor (Z.lor (Z.shiftl (Z.land b0 0xF) 18)
                                      (Z.shiftl (Z.land b1 0x3F) 12))
                               (Z.shiftl (Z.land b2 0x3F) 6))
                        (Z.land b3 0x3F) in
        if is_cont b1 && is_cont b2 && is_cont b3
           && (0xFFFF <? cp) && (cp <? 0x110000)
        then push_code_point cp ++ utf8Slice r3 else bad
      | _ => bad
      end
  end.

Definition toString (b : Buffer) : jsstring := utf8Slice (map byteZ (bytes b)).

(** [buffer.toString("ascii", start, end)]: every byte masked to 7 bits. *)
Definition toString_ascii (b : Buffer) (start end_ : Z) : jsstring :=
  let len := blength b in
  let start := if start <? 0 then 0 else start in
  if len <? start then []
  else
    let end_ := if len <? end_ then len else end_ in
    if end_ <=? 0 then []
    else if end_ <=? start then []
    else map (fun c => Z.land (byteZ c) 0x7F)
             (take (Z.to_nat (end_ - start)) (drop (Z.to_nat start) (bytes b))).

(** The buffer package allocates no buffer above this length. *)
Definition K_MAX_LENGTH : Z := 0x7fffffff.

(** ** Arrays and Maps of the run time *)

(** [a || b] on a number that may be [undefined]. *)
Definition js_or (a : option Z) (b : Z) : Z :=
  match a with
  | Some v => if v =? 0 then b else v
  | None => b
  end.

(** [Array.prototype.sort(cmp)] is a stable sort. For a comparator that
    is consistent (as [compareTime] is) every stable sort returns the same
    array; insertion from the right is the model used here. *)
Fixpoint sort_insert {A} (cmp : A -> A -> Z) (x : A) (l : list A) : list A :=
  match l with
  | [] => [x]
  | y :: r => if cmp x y <=? 0 then x :: y :: r else y :: sort_insert cmp x r
  end.

Definition js_sort {A} (cmp : A -> A -> Z) (l : list A) : list A :=
  foldr (sort_insert cmp) [] l.

(** The order that a comparator induces. *)
Definition cmp_le {A} (cmp : A -> A -> Z) (x y : A) : Prop := cmp x y <= 0.

(** A [Map] keeps its keys in insertion order; [set] on a key that is
    present replaces the value in place. *)
Section JsMap.
Context {K V : Type} `{EqDecision K}.

Fixpoint Map_get (m : list (K * V)) (k : K) : option V :=
  match m with
  | [] => None
  | (k', v) :: r => if decide (k' = k) then Some v else Map_get r k
  end.

Definition Map_has (m : list (K * V)) (k : K) : bool :=
  match Map_get m k with Some _ => true | None => false end.

Fixpoint Map_set (m : list (K * V)) (k : K) (v : V) : list (K * V) :=
  match m with
  | [] => [(k, v)]
  | (k', v') :: r =>
    if decide (k' = k) then (k, v) :: r else (k', v') :: Map_set r k v
  end.

Fixpoint Map_delete (m : list (K * V)) (k : K) : list (K * V) :=
  match m with
  | [] => []
  | (k', v') :: r =>
    if decide (k' = k) then r else (k', v') :: Map_delete r k
  end.

(** [new Map(entries)] *)
Definition Map_of (entries : list (K * V)) : list (K * V) :=
  foldl (fun m e => Map_set m e.1 e.2) [] entries.
End JsMap.

(** ** The int53 package

    The package is a dependency of the repository. Its readers take two
    unsigned 32-bit halves and combine them into one number, after an
    assertion that the magnitude fits 53 bits. *)

Module Int53.

Definition toInt32 (z : Z) : Z := to_signed 32 (z mod 2 ^ 32).

Definition onesComplement (number : Z) : Z :=
  let number := - toInt32 number - 1 in
  if number <? 0 then Z.land number 0x7FFFFFFF + 0x80000000 else number.

Definition assert (test : bool) : completion unit :=
  if test then Ok tt else Throw AssertionError.

Definition MAX_UINT32 : Z := 0xFFFFFFFF.

Definition toDouble (high low : Z) (signed : bool) : completion Z :=
  if signed && negb (Z.land high 0x80000000 =? 0) then
    let high := onesComplement high in
    let low := onesComplement low in
    _ ← assert (high <? 0x00200000);
    Ok (- (high * (MAX_UINT32 + 1) + low + 1))
  else
    _ ← assert (high <? 0x00200000);
    Ok (high * (MAX_UINT32 + 1) + low).

Definition readInt64LE (buffer : Buffer) (offset : Z) : completion Z :=
  low ← readUInt32LE buffer offset;
  high ← readUInt32LE buffer (offset + 4);
  toDouble high low true.

Definition readUInt64LE (buffer : Buffer) (offset : Z) : completion Z :=
  low ← readUInt32LE buffer offset;
  high ← readUInt32LE buffer (offset + 4);
  toDouble high low false.

End Int53.

(** ** utils/timeUtil.ts *)

Module TimeUtil.

Record ITime : Type := mkTime { sec : Z; nsec : Z }.

#[global] Instance ITime_eq_dec : EqDecision ITime.
Proof. solve_decision. Defined.

(** [secDiff || a.nsec - b.nsec] *)
Definition compareTime (a b : ITime) : Z :=
  let secDiff := sec a - sec b in
  if secDiff =? 0 then nsec a - nsec b else secDiff.

Definition isLessThan (a b : ITime) : bool := compareTime a b <? 0.

(** [Math.trunc] on a rational and the remainder operator [%] of
    JavaScript, whose value takes the sign of the dividend. *)
Definition Qtrunc (x : Q) : Z := Z.quot (Qnum x) (Zpos (Qden x)).
Definition js_rem (a b : Q) : Q := a - inject_Z (Qtrunc (a / b)) * b.

Definition e9 : Z := 1000000000.

(** The double nearest to a rational, ties to the even mantissa. A double
    has 53 bits of mantissa: the spacing of the doubles around [x] is
    [2 ^ (floor (log2 |x|) - 52)], and [2 ^ -1074] below the smallest
    normal double. (No value of this development is beyond the largest
    double.) *)
Definition Qlog2 (x : Q) : Z :=
  let n := Qnum x in
  let d := Zpos (Qden x) in
  let c := Z.log2 n - Z.log2 d in
  if 0 <=? c then (if d * 2 ^ c <=? n then c else c - 1)
  else (if d <=? n * 2 ^ (- c) then c else c - 1).

Definition round_half_even (x : Q) : Z :=
  let f := Qfloor x in
  match (x - inject_Z f ?= 1 # 2)%Q with
  | Lt => f
  | Gt => f + 1
  | Eq => if Z.even f then f else f + 1
  end.

Definition round_double (x : Q) : Q :=
  if Qeq_bool x 0 then 0%Q
  else
    let e := Z.max (Qlog2 (Qabs x) - 52) (-1074) in
    if e <=? 0
    then (inject_Z (round_half_even (x * inject_Z (2 ^ (- e)))) / inject_Z (2 ^ (- e)))%Q
    else (inject_Z (round_half_even (x / inject_Z (2 ^ e))) * inject_Z (2 ^ e))%Q.

(** The numbers that a double holds. *)
Definition is_double (x : Q) : Prop := (round_double x == x)%Q.

(** [s] is the value of the double that is passed (a rational that no
    double holds is no argument of the code). The remainder [sec % 1] of a
    double is a double, and exact; its product with 1e9 is rounded to a
    double before [Math.floor] sees it. What follows are sums and
    quotients of integers. *)
Definition addSecToTime (time : ITime) (s : Q) : ITime :=
  let totalNano := nsec time + Qfloor (round_double (js_rem s 1 * inject_Z e9)) in
  let carry := totalNano / e9 in
  {| sec := sec time + Qfloor s + carry;
     nsec := Z.rem totalNano e9 |}.

(** The addition as the specification words it: the fractional part and
    the final remainder are Euclidean. *)
Definition Qfrac (s : Q) : Q := s - inject_Z (Qfloor s).

Definition add_spec (t : ITime) (s : Q) : ITime :=
  let frac_ns := Qfloor (Qfrac s * inject_Z e9) in
  let total_ns := nsec t + frac_ns in
  let carry := total_ns / e9 in
  {| sec := sec t + Qfloor s + carry;
     nsec := total_ns mod e9 |}.

End TimeUtil.
Import TimeUtil.

(** ** helper-functions.ts *)

Module Helper.

(** [IRecordFields]: the own properties of the object, by their string
    keys. The code reads the properties conn, topic, type, md5sum,
    message_definition, ver, count, chunk_pos, start_time, end_time,
    index_pos, conn_count, chunk_count, compression, size and time: none
    of these names is inherited from [Object.prototype] or from a buffer,
    the two prototypes that the object can have (see [assign]), so each
    read is the own property or [undefined]. *)
Abbreviation IRecordFields := (gmap jsstring Buffer).

Record IRecord : Type := mkRecord {
  recordOffset : Z;
  recordLength : Z;
  recordDataOffset : Z
}.

(** [IRecordShallow extends IRecord]; [rest] is the part that the
    parsers copy with [...rest]. *)
Record IRecordShallow : Type := mkRecordShallow {
  rest : IRecord;
  recordHeaderFields : IRecordFields;
  recordDataBuffer : Buffer
}.

Definition equalChar : byte := Byte.x3d.

(** The object [headerFields] while [extractFields] fills it: its own
    properties and its prototype, [None] for [Object.prototype] and
    [Some b] once an entry named [__proto__] has made the buffer [b] the
    prototype. *)
Record FieldsObject : Type := mkFieldsObject {
  own : IRecordFields;
  prototype : option Buffer
}.

Definition new_object : FieldsObject := {| own := ∅; prototype := None |}.

(** The properties that an object inherits from a buffer and cannot
    shadow by assignment: the accessors without a setter of the typed
    arrays (length, buffer, byteLength, byteOffset) and of the buffer
    package (parent, offset), and the constant BYTES_PER_ELEMENT. *)
Definition read_only_names : list jsstring :=
  [js "length"; js "buffer"; js "byteLength"; js "byteOffset";
   js "parent"; js "offset"; js "BYTES_PER_ELEMENT"].

(** [headerFields[fieldName] = fieldBufferValue], in the strict code of a
    module. The name [__proto__] runs the setter that every object
    inherits: the value, an object, becomes the prototype and no property
    is made. Any other name makes or replaces an own property, unless the
    prototype is a buffer that holds the name read-only: then the
    assignment throws. (With a buffer as the prototype, a name that is a
    number in canonical form, as [0] or [1.5], is intercepted by the typed
    array in ways that changed between editions of the language; such a
    name is treated here as any other name.) *)
Definition assign (o : FieldsObject) (name : jsstring) (value : Buffer)
    : completion FieldsObject :=
  if bool_decide (name = js "__proto__")
  then Ok {| own := own o; prototype := Some value |}
  else
    match prototype o, own o !! name with
    | Some _, None =>
      if bool_decide (name ∈ read_only_names) then Throw TypeError
      else Ok {| own := <[name := value]> (own o); prototype := prototype o |}
    | _, _ => Ok {| own := <[name := value]> (own o); prototype := prototype o |}
    end.

(** The loop of [extractFields]. A round that is followed by another one
    moves the offset forward by five bytes at least, or leaves it negative
    and the next read throws; so the fuel given below is never spent
    (lemma [extractFields_fuel]). [Ok None] is the [undefined] returned
    for an entry without '='. *)
Fixpoint extractFields_loop (fuel : nat) (buffer : Buffer) (offset : Z)
    (headerFields : FieldsObject) : completion (option IRecordFields) :=
  match fuel with
  | O => Throw OutOfFuel
  | S fuel =>
    if offset <? blength buffer then
      fieldLen ← readInt32LE buffer offset;
      let offset := offset + 4 in
      let fieldData := subarray buffer offset (Some (offset + fieldLen)) in
      match indexOf fieldData equalChar with
      | None => Ok None
      | Some equalCharIndex =>
        let fieldName := toString (subarray fieldData 0 (Some equalCharIndex)) in
        let fieldBufferValue := subarray fieldData (equalCharIndex + 1) None in
        headerFields ← assign headerFields fieldName fieldBufferValue;
        extractFields_loop fuel buffer (offset + fieldLen) headerFields
      end
    else Ok (Some (own headerFields))
  end.

Definition extractFields (buffer : Buffer) : completion (option IRecordFields) :=
  extractFields_loop (S (S (length (bytes buffer)))) buffer 0 new_object.

Definition shallowRecordRead (recordBuffer : Buffer) (initialOffset : Z)
    : completion (option IRecordShallow) :=
  recordHeaderLen ← readInt32LE recordBuffer 0;
  let headerFieldsBuffer := subarray recordBuffer 4 (Some (4 + recordHeaderLen)) in
  recordHeaderFields ← extractFields headerFieldsBuffer;
  match recordHeaderFields with
  | None => Ok None
  | Some recordHeaderFields =>
    recordDataLength ← readInt32LE recordBuffer (recordHeaderLen + 4);
    let headerOffset := 4 + recordHeaderLen + 4 in
    let recordLength := recordDataLength + headerOffset in
    let recordDataBuffer := subarray recordBuffer headerOffset (Some recordLength) in
    Ok (Some {| rest := {| recordOffset := initialOffset;
                          recordLength := recordLength;
                          recordDataOffset := initialOffset + headerOffset |};
                recordHeaderFields := recordHeaderFields;
                recordDataBuffer := recordDataBuffer |})
  end.

(** The [for] loop of [retrieveRecordsFromBuffer]; a parser handed
    [undefined] throws when it takes the record apart. *)
Fixpoint retrieveRecords_loop {T} (n : nat) (buffer : Buffer)
    (startingOffset bufferOffset : Z)
    (recordParser : IRecordShallow -> completion T) : completion (list T) :=
  match n with
  | O => Ok []
  | S n =>
    let currentBuffer := subarray buffer bufferOffset None in
    shallowData ← shallowRecordRead currentBuffer (startingOffset + bufferOffset);
    shallowData ← defined shallowData;
    parsedData ← recordParser shallowData;
    records ← retrieveRecords_loop n buffer startingOffset
                (bufferOffset + recordLength (rest shallowData)) recordParser;
    Ok (parsedData :: records)
  end.

Definition retrieveRecordsFromBuffer {T} (buffer : Buffer) (recordsCount : Z)
    (startingOffset : Z) (recordParser : IRecordShallow -> completion T)
    : completion (list T) :=
  retrieveRecords_loop (Z.to_nat recordsCount) buffer startingOffset 0 recordParser.

Definition getField (fieldsRecord : IRecordFields) (fieldName : jsstring)
    : option jsstring :=
  toString <$> fieldsRecord !! fieldName.

Definition extractTime (buffer : Buffer) (offset : Z) : completion ITime :=
  sec ← readUInt32LE buffer offset;
  nsec ← readUInt32LE buffer (offset + 4);
  Ok (mkTime sec nsec).

(** [Array.from({ length: count }, (_, i) => f i)] *)
Fixpoint array_from_loop {T} (n : nat) (i : Z) (f : Z -> completion T)
    : completion (list T) :=
  match n with
  | O => Ok []
  | S n => x ← f i; r ← array_from_loop n (i + 1) f; Ok (x :: r)
  end.

Definition array_from {T} (count : Z) (f : Z -> completion T) : completion (list T) :=
  array_from_loop (Z.to_nat count) 0 f.

(** *** Serialization of header fields

    The writer side of the format, to state the round trip: an entry is
    [name '=' value], a blob is the entries one after the other, each
    after its length in four little-endian bytes. *)

Definition u32le (n : Z) : list byte :=
  [byte_of_Z n; byte_of_Z (n / 2 ^ 8); byte_of_Z (n / 2 ^ 16); byte_of_Z (n / 2 ^ 24)].

Definition frame (entry : list byte) : list byte :=
  u32le (Z.of_nat (length entry)) ++ entry.

Definition frames (entries : list (list byte)) : list byte :=
  concat (map frame entries).

Definition entry_of (field : list byte * list byte) : list byte :=
  field.1 ++ equalChar :: field.2.

Definition serialize (fields : list (list byte * list byte)) : list byte :=
  frames (map entry_of fields).

(** The map that a list of fields with distinct names stands for; a name
    of 7-bit bytes is the string of these code units. *)
Definition fields_map (fields : list (list byte * list byte))
    : gmap jsstring (list byte) :=
  list_to_map (map (fun f => (map byteZ f.1, f.2)) fields).

Definition ascii_name (name : list byte) : Prop :=
  Forall (fun b => byteZ b < 0x80 /\ b <> equalChar) name.

(** The names of the fields that read back as properties: 7-bit bytes
    other than '=', and not [__proto__], the one name whose assignment
    makes no property. *)
Definition field_name (name : list byte) : Prop :=
  ascii_name name /\ name <> js_bytes "__proto__".

(** What the reader makes of a list of entries, one entry at a time. *)
Definition split_entry (entry : list byte) : option (list byte * list byte) :=
  match index_of equalChar entry with
  | Some i => Some (take (Z.to_nat i) entry, drop (Z.to_nat (i + 1)) entry)
  | None => None
  end.

Fixpoint read_entries (entries : list (list byte)) (acc : gmap jsstring (list byte))
    : option (gmap jsstring (list byte)) :=
  match entries with
  | [] => Some acc
  | entry :: rest =>
    match split_entry entry with
    | Some (name, value) =>
      read_entries rest (<[utf8Slice (map byteZ name) := value]> acc)
    | None => None
    end
  end.

(** An entry that does not name the prototype: the bytes before its
    first '=' are not [__proto__]. *)
Definition plain_entry (entry : list byte) : Prop :=
  fst <$> split_entry entry <> Some (js_bytes "__proto__").

(** Whether the bytes of [pattern] occur in [l], one after the other. *)
Fixpoint occurs (pattern l : list byte) : bool :=
  bool_decide (take (length pattern) l = pattern)
  || match l with
     | [] => false
     | _ :: r => occurs pattern r
     end.

(** The bytes of the values of a result of [extractFields]. *)
Definition field_bytes (r : completion (option IRecordFields))
    : completion (option (gmap jsstring (list byte))) :=
  match r with
  | Ok (Some fields) => Ok (Some (bytes <$> fields))
  | Ok None => Ok None
  | Throw e => Throw e
  end.

End Helper.
Import Helper.

(** ** models/chunk-info-manager.model.ts *)

Record IConnection : Type := mkConnection {
  conn_rest : IRecord;
  conn : Z;
  topicName : jsstring;
  messageType : option jsstring;
  md5sum : option jsstring;
  messageDefinition : option jsstring
}.

Record IChunkConnection : Type := mkChunkConnection {
  cc_conn : Z;
  cc_count : Z
}.

Record IChunkInfo : Type := mkChunkInfo {
  chunk_rest : IRecord;
  version : option Z;
  chunkPosition : Z;
  startTime : ITime;
  endTime : ITime;
  count : Z;
  connections : list IChunkConnection;
  idx : Z;
  nextChunkPosition : option Z
}.

Definition with_nextChunkPosition (chunk : IChunkInfo) (p : Z) : IChunkInfo :=
  {| chunk_rest := chunk_rest chunk; version := version chunk;
     chunkPosition := chunkPosition chunk; startTime := startTime chunk;
     endTime := endTime chunk; count := count chunk;
     connections := connections chunk; idx := idx chunk;
     nextChunkPosition := Some p |}.

Definition with_idx (chunk : IChunkInfo) (i : Z) : IChunkInfo :=
  {| chunk_rest := chunk_rest chunk; version := version chunk;
     chunkPosition := chunkPosition chunk; startTime := startTime chunk;
     endTime := endTime chunk; count := count chunk;
     connections := connections chunk; idx := i;
     nextChunkPosition := nextChunkPosition chunk |}.

#[local] Unset Elimination Schemes.

(** One node of a compiled schema. *)
Inductive IMsgFormat : Type := mkMsgFormat {
  key : jsstring;
  keyType : jsstring;
  isArray : bool;
  nestedKeys : list IMsgFormat;
  constantValue : option jsstring;
  arrayLength : option Z
}.

Record IMsgSchema : Type := mkMsgSchema {
  topLevelKeys : list IMsgFormat;
  MSGSTypes : list (jsstring * IMsgFormat)
}.

(** The values that the decoder produces. A float is kept as the bit
    pattern that was read; an object is the list of its properties in
    insertion order. *)
Inductive JSValue : Type :=
| VUndefined
| VBool (b : bool)
| VNumber (z : Z)
| VFloat32 (bits : Z)
| VFloat64 (bits : Z)
| VString (s : jsstring)
| VTime (t : ITime)
| VArray (elements : list JSValue)
| VObject (properties : list (jsstring * JSValue)).

#[local] Set Elimination Schemes.

Record IRosbagMessage : Type := mkMessage {
  topic : jsstring;
  time : ITime;
  data : JSValue
}.

Definition with_arrayLength (m : IMsgFormat) (n : option Z) : IMsgFormat :=
  {| key := key m; keyType := keyType m; isArray := isArray m;
     nestedKeys := nestedKeys m; constantValue := constantValue m;
     arrayLength := n |}.

(** ** helper-functions.ts: the schema compiler *)

Module Schema.

(** White space and line terminators, as [trim] and [\s] take them. *)
Definition is_space (c : Z) : bool :=
  existsb (Z.eqb c)
    [9; 10; 11; 12; 13; 32; 0xA0; 0x1680; 0x2028; 0x2029; 0x202F; 0x205F;
     0x3000; 0xFEFF]
  || (0x2000 <=? c) && (c <=? 0x200A).

Definition is_line_terminator (c : Z) : bool :=
  existsb (Z.eqb c) [10; 13; 0x2028; 0x2029].

Definition is_digit (c : Z) : bool := (48 <=? c) && (c <=? 57).

Fixpoint drop_spaces (s : jsstring) : jsstring :=
  match s with
  | c :: r => if is_space c then drop_spaces r else s
  | [] => []
  end.

Definition trim (s : jsstring) : jsstring :=
  rev (drop_spaces (rev (drop_spaces s))).

(** [s.split(sep)] for a separator of one code unit. *)
Fixpoint split (sep : Z) (s : jsstring) : list jsstring :=
  match s with
  | [] => [[]]
  | c :: r =>
    if c =? sep then [] :: split sep r
    else match split sep r with
         | h :: t => (c :: h) :: t
         | [] => [[c]]
         end
  end.

(** [s.split(/\s+/)]; [in_run] says that the previous code unit was
    white space. *)
Fixpoint split_spaces_from (in_run : bool) (s : jsstring) : list jsstring :=
  match s with
  | [] => [[]]
  | c :: r =>
    if is_space c then
      if in_run then split_spaces_from true r
      else [] :: split_spaces_from true r
    else match split_spaces_from false r with
         | h :: t => (c :: h) :: t
         | [] => [[c]]
         end
  end.

Definition split_spaces (s : jsstring) : list jsstring := split_spaces_from false s.

Fixpoint startsWith (s prefix : jsstring) : bool :=
  match prefix, s with
  | [], _ => true
  | p :: prefix, c :: s => (c =? p) && startsWith s prefix
  | _ :: _, [] => false
  end.

Definition includes (s : jsstring) (c : Z) : bool := existsb (Z.eqb c) s.

(** [toLowerCase] on the letters A to Z; the case mapping of Unicode
    outside ASCII is not modelled, such code units are kept. *)
Definition toLowerCase (s : jsstring) : jsstring :=
  map (fun c => if (65 <=? c) && (c <=? 90) then c + 32 else c) s.

(** [parseInt(digits, 10)] on a string of decimal digits: the double
    nearest to the integer that the digits write, which is that integer
    up to 2^53. (Past 20 digits an engine may read the further digits as
    zeros, and past the largest double the result is [Infinity]; such
    lengths are far above 2^32, where [new Array] throws whatever the
    value.) *)
Definition parseInt (digits : jsstring) : Z :=
  Qfloor (round_double (inject_Z (fold_left (fun acc c => 10 * acc + (c - 48)) digits 0))).

Fixpoint take_digits (s : jsstring) : jsstring :=
  match s with
  | c :: r => if is_digit c then c :: take_digits r else []
  | [] => []
  end.

(** [keyType.match(arrayRegex)]: a prefix of one character or more, an
    opening bracket, decimal digits or none, a closing bracket at the end.
    A match gives the prefix and the digits. *)
Definition arrayRegex (keyType : jsstring) : option (jsstring * jsstring) :=
  match rev keyType with
  | 93 :: body =>
    let digits := take_digits body in
    match drop (length digits) body with
    | 91 :: prefix =>
      match prefix with
      | [] => None
      | _ :: _ =>
        if forallb (fun c => negb (is_line_terminator c)) prefix
        then Some (rev prefix, rev digits)
        else None
      end
    | _ => None
    end
  | _ => None
  end.

Definition last_segment (s : jsstring) : jsstring :=
  List.last (split 47 s) [].

Definition with_keyType (m : IMsgFormat) (t : jsstring) : IMsgFormat :=
  {| key := key m; keyType := t; isArray := isArray m;
     nestedKeys := nestedKeys m; constantValue := constantValue m;
     arrayLength := arrayLength m |}.

Definition push_nestedKey (m lineFormat : IMsgFormat) : IMsgFormat :=
  {| key := key m; keyType := keyType m; isArray := isArray m;
     nestedKeys := nestedKeys m ++ [lineFormat];
     constantValue := constantValue m; arrayLength := arrayLength m |}.

(** One retained line, up to the object [lineFormat]. A line of a single
    token has no key, and [key.includes] throws. *)
Definition parseLine (line : jsstring) : completion IMsgFormat :=
  match split_spaces (trim line) with
  | [] | [_] => Throw TypeError
  | keyType :: key :: rest =>
    let constantValue :=
      match rest with
      | equalSign :: rest' =>
        if bool_decide (equalSign = js "=") then List.head rest' else None
      | [] => None
      end in
    let '(key, constantValue) :=
      if includes key 61 then
        let split := split 61 key in
        (List.hd [] split, List.nth_error split 1)
      else (key, constantValue) in
    let '(isArray, keyType, arrayLength) :=
      match arrayRegex keyType with
      | Some (prefix, digits) =>
        (true, prefix,
         match digits with [] => None | _ :: _ => Some (parseInt digits) end)
      | None => (false, keyType, None)
      end in
    let keyType := toLowerCase (last_segment keyType) in
    Ok {| key := key; keyType := keyType; isArray := isArray; nestedKeys := [];
          constantValue := constantValue; arrayLength := arrayLength |}
  end.

(** What the second loop of [parseMsgDefinition] carries. *)
Record scan : Type := mkScan {
  scan_topLevelKeys : list IMsgFormat;
  scan_MSGSTypes : list (jsstring * IMsgFormat);
  currentMSG : IMsgFormat
}.

(** [currentMSG.keyType = name; msgSchema.MSGSTypes.set(name, currentMSG)] *)
Definition finalize (st : scan) : scan :=
  let name := toLowerCase (last_segment (key (currentMSG st))) in
  let currentMSG := with_keyType (currentMSG st) name in
  {| scan_topLevelKeys := scan_topLevelKeys st;
     scan_MSGSTypes := Map_set (scan_MSGSTypes st) name currentMSG;
     currentMSG := currentMSG |}.

Definition has_key (m : IMsgFormat) : bool :=
  match key m with [] => false | _ :: _ => true end.

Definition scan_line (is_last : bool) (st : scan) (line : jsstring)
    : completion scan :=
  lineFormat ← parseLine line;
  if bool_decide (keyType lineFormat = js "msg:") then
    let st := if has_key (currentMSG st) then finalize st else st in
    Ok {| scan_topLevelKeys := scan_topLevelKeys st;
          scan_MSGSTypes := scan_MSGSTypes st;
          currentMSG := lineFormat |}
  else if has_key (currentMSG st) then
    let st := {| scan_topLevelKeys := scan_topLevelKeys st;
                 scan_MSGSTypes := scan_MSGSTypes st;
                 currentMSG := push_nestedKey (currentMSG st) lineFormat |} in
    Ok (if is_last then finalize st else st)
  else
    Ok {| scan_topLevelKeys := scan_topLevelKeys st ++ [lineFormat];
          scan_MSGSTypes := scan_MSGSTypes st;
          currentMSG := currentMSG st |}.

Fixpoint scan_lines (st : scan) (filteredLines : list jsstring) : completion scan :=
  match filteredLines with
  | [] => Ok st
  | line :: rest =>
    st ← scan_line (match rest with [] => true | _ :: _ => false end) st line;
    scan_lines st rest
  end.

Definition retained (line : jsstring) : bool :=
  negb (startsWith line (js "#") || bool_decide (line = [])
        || startsWith line (js "==")).

Definition parseMsgDefinition (msgDef : jsstring) : completion IMsgSchema :=
  let linesArr := split 10 msgDef in
  let filteredLines := List.filter retained (map trim linesArr) in
  let currentMSG := {| key := []; keyType := []; isArray := false;
                       nestedKeys := []; constantValue := None;
                       arrayLength := None |} in
  st ← scan_lines {| scan_topLevelKeys := []; scan_MSGSTypes := [];
                     currentMSG := currentMSG |} filteredLines;
  Ok {| topLevelKeys := scan_topLevelKeys st; MSGSTypes := scan_MSGSTypes st |}.

End Schema.

(** ** message-reader.ts *)

(** The names that every object inherits from [Object.prototype]. A
    lookup [table[name]] on an object literal finds the inherited value
    under these names; under every other name it finds an own property or
    [undefined]. *)
Definition Object_prototype_names : list jsstring :=
  [js "constructor"; js "hasOwnProperty"; js "isPrototypeOf";
   js "propertyIsEnumerable"; js "toLocaleString"; js "toString"; js "valueOf";
   js "__defineGetter__"; js "__defineSetter__"; js "__lookupGetter__";
   js "__lookupSetter__"; js "__proto__"].

Module MessageReader.

Record StdTypeReader : Type := mkReader {
  buffer : Buffer;
  offset : Z
}.

(** [new DataView(buffer.buffer, buffer.byteOffset)]: from the start of
    the buffer to the end of its ArrayBuffer. *)
Definition view (r : StdTypeReader) : list byte :=
  bytes (buffer r) ++ trailing (buffer r).

Definition new_StdTypeReader (buffer : Buffer) : StdTypeReader :=
  {| buffer := buffer; offset := 0 |}.

(** The fields of a [MessageReaders] instance. A parser in
    [msgTypesParsers] is a closure over the field list of its format, and
    is kept as that list. [result_id] counts the objects that the parsers
    have put in [this.result]: it tells whether [this.result] is still the
    object it was before a nested call. *)
Record MessageReaders : Type := mkReaders {
  msgTypesParsers : list (jsstring * list IMsgFormat);
  _schemas : list (option jsstring * bool);
  msg : list (jsstring * JSValue);
  result : list (jsstring * JSValue);
  result_id : nat
}.

Definition new_MessageReaders : MessageReaders :=
  {| msgTypesParsers := []; _schemas := []; msg := []; result := []; result_id := 0 |}.

(** Decoding runs on a reader and on the [MessageReaders] instance. Both
    are mutated in place, so what was written before a throw stays. *)
Record DecState : Type := mkDecState {
  reader : StdTypeReader;
  this : MessageReaders
}.

Abbreviation Dec := (SE DecState).

Definition get_offset : Dec Z := fun s => (s, Ok (offset (reader s))).
Definition get_buffer : Dec Buffer := fun s => (s, Ok (buffer (reader s))).
Definition get_view : Dec (list byte) := fun s => (s, Ok (view (reader s))).
Definition get_this : Dec MessageReaders := fun s => (s, Ok (this s)).
Definition set_this (t : MessageReaders) : Dec unit := fun s =>
  ({| reader := reader s; this := t |}, Ok tt).

(** [this.offset += n] *)
Definition advance (n : Z) : Dec unit := fun s =>
  ({| reader := {| buffer := buffer (reader s); offset := offset (reader s) + n |};
      this := this s |}, Ok tt).

(** [this.view.getUint<8n>(this.offset, true)] *)
Definition view_get (n : nat) (off : Z) : Dec Z :=
  v ← get_view; lift (le_unsigned <$> read_bytes v off n).

Inductive StdType : Type :=
| t_string | t_bool | t_int8 | t_uint8 | t_int16 | t_uint16 | t_int32
| t_uint32 | t_float32 | t_float64 | t_int64 | t_uint64 | t_time
| t_duration | t_json | t_byte | t_char.

Definition stdTypeNames : list (jsstring * StdType) :=
  [(js "string", t_string); (js "bool", t_bool); (js "int8", t_int8);
   (js "uint8", t_uint8); (js "int16", t_int16); (js "uint16", t_uint16);
   (js "int32", t_int32); (js "uint32", t_uint32); (js "float32", t_float32);
   (js "float64", t_float64); (js "int64", t_int64); (js "uint64", t_uint64);
   (js "time", t_time); (js "duration", t_duration); (js "json", t_json);
   (js "byte", t_byte); (js "char", t_char)].

(** [parsingMethods[keyType]], on the own properties of the object. *)
Definition lookup_parsingMethod (keyType : jsstring) : option StdType :=
  Map_get stdTypeNames keyType.

(** [parsingMethods[keyType]()] for a name that the table inherits: the
    inherited function is called without a receiver and without an
    argument. [Object()] makes an empty object, [isPrototypeOf] answers
    [false] for an argument that is no object, [toString] names the
    missing receiver; the other functions throw when they turn the
    receiver into an object, and the value of [__proto__] is no function. *)
Definition inherited_method (keyType : jsstring) : option (completion JSValue) :=
  if bool_decide (keyType = js "constructor") then Some (Ok (VObject []))
  else if bool_decide (keyType = js "isPrototypeOf") then Some (Ok (VBool false))
  else if bool_decide (keyType = js "toString")
  then Some (Ok (VString (js "[object Undefined]")))
  else if bool_decide (keyType ∈ Object_prototype_names) then Some (Throw TypeError)
  else None.

(** [this.view.get...(this.offset++)] for one byte. *)
Definition get8 (signed : bool) : Dec Z :=
  off ← get_offset;
  _ ← advance 1;
  v ← view_get 1 off;
  mret (if signed then to_signed 8 v else v).

(** [const result = this.view.get...(this.offset, true); this.offset += n] *)
Definition getLE (n : nat) (signed : bool) : Dec Z :=
  off ← get_offset;
  v ← view_get n off;
  _ ← advance (Z.of_nat n);
  mret (if signed then to_signed (8 * Z.of_nat n) v else v).

Definition parsingMethods (m : StdType) : Dec JSValue :=
  match m with
  | t_string =>
    buf ← get_buffer;
    off ← get_offset;
    strLen ← lift (readInt32LE buf off);
    _ ← advance 4;
    off ← get_offset;
    let string := toString_ascii buf off (off + strLen) in
    _ ← advance strLen;
    mret (VString string)
  | t_bool => v ← get8 false; mret (VBool (negb (v =? 0)))
  | t_int8 => VNumber <$> get8 true
  | t_uint8 => VNumber <$> get8 false
  | t_int16 => VNumber <$> getLE 2 true
  | t_uint16 => VNumber <$> getLE 2 false
  | t_int32 => VNumber <$> getLE 4 true
  | t_uint32 => VNumber <$> getLE 4 false
  | t_float32 => VFloat32 <$> getLE 4 false
  | t_float64 => VFloat64 <$> getLE 8 false
  | t_int64 =>
    buf ← get_buffer;
    off ← get_offset;
    data ← lift (Int53.readInt64LE buf off);
    _ ← advance 8;
    mret (VNumber data)
  | t_uint64 =>
    buf ← get_buffer;
    off ← get_offset;
    data ← lift (Int53.readUInt64LE buf off);
    _ ← advance 8;
    mret (VNumber data)
  | t_time | t_duration =>
    buf ← get_buffer;
    off ← get_offset;
    time ← lift (extractTime buf off);
    _ ← advance 8;
    mret (VTime time)
  | t_json => mret VUndefined
  | t_byte => VNumber <$> get8 true
  | t_char => VNumber <$> get8 false
  end.

(** Truthiness of a string and of a number that may be [undefined]. *)
Definition truthy_string (s : option jsstring) : option jsstring :=
  match s with
  | Some (c :: r) => Some (c :: r)
  | _ => None
  end.

Definition truthy_number (n : option Z) : option Z :=
  match n with
  | Some v => if v =? 0 then None else Some v
  | None => None
  end.

(** [this._createParser(format)]: the parser of the memo table, or a new
    parser over [format.nestedKeys], which the table then keeps. *)
Definition _createParser (format : IMsgFormat) : Dec (list IMsgFormat) :=
  t ← get_this;
  match Map_get (msgTypesParsers t) (keyType format) with
  | Some cachedParser => mret cachedParser
  | None =>
    let formatFields := nestedKeys format in
    _ ← set_this {| msgTypesParsers := Map_set (msgTypesParsers t) (keyType format) formatFields;
                    _schemas := _schemas t; msg := msg t;
                    result := result t; result_id := result_id t |};
    mret formatFields
  end.

(** [this.result = {}] *)
Definition reset_result : Dec unit :=
  t ← get_this;
  set_this {| msgTypesParsers := msgTypesParsers t; _schemas := _schemas t;
              msg := msg t; result := []; result_id := S (result_id t) |}.

(** [this.result[key] = value], where the object was read from
    [this.result] before the value was computed. When a nested parser has
    replaced [this.result] in between, the write lands on the former
    object, which nothing refers to any more. *)
Definition write_result (id : nat) (key : jsstring) (value : JSValue) : Dec unit :=
  t ← get_this;
  if decide (result_id t = id) then
    set_this {| msgTypesParsers := msgTypesParsers t; _schemas := _schemas t;
                msg := msg t; result := Map_set (result t) key value;
                result_id := result_id t |}
  else mret tt.

Section Parser.
(** [this.parseField], one level of nesting below. *)
Variable parseField : IMsgFormat -> Dec JSValue.

Fixpoint parser_loop (formatFields : list IMsgFormat) : Dec unit :=
  match formatFields with
  | [] => mret tt
  | field :: rest =>
    t ← get_this;
    value ← parseField field;
    _ ← write_result (result_id t) (key field) value;
    parser_loop rest
  end.

(** The closure [parser] that [_createParser] builds. *)
Definition parser (formatFields : list IMsgFormat) : Dec JSValue :=
  _ ← reset_result;
  _ ← parser_loop formatFields;
  t ← get_this;
  mret (VObject (result t)).

(** [stdType ? stdType() : (this.msgTypesParsers.get(field.keyType) ||
    this._createParser(field))(reader)] *)
Definition parseValue (field : IMsgFormat) : Dec JSValue :=
  match lookup_parsingMethod (keyType field) with
  | Some stdType => parsingMethods stdType
  | None =>
    match inherited_method (keyType field) with
    | Some called => lift called
    | None =>
      t ← get_this;
      formatFields ← match Map_get (msgTypesParsers t) (keyType field) with
                     | Some p => mret p
                     | None => _createParser field
                     end;
      parser formatFields
    end
  end.

Fixpoint parseElements (n : nat) (field : IMsgFormat) : Dec (list JSValue) :=
  match n with
  | O => mret []
  | S n =>
    v ← parseValue field;
    r ← parseElements n field;
    mret (v :: r)
  end.

(** [new Array(arrLength)] followed by the loop that fills it. *)
Definition parseArray (arrLength : Z) (field : IMsgFormat) : Dec JSValue :=
  if 2 ^ 32 <=? arrLength then lift (Throw RangeError)
  else VArray <$> parseElements (Z.to_nat arrLength) field.

Definition parseField_body (field : IMsgFormat) : Dec JSValue :=
  match truthy_string (constantValue field) with
  | Some constantValue => mret (VString constantValue)
  | None =>
    if isArray field then
      arrLength ← match truthy_number (arrayLength field) with
                  | Some n => mret n
                  | None => getLE 4 false
                  end;
      parseArray arrLength field
    else parseValue field
  end.
End Parser.

(** [parseField] calls itself through the parsers; [fuel] bounds the depth
    of that nesting. *)
Fixpoint parseField (fuel : nat) (field : IMsgFormat) : Dec JSValue :=
  match fuel with
  | O => lift (Throw OutOfFuel)
  | S fuel => parseField_body (parseField fuel) field
  end.

(** [schema.MSGSTypes.forEach(...)] of [readMsg]. *)
Fixpoint register_parsers (types : list (jsstring * IMsgFormat)) : Dec unit :=
  match types with
  | [] => mret tt
  | (_, msgType) :: rest =>
    t ← get_this;
    _ ← (if Map_has (msgTypesParsers t) (keyType msgType) then mret tt
         else _ ← _createParser msgType; mret tt);
    register_parsers rest
  end.

Definition schema_seen (t : MessageReaders) (msgType : option jsstring) : bool :=
  match Map_get (_schemas t) msgType with Some true => true | _ => false end.

Definition set_msg (m : list (jsstring * JSValue)) : Dec unit :=
  t ← get_this;
  set_this {| msgTypesParsers := msgTypesParsers t; _schemas := _schemas t;
              msg := m; result := result t; result_id := result_id t |}.

(** [this.msg[format.key] = this.parseField(reader, format)] over the top
    level keys. *)
Fixpoint readMsg_loop (stack : nat) (topLevelKeys : list IMsgFormat) : Dec unit :=
  match topLevelKeys with
  | [] => mret tt
  | format :: rest =>
    value ← parseField stack format;
    t ← get_this;
    _ ← set_msg (Map_set (msg t) (key format) value);
    readMsg_loop stack rest
  end.

(** [readMsg]; [stack] is the depth of calls that the engine allows. *)
Definition readMsg (stack : nat) (msgType : option jsstring) (schema : IMsgSchema)
    (buffer : Buffer) (this : MessageReaders) : MessageReaders * completion JSValue :=
  let run : Dec JSValue :=
    t ← get_this;
    _ ← (if schema_seen t msgType then mret tt
         else
           _ ← register_parsers (MSGSTypes schema);
           t ← get_this;
           set_this {| msgTypesParsers := msgTypesParsers t;
                       _schemas := Map_set (_schemas t) msgType true;
                       msg := msg t; result := result t;
                       result_id := result_id t |});
    _ ← set_msg [];
    _ ← readMsg_loop stack (topLevelKeys schema);
    t ← get_this;
    mret (VObject (msg t)) in
  let '(s, r) := run {| reader := new_StdTypeReader buffer; this := this |} in
  (MessageReader.this s, r).

(** The state after [this.offset += n]. *)
Definition advanced (s : DecState) (n : Z) : DecState := (advance n s).1.

End MessageReader.

(** ** chunk-info-manager.ts *)

Module ChunkInfoManager.
Import Schema MessageReader.

Record IChunkCache : Type := mkChunkCache {
  messages : list IRosbagMessage;
  size : Z
}.

Record IIndexDataMsg : Type := mkIndexDataMsg {
  recievedTime : ITime;
  msgDataOffset : Z
}.

Record IIndexData : Type := mkIndexData {
  index_rest : IRecord;
  index_version : Z;
  index_conn : Z;
  index_count : Z;
  recievedMsgs : list IIndexDataMsg
}.

(** The fields of the manager; the file is an argument of the reads. *)
Record ChunkInfoManager : Type := mkManager {
  _connections : list (Z * IConnection);
  _msgSchemas : list (option jsstring * IMsgSchema);
  _readers : MessageReaders;
  _chunkCache : list (Z * IChunkCache);
  _currentCacheBytes : Z
}.


Definition _maxCacheBytes : Z := 50 * 1024 * 1024.


Definition hasChunk (this : ChunkInfoManager) (idx : Z) : bool :=
  Map_has (_chunkCache this) idx.

Definition getCachedChunk (this : ChunkInfoManager) (idx : Z)
    : option (list IRosbagMessage) :=
  messages <$> Map_get (_chunkCache this) idx.

(** The loop of [_cleanupCache]: the oldest key is the first key of the
    Map, and its entry goes with its size as long as the bytes exceed the
    budget and the Map is not empty. *)
Fixpoint cleanup_loop (cache : list (Z * IChunkCache)) (currentCacheBytes : Z)
    : list (Z * IChunkCache) * Z :=
  match cache with
  | [] => (cache, currentCacheBytes)
  | (oldestKey, expiredCache) :: rest =>
    if _maxCacheBytes <? currentCacheBytes
    then cleanup_loop rest (currentCacheBytes - size expiredCache)
    else (cache, currentCacheBytes)
  end.

Definition _cleanupCache (this : ChunkInfoManager) : ChunkInfoManager :=
  let '(cache, currentCacheBytes) :=
    cleanup_loop (_chunkCache this) (_currentCacheBytes this) in
  {| _connections := _connections this; _msgSchemas := _msgSchemas this;
     _readers := _readers this; _chunkCache := cache;
     _currentCacheBytes := currentCacheBytes |}.

(** [chunkInfo.nextChunkPosition - chunkInfo.chunkPosition]. Every chunk
    info of the metadata carries its next position; the NaN that a missing
    one would give is not modelled. *)
Definition chunkSize (chunkInfo : IChunkInfo) : option Z :=
  (fun next => next - chunkPosition chunkInfo) <$> nextChunkPosition chunkInfo.

(** The three statements of [reader.onload] that follow a decoded chunk:
    [set], [+=] and [_cleanupCache]. *)
Definition cacheChunk (chunkInfo : IChunkInfo) (messages : list IRosbagMessage)
    (this : ChunkInfoManager) : option ChunkInfoManager :=
  chunkSize ← chunkSize chunkInfo;
  let this :=
    {| _connections := _connections this; _msgSchemas := _msgSchemas this;
       _readers := _readers this;
       _chunkCache := Map_set (_chunkCache this) (idx chunkInfo)
                        {| messages := messages; size := chunkSize |};
       _currentCacheBytes := _currentCacheBytes this + chunkSize |} in
  Some (_cleanupCache this).

(** A run of insertions, one decoded chunk after the other. *)
Fixpoint cacheChunks (inserts : list (IChunkInfo * list IRosbagMessage))
    (this : ChunkInfoManager) : option ChunkInfoManager :=
  match inserts with
  | [] => Some this
  | (chunkInfo, messages) :: rest =>
    this ← cacheChunk chunkInfo messages this;
    cacheChunks rest this
  end.

Definition _parseIndexDataRecord (record : IRecordShallow) : completion IIndexData :=
  let recordDataBuffer := recordDataBuffer record in
  let recordHeaderFields := recordHeaderFields record in
  count_ ← defined (recordHeaderFields !! js "count");
  count ← readUInt32LE count_ 0;
  ver ← defined (recordHeaderFields !! js "ver");
  version ← readUInt32LE ver 0;
  conn_ ← defined (recordHeaderFields !! js "conn");
  conn ← readUInt32LE conn_ 0;
  recievedMsgs ← array_from count (fun i =>
    recievedTime ← extractTime recordDataBuffer (i * 12);
    msgDataOffset ← readUInt32LE recordDataBuffer (i * 12 + 8);
    Ok {| recievedTime := recievedTime; msgDataOffset := msgDataOffset |});
  Ok {| index_rest := rest record; index_version := version; index_conn := conn;
        index_count := count; recievedMsgs := recievedMsgs |}.

Section Pipeline.
(** [LZ4.decompress] of the lz4js package, and the depth of calls that
    the engine allows. *)
Variable lz4_decompress : list byte -> Z -> completion (list byte).
Variable stack : nat.

(** [recordDecompression[compression](buffer, size)] of
    helper-functions.ts; [Ok None] is a result that is no buffer. A tag
    without an entry is a call of undefined. A tag that is one of
    [Object_prototype_names] finds the inherited function: [constructor]
    returns the buffer that it is given, [__defineGetter__] and
    [__defineSetter__] refuse the size as an accessor, the value of
    [__proto__] is no function, and the others return a string, a
    boolean, an object or undefined. *)
Definition recordDecompression (compression : jsstring) (buffer : Buffer) (size : Z)
    : completion (option Buffer) :=
  if bool_decide (compression = js "none") then Ok (Some buffer)
  else if bool_decide (compression = js "lz4")
  then (fun decompressed => Some (Buffer_from decompressed))
         <$> lz4_decompress (bytes buffer) size
  else if bool_decide (compression = js "constructor") then Ok (Some buffer)
  else if bool_decide (compression ∈ [js "__defineGetter__"; js "__defineSetter__";
                                      js "__proto__"])
  then Throw TypeError
  else if bool_decide (compression ∈ Object_prototype_names) then Ok None
  else Throw TypeError.

(** The record of the chunk, decompressed, and the pointers of its index
    in the order of the sort: the first half of [_processChunkBuffer].
    [None] is the early [return []]. When [chunk.recordDataBuffer] has
    become a value that is no buffer, the first round of the second loop
    throws at its call of [subarray]; without a pointer that loop does
    not run and the data of the chunk is never read. *)
Definition sortedPointers (buffer : Buffer) (chunkInfo : IChunkInfo)
    : completion (option (IRecordShallow * list IIndexDataMsg)) :=
  chunk ← shallowRecordRead buffer (chunkPosition chunkInfo);
  match chunk with
  | None => Ok None
  | Some chunk =>
    compression ← defined (recordHeaderFields chunk !! js "compression");
    let compression := toString compression in
    size_ ← defined (recordHeaderFields chunk !! js "size");
    chunkSize ← readUInt32LE size_ 0;
    decompressedBuffer ← recordDecompression compression (recordDataBuffer chunk) chunkSize;
    indexedDataList ← retrieveRecordsFromBuffer
                        (subarray buffer (recordLength (rest chunk)) None)
                        (count chunkInfo)
                        (chunkPosition chunkInfo + recordLength (rest chunk))
                        _parseIndexDataRecord;
    let messagePointers := concat (map recievedMsgs indexedDataList) in
    let sortedPointers :=
      js_sort (fun a b => compareTime (recievedTime a) (recievedTime b))
              messagePointers in
    match decompressedBuffer, sortedPointers with
    | Some decompressedBuffer, _ =>
      Ok (Some ({| rest := rest chunk;
                   recordHeaderFields := recordHeaderFields chunk;
                   recordDataBuffer := decompressedBuffer |}, sortedPointers))
    | None, [] => Ok (Some (chunk, []))
    | None, _ :: _ => Throw TypeError
    end
  end.

(** The message record that a pointer designates, with its connection
    number and its time: what one round of the second loop reads before
    it looks the connection up. *)
Definition messageRecord (chunk : IRecordShallow) (pointer : IIndexDataMsg)
    : completion (option IRecordShallow) :=
  shallowRecordRead
    (subarray (recordDataBuffer chunk) (msgDataOffset pointer) None)
    (recordDataOffset (rest chunk)).

Definition messageConn (msgRecord : IRecordShallow) : completion Z :=
  conn_ ← defined (recordHeaderFields msgRecord !! js "conn");
  readUInt32LE conn_ 0.

Definition messageTime (msgRecord : IRecordShallow) : completion ITime :=
  time_ ← defined (recordHeaderFields msgRecord !! js "time");
  extractTime time_ 0.

Definition set_msgSchemas (schemas : list (option jsstring * IMsgSchema))
    : SE ChunkInfoManager unit := fun this =>
  ({| _connections := _connections this; _msgSchemas := schemas;
      _readers := _readers this; _chunkCache := _chunkCache this;
      _currentCacheBytes := _currentCacheBytes this |}, Ok tt).

(** The schema of a message type, compiled on its first use. *)
Definition schemaOf (connection : IConnection) : SE ChunkInfoManager IMsgSchema :=
  fun this =>
  match Map_get (_msgSchemas this) (messageType connection) with
  | Some schema => (this, Ok schema)
  | None =>
    (messageDefinition ← lift (defined (messageDefinition connection));
     schema ← lift (parseMsgDefinition messageDefinition);
     _ ← set_msgSchemas (Map_set (_msgSchemas this) (messageType connection) schema);
     mret schema) this
  end.

(** [try { this._readers.readMsg(...) } catch { console.warn(...) }]:
    [None] is a message that was skipped. *)
Definition tryReadMsg (connection : IConnection) (schema : IMsgSchema)
    (msgRecord : IRecordShallow) : SE ChunkInfoManager (option JSValue) :=
  fun this =>
  let '(readers, r) :=
    readMsg stack (messageType connection) schema (recordDataBuffer msgRecord)
            (_readers this) in
  ({| _connections := _connections this; _msgSchemas := _msgSchemas this;
      _readers := readers; _chunkCache := _chunkCache this;
      _currentCacheBytes := _currentCacheBytes this |},
   Ok (match r with Ok parsed => Some parsed | Throw _ => None end)).

(** One round of the second loop: the message of a pointer, or [None]
    after a [continue] or a caught error. *)
Definition decodePointer (chunk : IRecordShallow) (pointer : IIndexDataMsg)
    : SE ChunkInfoManager (option IRosbagMessage) :=
  msgRecord ← lift (messageRecord chunk pointer);
  match msgRecord with
  | None => mret None
  | Some msgRecord =>
    conn ← lift (messageConn msgRecord);
    this ← (fun this => (this, Ok this));
    match Map_get (_connections this) conn with
    | None => mret None
    | Some connection =>
      time ← lift (messageTime msgRecord);
      schema ← schemaOf connection;
      parsed ← tryReadMsg connection schema msgRecord;
      mret ((fun parsed => {| topic := topicName connection; time := time;
                              data := parsed |}) <$> parsed)
    end
  end.

Fixpoint decodePointers (chunk : IRecordShallow) (pointers : list IIndexDataMsg)
    : SE ChunkInfoManager (list IRosbagMessage) :=
  match pointers with
  | [] => mret []
  | pointer :: rest =>
    message ← decodePointer chunk pointer;
    rosMessages ← decodePointers chunk rest;
    mret (match message with
          | Some m => m :: rosMessages
          | None => rosMessages
          end)
  end.

Definition _processChunkBuffer (buffer : Buffer) (chunkInfo : IChunkInfo)
    : SE ChunkInfoManager (list IRosbagMessage) :=
  sorted ← lift (sortedPointers buffer chunkInfo);
  match sorted with
  | None => mret []
  | Some (chunk, sortedPointers) => decodePointers chunk sortedPointers
  end.

(** [reader.onload] of [readChunk$] for a chunk that is not cached: the
    bytes from the chunk position to [nextChunkPos] are decoded and, when
    nothing was thrown, cached. *)
Definition readChunk_onload (file : list byte) (chunkInfo : IChunkInfo)
    (nextChunkPos : Z) (connections : list (Z * IConnection))
    (this : ChunkInfoManager)
    : option (ChunkInfoManager * completion (list IRosbagMessage)) :=
  let this :=
    {| _connections := connections; _msgSchemas := _msgSchemas this;
       _readers := _readers this; _chunkCache := _chunkCache this;
       _currentCacheBytes := _currentCacheBytes this |} in
  let buffer := Buffer_from (slice file (chunkPosition chunkInfo) (Some nextChunkPos)) in
  match _processChunkBuffer buffer chunkInfo this with
  | (this, Ok messages) =>
    this ← cacheChunk chunkInfo messages this;
    Some (this, Ok messages)
  | (this, Throw e) => Some (this, Throw e)
  end.


End Pipeline.

Definition cache_bytes (cache : list (Z * IChunkCache)) : Z :=
  foldr (fun e acc => size e.2 + acc) 0 cache.

(** What holds between two insertions: no entry has a negative size, the
    counter covers the entries, and the counter is within the budget. *)
Definition cache_inv (cache : list (Z * IChunkCache)) (currentCacheBytes : Z) : Prop :=
  Forall (fun e => 0 <= size e.2) cache /\
  cache_bytes cache <= currentCacheBytes /\
  currentCacheBytes <= _maxCacheBytes.

(** Two managers with the same cache and the same byte counter. *)
Definition same_cache (a b : ChunkInfoManager) : Prop :=
  _chunkCache a = _chunkCache b /\ _currentCacheBytes a = _currentCacheBytes b.

(** Orders on the decoded messages and on the pointers of an index. *)
Definition messages_sorted (msgs : list IRosbagMessage) : Prop :=
  StronglySorted (fun a b => compareTime (time a) (time b) <= 0) msgs.

Definition pointers_sorted (pointers : list IIndexDataMsg) : Prop :=
  StronglySorted (fun a b => compareTime (recievedTime a) (recievedTime b) <= 0)
                 pointers.

(** The pointers that the index dates at [t]. *)
Definition received_at (t : ITime) (pointer : IIndexDataMsg) : bool :=
  bool_decide (recievedTime pointer = t).

(** The pointers are those of the index records, in the order of their
    received times and, among pointers of one time, in the order of the
    index. *)
Definition index_order (pointers : list IIndexDataMsg)
    (indexedDataList : list IIndexData) : Prop :=
  let indexed := concat (map recievedMsgs indexedDataList) in
  pointers_sorted pointers /\
  Permutation pointers indexed /\
  forall t, List.filter (received_at t) pointers = List.filter (received_at t) indexed.

(** The message comes from the record that the pointer designates, and
    its time is the time field of the header of that record. *)
Definition decoded_from (chunk : IRecordShallow) (m : IRosbagMessage)
    (pointer : IIndexDataMsg) : Prop :=
  exists msgRecord,
    messageRecord chunk pointer = Ok (Some msgRecord) /\
    messageTime msgRecord = Ok (time m).

(** The index and the message headers of a chunk tell the same times. *)
Definition times_agree (chunk : IRecordShallow) (pointers : list IIndexDataMsg) : Prop :=
  forall pointer msgRecord t,
    pointer ∈ pointers ->
    messageRecord chunk pointer = Ok (Some msgRecord) ->
    messageTime msgRecord = Ok t ->
    t = recievedTime pointer.

End ChunkInfoManager.

(** ** The BagInspector and utils/bag-format-constants *)

Module BagInspector.

Definition FORMAT_VERSION_OFFSET : Z := 13.
Definition FORMAT_VERSION : jsstring := js "#ROSBAG V2.0" ++ [10].
Definition HEADER_MIN_LEN : Z := 8.
Definition HEADER_PADDING : Z := 4096.

Record IBagHeaderInfo : Type := mkHeaderInfo {
  chunkCount : Z;
  indexPos : Z;
  connCount : Z
}.

(** The three messages of [_verifyHeader], named as the specification
    names them; the first one quotes the string that was found. *)
Inductive headerError : Type :=
| NoError
| InvalidMagic (found : jsstring)
| Truncated
| HeaderTooLarge.

Record IBagHeaderValidation : Type := mkValidation {
  valid : bool;
  error : headerError
}.

Definition _verifyHeader (headerBuffer : Buffer) : completion IBagHeaderValidation :=
  let magicWordBuffer := subarray headerBuffer 0 (Some FORMAT_VERSION_OFFSET) in
  let totalBufferLength := blength headerBuffer in
  if negb (bool_decide (toString magicWordBuffer = FORMAT_VERSION)) then
    Ok {| valid := false; error := InvalidMagic (toString magicWordBuffer) |}
  else if totalBufferLength <? FORMAT_VERSION_OFFSET + HEADER_MIN_LEN then
    Ok {| valid := false; error := Truncated |}
  else
    headerLength ← readInt32LE headerBuffer FORMAT_VERSION_OFFSET;
    if totalBufferLength <? FORMAT_VERSION_OFFSET + HEADER_MIN_LEN + headerLength
    then Ok {| valid := false; error := HeaderTooLarge |}
    else Ok {| valid := true; error := NoError |}.

Definition _parseBagHeader (headerBuffer : Buffer) : completion IBagHeaderInfo :=
  headerLength ← readInt32LE headerBuffer FORMAT_VERSION_OFFSET;
  let headerFieldOffset := FORMAT_VERSION_OFFSET + 4 in
  let headerFieldsBuffer :=
    subarray headerBuffer headerFieldOffset (Some (headerFieldOffset + headerLength)) in
  headerFields ← extractFields headerFieldsBuffer;
  match headerFields with
  | None => Throw PlainError
  | Some headerFields =>
    index_pos ← defined (headerFields !! js "index_pos");
    indexPos ← Int53.readUInt64LE index_pos 0;
    conn_count ← defined (headerFields !! js "conn_count");
    connCount ← readInt32LE conn_count 0;
    chunk_count ← defined (headerFields !! js "chunk_count");
    chunkCount ← readInt32LE chunk_count 0;
    Ok {| indexPos := indexPos; connCount := connCount; chunkCount := chunkCount |}
  end.

(** The [map] callback of [_readHeader$] on the first 4096 bytes. *)
Definition _readHeader (file : list byte) : completion IBagHeaderInfo :=
  let headerBuffer := Buffer_from (slice file 0 (Some HEADER_PADDING)) in
  validation ← _verifyHeader headerBuffer;
  if negb (valid validation) then Throw PlainError
  else _parseBagHeader headerBuffer.

Definition _parseConnectionRecord (shallowRecordData : IRecordShallow)
    : completion (option IConnection) :=
  dataFields ← extractFields (recordDataBuffer shallowRecordData);
  match dataFields with
  | None => Ok None
  | Some dataFields =>
    let recordHeaderFields := recordHeaderFields shallowRecordData in
    conn_ ← defined (recordHeaderFields !! js "conn");
    conn ← readUInt32LE conn_ 0;
    topic ← defined (recordHeaderFields !! js "topic");
    Ok (Some {| conn_rest := rest shallowRecordData;
                conn := conn;
                topicName := toString topic;
                messageType := getField dataFields (js "type");
                md5sum := getField dataFields (js "md5sum");
                messageDefinition := getField dataFields (js "message_definition") |})
  end.

Definition _parseChunkInfo (shallowRecordData : IRecordShallow) : completion IChunkInfo :=
  let recordDataBuffer := recordDataBuffer shallowRecordData in
  let recordHeaderFields := recordHeaderFields shallowRecordData in
  count_ ← defined (recordHeaderFields !! js "count");
  count ← readUInt32LE count_ 0;
  version ← match recordHeaderFields !! js "ver" with
            | Some ver => Some <$> readUInt32LE ver 0
            | None => Ok None
            end;
  chunk_pos ← defined (recordHeaderFields !! js "chunk_pos");
  chunkPosition ← Int53.readUInt64LE chunk_pos 0;
  start_time ← defined (recordHeaderFields !! js "start_time");
  startTime ← extractTime start_time 0;
  end_time ← defined (recordHeaderFields !! js "end_time");
  endTime ← extractTime end_time 0;
  connections ← array_from count (fun i =>
    conn ← readUInt32LE recordDataBuffer (i * 8);
    count ← readUInt32LE recordDataBuffer (i * 8 + 4);
    Ok {| cc_conn := conn; cc_count := count |});
  Ok {| chunk_rest := rest shallowRecordData;
        version := version;
        chunkPosition := chunkPosition;
        startTime := startTime;
        endTime := endTime;
        count := count;
        connections := connections;
        idx := 0;
        nextChunkPosition := None |}.

Record IBagMetadata : Type := mkMetadata {
  md_connections : list (Z * IConnection);
  chunksInfo : list IChunkInfo;
  md_startTime : ITime;
  md_endTime : ITime
}.

(** The chain [.map(link).sort(byStartTime).map(index)] that
    [_extractFileMetadata$] applies to the parsed chunk infos. *)
Definition linkSortIndex (chunksInfo : list IChunkInfo) (fileSize : Z)
    : list IChunkInfo :=
  let linked :=
    imap (fun i chunk =>
            with_nextChunkPosition chunk
              (js_or (chunkPosition <$> chunksInfo !! (i + 1)%nat) fileSize))
         chunksInfo in
  let sorted := js_sort (fun a b => compareTime (startTime a) (startTime b)) linked in
  imap (fun idx chunk => with_idx chunk (Z.of_nat idx)) sorted.

(** A chunk info without the index that the last [map] writes. *)
Definition unindexed (chunk : IChunkInfo) : IChunkInfo := with_idx chunk 0.

(** The [map] callback of [_extractFileMetadata$] on the bytes from
    [indexPos] to the end of the file. *)
Definition _extractFileMetadata (file : list byte) (bagHeaderInfo : IBagHeaderInfo)
    : completion IBagMetadata :=
  let connCount := connCount bagHeaderInfo in
  let chunkCount := chunkCount bagHeaderInfo in
  let indexPos := indexPos bagHeaderInfo in
  let fileSize := Z.of_nat (length file) in
  let bufferResult := Buffer_from (slice file indexPos (Some fileSize)) in
  connections ← retrieveRecordsFromBuffer bufferResult connCount indexPos
                   _parseConnectionRecord;
  entries ← mapM (fun c => c ← defined c; Ok (conn c, c)) connections;
  let connectionsMap := Map_of entries in
  lastConnection ← defined (mjoin (connections !! Z.to_nat (connCount - 1)));
  let chunksInfoOffset :=
    recordOffset (conn_rest lastConnection) + recordLength (conn_rest lastConnection) in
  chunksInfo ← retrieveRecordsFromBuffer
                 (subarray bufferResult (chunksInfoOffset - indexPos) None)
                 chunkCount chunksInfoOffset _parseChunkInfo;
  let chunksInfo := linkSortIndex chunksInfo fileSize in
  first ← defined (chunksInfo !! 0%nat);
  last ← defined (chunksInfo !! (length chunksInfo - 1)%nat);
  Ok {| md_startTime := startTime first;
        md_endTime := endTime last;
        chunksInfo := chunksInfo;
        md_connections := connectionsMap |}.

(** The forward links as they come out of the [map] that runs before
    the sort: every chunk points to the chunk that follows it among the
    chunk-info records of the index, the last record to the file end. *)
Fixpoint linked_in_record_order (raw : list IChunkInfo) (fileSize : Z)
    : list IChunkInfo :=
  match raw with
  | [] => []
  | c :: r =>
    with_nextChunkPosition c
      (match r with c' :: _ => chunkPosition c' | [] => fileSize end)
    :: linked_in_record_order r fileSize
  end.

(** The links as the specification words them, over the emitted order. *)
Definition links_in_emitted_order (out : list IChunkInfo) (fileSize : Z) : Prop :=
  forall (i : nat) (c : IChunkInfo), out !! i = Some c ->
    nextChunkPosition c =
      Some (match out !! (i + 1)%nat with
            | Some c' => chunkPosition c'
            | None => fileSize
            end).

Definition by_startTime (a b : IChunkInfo) : Z :=
  compareTime (startTime a) (startTime b).

Definition starts_at (t : ITime) (c : IChunkInfo) : bool :=
  bool_decide (startTime c = t).

(** Header validation as the specification words it: the header length
    is an unsigned 32-bit integer. *)
Inductive verdict : Type :=
| Valid
| FailInvalidMagic
| FailTruncated
| FailHeaderTooLarge.

Definition magic_bytes : list byte := js_bytes "#ROSBAG V2.0" ++ [Byte.x0a].

Definition verifyHeader_spec (buffer : list byte) : verdict :=
  let buffer_length := Z.of_nat (length buffer) in
  if negb (bool_decide (take 13 buffer = magic_bytes)) then FailInvalidMagic
  else if buffer_length <? 13 + 8 then FailTruncated
  else
    let header_length := le_unsigned (take 4 (drop 13 buffer)) in
    if buffer_length <? 13 + 8 + header_length then FailHeaderTooLarge
    else Valid.

Definition verdict_of (v : IBagHeaderValidation) : verdict :=
  match error v with
  | NoError => Valid
  | InvalidMagic _ => FailInvalidMagic
  | Truncated => FailTruncated
  | HeaderTooLarge => FailHeaderTooLarge
  end.

End BagInspector.

(** ** The RosbagManager: the playback clock *)

Module RosbagManager.
Import BagInspector ChunkInfoManager.

Record IRosbagOptions : Type := mkOptions {
  prefetch : Q;
  playbackSpeed : Q;
  loop : bool
}.

(** The subjects of the manager, each by its current value. *)
Record RosbagManager : Type := mkRosbagManager {
  _bagMetadata : option IBagMetadata;
  _chunkManager : ChunkInfoManager;
  _options : IRosbagOptions;
  _isPlaying : bool;
  _currentBagTime : option ITime;
  _wallStartTime : Q
}.

(** The variables that [play] declares and that the callback of the
    interval reads and writes. *)
Record clock : Type := mkClock {
  bagTimeAtWallStart : ITime;
  lastPrefetchTimeSec : Q
}.

(** What a call makes observable: a value pushed on a subject, or the
    chunk reads that a prefetch subscribes to. *)
Inductive event : Type :=
| currentBagTime_next (t : option ITime)
| isPlaying_next (b : bool)
| onMessages_next (messages : list IRosbagMessage)
| prefetch_subscribed (chunks : list IChunkInfo).

Definition default_options : IRosbagOptions :=
  {| prefetch := 10; playbackSpeed := 1; loop := true |}.

(** [t.sec + t.nsec / 1e9] *)
Definition seconds (t : ITime) : Q :=
  (inject_Z (sec t) + inject_Z (nsec t) / inject_Z e9)%Q.

Definition overlaps (start end_ : ITime) (chunk : IChunkInfo) : bool :=
  (0 <=? compareTime (endTime chunk) start)
  && (compareTime (startTime chunk) end_ <=? 0).

(** [_prefetchChunks]: the chunks of the window that are not cached; the
    subscription starts their reads, two at a time, and emits nothing on
    the message subject. *)
Definition _prefetchChunks (startTime : ITime) (this : RosbagManager)
    : completion (list IChunkInfo) :=
  let prefetchEndTime := addSecToTime startTime (prefetch (_options this)) in
  md ← defined (_bagMetadata this);
  let validEndTime :=
    if 0 <? compareTime prefetchEndTime (md_endTime md)
    then md_endTime md else prefetchEndTime in
  let relevantChunks := List.filter (overlaps startTime validEndTime) (chunksInfo md) in
  Ok (List.filter (fun chunk => negb (hasChunk (_chunkManager this) (idx chunk)))
                  relevantChunks).

Definition in_range (start end_ : ITime) (m : IRosbagMessage) : bool :=
  (0 <=? compareTime (time m) start) && (compareTime (time m) end_ <=? 0).

Definition _getMessagesInRange (start end_ : ITime) (this : RosbagManager)
    : list IRosbagMessage :=
  match _bagMetadata this with
  | None => []
  | Some md =>
    let relevantChunks := List.filter (overlaps start end_) (chunksInfo md) in
    concat (map (fun chunk =>
                   match getCachedChunk (_chunkManager this) (idx chunk) with
                   | Some cached => List.filter (in_range start end_) cached
                   | None => []
                   end) relevantChunks)
  end.

Definition set_currentBagTime (t : option ITime) (this : RosbagManager) : RosbagManager :=
  {| _bagMetadata := _bagMetadata this; _chunkManager := _chunkManager this;
     _options := _options this; _isPlaying := _isPlaying this;
     _currentBagTime := t; _wallStartTime := _wallStartTime this |}.

Definition set_isPlaying (b : bool) (this : RosbagManager) : RosbagManager :=
  {| _bagMetadata := _bagMetadata this; _chunkManager := _chunkManager this;
     _options := _options this; _isPlaying := b;
     _currentBagTime := _currentBagTime this; _wallStartTime := _wallStartTime this |}.

Definition set_wallStartTime (now : Q) (this : RosbagManager) : RosbagManager :=
  {| _bagMetadata := _bagMetadata this; _chunkManager := _chunkManager this;
     _options := _options this; _isPlaying := _isPlaying this;
     _currentBagTime := _currentBagTime this; _wallStartTime := now |}.

(** One callback of the interval that [play] subscribes to.
    [bagMetadata] is the value that [play] read when it was called; [now]
    and [now'] are the two readings of [performance.now()], in
    milliseconds, the second one taken when the clock is anchored again. *)
Definition tick (bagMetadata : IBagMetadata) (now now' : Q)
    (this : RosbagManager) (c : clock)
    : completion (RosbagManager * clock * list event) :=
  let elapsedSec := ((now - _wallStartTime this) / 1000)%Q in
  let newBagTime :=
    addSecToTime (bagTimeAtWallStart c)
                 (elapsedSec * playbackSpeed (_options this))%Q in
  let newTimeSec := seconds newBagTime in
  let previousBagTime :=
    addSecToTime (bagTimeAtWallStart c) (elapsedSec - (33 # 1000))%Q in
  if negb (isLessThan newBagTime (md_endTime bagMetadata)) then
    if loop (_options this) then
      let resetTime := md_startTime bagMetadata in
      let this := set_currentBagTime (Some resetTime) this in
      let this := set_wallStartTime now' this in
      chunks ← _prefetchChunks resetTime this;
      Ok (this,
          {| bagTimeAtWallStart := resetTime;
             lastPrefetchTimeSec := seconds resetTime |},
          [currentBagTime_next (Some resetTime); prefetch_subscribed chunks])
    else
      let this := set_isPlaying false this in
      let this := set_currentBagTime (Some (md_startTime bagMetadata)) this in
      Ok (this, c,
          [isPlaying_next false;
           currentBagTime_next (Some (md_startTime bagMetadata))])
  else
    let this := set_currentBagTime (Some newBagTime) this in
    let messages := _getMessagesInRange previousBagTime newBagTime this in
    if Qlt_le_dec (prefetch (_options this) / 2)
                  (newTimeSec - lastPrefetchTimeSec c) then
      chunks ← _prefetchChunks newBagTime this;
      Ok (this,
          {| bagTimeAtWallStart := bagTimeAtWallStart c;
             lastPrefetchTimeSec := newTimeSec |},
          [currentBagTime_next (Some newBagTime); onMessages_next messages;
           prefetch_subscribed chunks])
    else
      Ok (this, c,
          [currentBagTime_next (Some newBagTime); onMessages_next messages]).

(** [play], up to the subscription to the interval: [None] is the early
    [return] of a manager without metadata or already playing. *)
Definition play (now : Q) (this : RosbagManager)
    : option (RosbagManager * clock * list event) :=
  match _bagMetadata this with
  | None => None
  | Some bagMetadata =>
    if _isPlaying this then None
    else
      let '(this, bagTime, events) :=
        match _currentBagTime this with
        | None =>
          (set_currentBagTime (Some (md_startTime bagMetadata)) this,
           md_startTime bagMetadata,
           [currentBagTime_next (Some (md_startTime bagMetadata))])
        | Some t => (this, t, [])
        end in
      let this := set_wallStartTime now this in
      Some (set_isPlaying true this,
            {| bagTimeAtWallStart := bagTime; lastPrefetchTimeSec := seconds bagTime |},
            events ++ [isPlaying_next true])
  end.

(** The bag time that a tick computes. *)
Definition newBagTime_at (now : Q) (this : RosbagManager) (c : clock) : ITime :=
  addSecToTime (bagTimeAtWallStart c)
    (((now - _wallStartTime this) / 1000) * playbackSpeed (_options this))%Q.

Definition is_message_batch (e : event) : bool :=
  match e with onMessages_next _ => true | _ => false end.

End RosbagManager.

(** ** Inputs of the examples *)

Module Examples.
Import BagInspector.

Definition header_with_high_bit_length : list byte :=
  magic_bytes ++ [Byte.xff; Byte.xff; Byte.xff; Byte.xff]
              ++ [Byte.x00; Byte.x00; Byte.x00; Byte.x00].

(** Two chunk-info records whose record order is not their time order:
    the first record starts at 10 s, the second at 5 s. *)
Definition chunk_at (position start_sec end_sec : Z) : IChunkInfo :=
  {| chunk_rest := mkRecord 0 0 0; version := Some 1;
     chunkPosition := position;
     startTime := mkTime start_sec 0; endTime := mkTime end_sec 0;
     count := 0; connections := []; idx := 0; nextChunkPosition := None |}.

Definition two_chunks : list IChunkInfo :=
  [chunk_at 4096 10 12; chunk_at 8192 5 7].

(** A decoder state on the given bytes, with fresh [MessageReaders]. *)
Definition decoding (bs : list Z) (off : Z) : MessageReader.DecState :=
  {| MessageReader.reader :=
       {| MessageReader.buffer := Buffer_from (map byte_of_Z bs);
          MessageReader.offset := off |};
     MessageReader.this := MessageReader.new_MessageReaders |}.

Definition scalar_field (name type : string) (constant : option jsstring) : IMsgFormat :=
  {| key := js name; keyType := js type; isArray := false; nestedKeys := [];
     constantValue := constant; arrayLength := None |}.

Definition array_field (name type : string) (len : option Z) : IMsgFormat :=
  {| key := js name; keyType := js type; isArray := true; nestedKeys := [];
     constantValue := None; arrayLength := len |}.

(** The field of the line [uint8 MAX=255]. *)
Definition MAX_field : IMsgFormat := scalar_field "MAX" "uint8" (Some (js "255")).

(** The field of the line [string NAME=], a constant that is the empty
    string. *)
Definition empty_constant_field : IMsgFormat := scalar_field "NAME" "string" (Some []).

(** 2^53 + 1 in eight little-endian bytes. *)
Definition bytes_2p53_plus_1 : list Z := [1; 0; 0; 0; 0; 0; 32; 0].

(** [n] in eight little-endian bytes. *)
Definition le_bytes8 (n : Z) : list Z :=
  map (fun i => (n / 256 ^ i) mod 256) [0; 1; 2; 3; 4; 5; 6; 7].



Definition message_at (sec : Z) : IRosbagMessage :=
  {| topic := js "/t"; time := mkTime sec 0; data := VUndefined |}.


(** The fields [a=hello] and [b=xy ]. *)
Definition two_fields : list (list byte * list byte) :=
  [(js_bytes "a", js_bytes "hello"); (js_bytes "b", js_bytes "xy ")].

(** A record of the container: the header fields and the data, each
    after its length. *)
Definition record_bytes (header : list (list byte * list byte)) (data : list byte)
    : list byte :=
  frame (serialize header) ++ frame data.

Definition time_bytes (t : ITime) : list byte := u32le (sec t) ++ u32le (nsec t).

Definition message_record (conn : Z) (t : ITime) (payload : list byte) : list byte :=
  record_bytes [(js_bytes "conn", u32le conn); (js_bytes "time", time_bytes t)] payload.

(** A chunk of two messages on connection 0, of one byte each. The index
    dates them at 1 s and 2 s; their own headers say 9 s and 3 s. *)
Definition message_A : list byte := message_record 0 (mkTime 9 0) [Byte.x0a].
Definition message_B : list byte := message_record 0 (mkTime 3 0) [Byte.x0b].

Definition chunk_record : list byte :=
  record_bytes [(js_bytes "compression", js_bytes "none");
                (js_bytes "size", u32le (Z.of_nat (length (message_A ++ message_B))))]
               (message_A ++ message_B).

Definition index_record : list byte :=
  record_bytes [(js_bytes "ver", u32le 1); (js_bytes "conn", u32le 0);
                (js_bytes "count", u32le 2)]
               (time_bytes (mkTime 1 0) ++ u32le 0 ++
                time_bytes (mkTime 2 0) ++ u32le (Z.of_nat (length message_A))).

Definition chunk_buffer : Buffer := Buffer_from (chunk_record ++ index_record).

Definition chunk_info : IChunkInfo :=
  {| chunk_rest := mkRecord 0 0 0; version := Some 1; chunkPosition := 4117;
     startTime := mkTime 1 0; endTime := mkTime 2 0; count := 1;
     connections := [mkChunkConnection 0 2]; idx := 0;
     nextChunkPosition := Some (4117 + Z.of_nat (length (chunk_record ++ index_record))) |}.

Definition connection_0 : IConnection :=
  {| conn_rest := mkRecord 0 0 0; conn := 0; topicName := js "/t";
     messageType := Some (js "pkg/T"); md5sum := Some (js "*");
     messageDefinition := Some (js "uint8 v") |}.

Definition manager_0 : ChunkInfoManager.ChunkInfoManager :=
  {| ChunkInfoManager._connections := [(0, connection_0)];
     ChunkInfoManager._msgSchemas := [];
     ChunkInfoManager._readers := MessageReader.new_MessageReaders;
     ChunkInfoManager._chunkCache := [];
     ChunkInfoManager._currentCacheBytes := 0 |}.

(** A chunk whose index and headers agree (1 s and 2 s); the index lists
    the later message first. *)
Definition message_1s : list byte := message_record 0 (mkTime 1 0) [Byte.x0a].
Definition message_2s : list byte := message_record 0 (mkTime 2 0) [Byte.x0b].

Definition tagged_chunk_buffer (compression : string) : Buffer :=
  Buffer_from
    (record_bytes [(js_bytes "compression", js_bytes compression);
                   (js_bytes "size", u32le (Z.of_nat (length (message_1s ++ message_2s))))]
                  (message_1s ++ message_2s)
     ++ record_bytes [(js_bytes "ver", u32le 1); (js_bytes "conn", u32le 0);
                      (js_bytes "count", u32le 2)]
                     (time_bytes (mkTime 2 0) ++ u32le (Z.of_nat (length message_1s)) ++
                      time_bytes (mkTime 1 0) ++ u32le 0)).

Definition agreeing_chunk_buffer : Buffer := tagged_chunk_buffer "none".

Definition no_lz4 : list byte -> Z -> completion (list byte) :=
  fun _ _ => Throw PlainError.

Definition decoded_A : IRosbagMessage :=
  {| topic := js "/t"; time := mkTime 9 0; data := VObject [(js "v", VNumber 10)] |}.
(** The field of the line [uint8[0] x]. *)
Definition zero_length_field : IMsgFormat := array_field "x" "uint8" (Some 0).

(** The doubles nearest to 0.3 and to 2.3. *)
Definition double_0_3 : Q := 5404319552844595 # 18014398509481984.
Definition double_2_3 : Q := 2589569785738035 # 1125899906842624.

(** Two fields of which the first is named [__proto__]. *)
Definition proto_fields : list (list byte * list byte) :=
  [(js_bytes "__proto__", js_bytes "1"); (js_bytes "length", js_bytes "2")].

Definition decoded_B : IRosbagMessage :=
  {| topic := js "/t"; time := mkTime 3 0; data := VObject [(js "v", VNumber 11)] |}.

(** A manager that plays a bag of one chunk from 0 s to 10 s, at speed 1,
    with the default options; the clock was anchored at the start of the
    bag when the wall clock read 0 ms. *)
Definition bag_0_10 : BagInspector.IBagMetadata :=
  {| BagInspector.md_connections := [(0, connection_0)];
     BagInspector.chunksInfo := [with_nextChunkPosition (chunk_at 4117 0 10) 8192];
     BagInspector.md_startTime := mkTime 0 0;
     BagInspector.md_endTime := mkTime 10 0 |}.

Definition playing_manager : RosbagManager.RosbagManager :=
  {| RosbagManager._bagMetadata := Some bag_0_10;
     RosbagManager._chunkManager := manager_0;
     RosbagManager._options := RosbagManager.default_options;
     RosbagManager._isPlaying := true;
     RosbagManager._currentBagTime := Some (mkTime 9 990000000);
     RosbagManager._wallStartTime := 0 |}.

Definition playing_clock : RosbagManager.clock :=
  {| RosbagManager.bagTimeAtWallStart := mkTime 0 0;
     RosbagManager.lastPrefetchTimeSec := 5 |}.

(** A message decoded on fresh readers, from its definition text. *)
Definition decode_message (definition : jsstring) (payload : list Z)
    : completion JSValue :=
  schema ← Schema.parseMsgDefinition definition;
  (MessageReader.readMsg 8 (Some (js "pkg/T")) schema
     (Buffer_from (map byte_of_Z payload)) MessageReader.new_MessageReaders).2.

Definition nested_definition : jsstring :=
  js "Header h" ++ [10] ++ js "uint8 v" ++ [10] ++ js "===" ++ [10] ++
  js "MSG: std_msgs/Header" ++ [10] ++ js "uint32 seq" ++ [10] ++ js "time stamp".

(** A type with a field of a nested type and a field after it. *)
Definition outer_definition : jsstring :=
  js "Outer o" ++ [10] ++ js "MSG: pkg/Outer" ++ [10] ++ js "Inner i" ++ [10] ++
  js "uint8 b" ++ [10] ++ js "MSG: pkg/Inner" ++ [10] ++ js "uint8 a".

End Examples.
Import Examples.

(** ** Measures and byte layouts for the further properties *)



(** Records of the container laid out one after the other, and what the
    reader is to make of them: the header fields of a record have
    distinct names of 7-bit bytes other than '=', none of them
    [__proto__]; a record at [offset] reads as its header fields, its data
    and its three positions. *)
Abbreviation record_layout := (list (list byte * list byte) * list byte)%type.

Definition records_bytes (records : list record_layout) : list byte :=
  concat (map (fun r => record_bytes r.1 r.2) records).

Definition wf_header (header : list (list byte * list byte)) : Prop :=
  NoDup (map fst header) /\ Forall (fun f => field_name f.1) header.

Definition reads_as (offset : Z) (r : record_layout) (s : IRecordShallow) : Prop :=
  rest s = {| recordOffset := offset;
              recordLength := Z.of_nat (length (record_bytes r.1 r.2));
              recordDataOffset := offset + 8 + Z.of_nat (length (serialize r.1)) |} /\
  bytes <$> recordHeaderFields s = fields_map r.1 /\
  bytes (recordDataBuffer s) = r.2.

Fixpoint read_as_from (offset : Z) (records : list record_layout)
    (shallows : list IRecordShallow) : Prop :=
  match records, shallows with
  | [], [] => True
  | r :: records, s :: shallows =>
    reads_as offset r s /\
    read_as_from (offset + Z.of_nat (length (record_bytes r.1 r.2))) records shallows
  | _, _ => False
  end.

(** Numbers in the ranges of their fields, and the bytes of the parts
    that the record parsers read. *)
Definition u32 (n : Z) : Prop := 0 <= n < 2 ^ 32.

Definition u32_time (t : ITime) : Prop := u32 (sec t) /\ u32 (nsec t).

Definition u64le (n : Z) : list byte := u32le (n mod 2 ^ 32) ++ u32le (n / 2 ^ 32).

Definition chunkConnection_bytes (cc : IChunkConnection) : list byte :=
  u32le (cc_conn cc) ++ u32le (cc_count cc).

Definition indexDataMsg_bytes (m : ChunkInfoManager.IIndexDataMsg) : list byte :=
  time_bytes (ChunkInfoManager.recievedTime m)
  ++ u32le (ChunkInfoManager.msgDataOffset m).

(** The bytes of a header field, when the field is there. *)
Definition field_of (fields : IRecordFields) (name : string) : option (list byte) :=
  bytes <$> fields !! js name.

(** A chunk info whose numbers fit their fields and whose [count] is the
    number of its connection entries. *)
Definition chunkInfo_in_range (c : IChunkInfo) : Prop :=
  (forall v, version c = Some v -> u32 v) /\
  0 <= chunkPosition c < 2 ^ 53 /\
  u32_time (startTime c) /\
  u32_time (endTime c) /\
  count c = Z.of_nat (length (connections c)) /\
  u32 (count c) /\
  Forall (fun cc => u32 (cc_conn cc) /\ u32 (cc_count cc)) (connections c).

(** The text of a field value. *)
Definition text_of (value : list byte) : jsstring := utf8Slice (map byteZ value).

(** A shallow record that holds the given header fields and data. *)
Definition shallow_of (header : list (list byte * list byte)) (data : list byte)
    : IRecordShallow :=
  {| rest := mkRecord 0 0 0;
     recordHeaderFields := Buffer_from <$> fields_map header;
     recordDataBuffer := Buffer_from data |}.

(** The chunk info of one chunk at position 4117 with two connections,
    and its header fields. *)
Definition parsed_chunk_info : IChunkInfo :=
  {| chunk_rest := mkRecord 0 0 0; version := Some 1; chunkPosition := 4117;
     startTime := mkTime 1 5; endTime := mkTime 2 0; count := 2;
     connections := [mkChunkConnection 0 3; mkChunkConnection 7 1];
     idx := 0; nextChunkPosition := None |}.

Definition chunk_info_header : list (list byte * list byte) :=
  [(js_bytes "ver", u32le 1); (js_bytes "chunk_pos", u64le 4117);
   (js_bytes "start_time", time_bytes (mkTime 1 5));
   (js_bytes "end_time", time_bytes (mkTime 2 0));
   (js_bytes "count", u32le 2)].

(** Two entries of an index record. *)
Definition index_entries : list ChunkInfoManager.IIndexDataMsg :=
  [ChunkInfoManager.mkIndexDataMsg (mkTime 1 0) 0;
   ChunkInfoManager.mkIndexDataMsg (mkTime 2 0) 37].

Definition index_header : list (list byte * list byte) :=
  [(js_bytes "ver", u32le 1); (js_bytes "conn", u32le 7); (js_bytes "count", u32le 2)].

(** The fields of a connection record. *)
Definition connection_header : list (list byte * list byte) :=
  [(js_bytes "conn", u32le 7); (js_bytes "topic", js_bytes "/t")].

Definition connection_data : list (list byte * list byte) :=
  [(js_bytes "topic", js_bytes "/t"); (js_bytes "type", js_bytes "pkg/T");
   (js_bytes "md5sum", js_bytes "*"); (js_bytes "message_definition", js_bytes "uint8 v")].

(** The start of a bag file: the magic, the header fields and no
    padding. *)
Definition bag_header_fields : list (list byte * list byte) :=
  [(js_bytes "index_pos", u64le 4117); (js_bytes "conn_count", u32le 1);
   (js_bytes "chunk_count", u32le 3)].

Definition bag_start : list byte :=
  BagInspector.magic_bytes ++ frame (serialize bag_header_fields) ++ frame [].

(** The index section of a bag behind five bytes: one connection record
    and two chunk-info records. *)
Definition index_file : list byte :=
  repeat Byte.x00 5
  ++ records_bytes [(connection_header, serialize connection_data)]
  ++ records_bytes
       [(chunk_info_header,
         concat (map chunkConnection_bytes (connections parsed_chunk_info)));
        (chunk_info_header,
         concat (map chunkConnection_bytes (connections parsed_chunk_info)))].

Definition index_file_header : BagInspector.IBagHeaderInfo :=
  {| BagInspector.chunkCount := 2; BagInspector.indexPos := 5;
     BagInspector.connCount := 1 |}.

(** ** The schema compiler on the lines it has parsed

    The second loop of [parseMsgDefinition] with the object [lineFormat]
    of each line given, and the sections that a definition text is made
    of: the lines before the first [MSG:] line, then one section for each
    [MSG:] line with the lines that follow it. *)

Module SchemaSections.
Import Schema.

Definition filteredLines (msgDef : jsstring) : list jsstring :=
  List.filter retained (map trim (split 10 msgDef)).

Definition scan_format (is_last : bool) (st : scan) (lineFormat : IMsgFormat) : scan :=
  if bool_decide (keyType lineFormat = js "msg:") then
    let st := if has_key (currentMSG st) then finalize st else st in
    {| scan_topLevelKeys := scan_topLevelKeys st;
       scan_MSGSTypes := scan_MSGSTypes st;
       currentMSG := lineFormat |}
  else if has_key (currentMSG st) then
    let st := {| scan_topLevelKeys := scan_topLevelKeys st;
                 scan_MSGSTypes := scan_MSGSTypes st;
                 currentMSG := push_nestedKey (currentMSG st) lineFormat |} in
    if is_last then finalize st else st
  else
    {| scan_topLevelKeys := scan_topLevelKeys st ++ [lineFormat];
       scan_MSGSTypes := scan_MSGSTypes st;
       currentMSG := currentMSG st |}.

Fixpoint scan_formats (st : scan) (formats : list IMsgFormat) : scan :=
  match formats with
  | [] => st
  | f :: rest =>
    scan_formats (scan_format (match rest with [] => true | _ :: _ => false end) st f) rest
  end.

Definition is_msg (f : IMsgFormat) : bool := bool_decide (keyType f = js "msg:").

Definition type_name (header : IMsgFormat) : jsstring :=
  toLowerCase (last_segment (key header)).

(** The type that a section gives: the line of its header under the name
    of the type, with the lines of the section as nested keys. *)
Definition type_of_section (s : IMsgFormat * list IMsgFormat) : jsstring * IMsgFormat :=
  (type_name s.1,
   {| key := key s.1; keyType := type_name s.1; isArray := isArray s.1;
      nestedKeys := nestedKeys s.1 ++ s.2; constantValue := constantValue s.1;
      arrayLength := arrayLength s.1 |}).

Definition section_lines (s : IMsgFormat * list IMsgFormat) : list IMsgFormat :=
  s.1 :: s.2.

(** The sections that end up in the schema: all of them, but for a last
    section that has no line. *)
Definition registered (sections : list (IMsgFormat * list IMsgFormat))
    : list (IMsgFormat * list IMsgFormat) :=
  match last sections with
  | Some (_, []) => removelast sections
  | _ => sections
  end.

Definition wf_section (s : IMsgFormat * list IMsgFormat) : Prop :=
  is_msg s.1 = true /\ has_key s.1 = true /\ Forall (fun f => is_msg f = false) s.2.

Definition with_current (st : scan) (m : IMsgFormat) : scan :=
  {| scan_topLevelKeys := scan_topLevelKeys st; scan_MSGSTypes := scan_MSGSTypes st;
     currentMSG := m |}.

(** The state once the open section, if there is one, is registered. *)
Definition close (st : scan) : scan :=
  if has_key (currentMSG st) then finalize st else st.

(** A line of fewer than two tokens. *)
Definition lacks_key (line : jsstring) : Prop :=
  (length (split_spaces (trim line)) < 2)%nat.

End SchemaSections.

(** ** Sizes on the wire

    The bytes that a primitive of a message takes; a string has no fixed
    size. *)
Definition stdType_size (m : MessageReader.StdType) : option Z :=
  match m with
  | MessageReader.t_string => None
  | MessageReader.t_json => Some 0
  | MessageReader.t_bool | MessageReader.t_int8 | MessageReader.t_uint8
  | MessageReader.t_byte | MessageReader.t_char => Some 1
  | MessageReader.t_int16 | MessageReader.t_uint16 => Some 2
  | MessageReader.t_int32 | MessageReader.t_uint32 | MessageReader.t_float32 => Some 4
  | MessageReader.t_float64 | MessageReader.t_int64 | MessageReader.t_uint64
  | MessageReader.t_time | MessageReader.t_duration => Some 8
  end.

(** ** What the decoder leaves in place

    A computation of the decoder respects a relation on the fields of
    the [MessageReaders] instance when the fields after it are related to
    the fields before it, whatever it returns or throws. *)
Module DecoderInvariants.
Import MessageReader.

Definition respects (R : MessageReaders -> MessageReaders -> Prop) {A} (m : Dec A) : Prop :=
  forall s, R (this s) (this (m s).1).

(** Every parser of the memo table is still there, unchanged. *)
Definition parsers_kept (t t' : MessageReaders) : Prop :=
  forall k fs, Map_get (msgTypesParsers t) k = Some fs ->
               Map_get (msgTypesParsers t') k = Some fs.

Definition msg_kept (t t' : MessageReaders) : Prop := msg t = msg t'.

End DecoderInvariants.

(** ** Accounting of the chunk cache

    The byte counter is exact when it is the sum of the sizes of the
    entries, none of them negative. *)
Definition cache_exact (this : ChunkInfoManager.ChunkInfoManager) : Prop :=
  Forall (fun e => 0 <= ChunkInfoManager.size e.2) (ChunkInfoManager._chunkCache this) /\
  ChunkInfoManager._currentCacheBytes this
  = ChunkInfoManager.cache_bytes (ChunkInfoManager._chunkCache this).

(** ** The compression tag of a chunk

    The tag that [_processChunkBuffer] hands to [recordDecompression]:
    the chunk record was read, and so were its fields compression and
    size. *)
Definition compression_of (buffer : Buffer) (chunkInfo : IChunkInfo) : option jsstring :=
  match shallowRecordRead buffer (chunkPosition chunkInfo) with
  | Ok (Some chunk) =>
    match recordHeaderFields chunk !! js "compression",
          recordHeaderFields chunk !! js "size" with
    | Some compression, Some size_ =>
      if 4 <=? blength size_ then Some (toString compression) else None
    | _, _ => None
    end
  | _ => None
  end.

(** ** Inputs of the further examples *)

(** A message of one byte that four more bytes follow in its
    ArrayBuffer, the cursor at the end of the message. *)
Definition past_the_message : MessageReader.DecState :=
  {| MessageReader.reader :=
       {| MessageReader.buffer := mkBuffer [Byte.x01] [Byte.x02; Byte.x03; Byte.x04; Byte.x05];
          MessageReader.offset := 1 |};
     MessageReader.this := MessageReader.new_MessageReaders |}.

(** Readers that hold a parser for the type [point], of one field, and a
    schema that defines [point] with two fields. *)
Definition readers_with_point : MessageReader.MessageReaders :=
  {| MessageReader.msgTypesParsers := [(js "point", [scalar_field "x" "uint8" None])];
     MessageReader._schemas := []; MessageReader.msg := [];
     MessageReader.result := []; MessageReader.result_id := 0 |}.

Definition schema_with_point : IMsgSchema :=
  {| topLevelKeys := [scalar_field "p" "point" None];
     MSGSTypes :=
       [(js "point",
         {| key := js "pkg/Point"; keyType := js "point"; isArray := false;
            nestedKeys := [scalar_field "x" "uint8" None; scalar_field "y" "uint8" None];
            constantValue := None; arrayLength := None |})] |}.

(** The chunk of the examples in a file, behind 4117 bytes, and a chunk
    info that bills it at 60 MiB. *)
Definition chunk_file : list byte :=
  map byte_of_Z (repeat 0 4117) ++ bytes chunk_buffer.


(** A chunk record whose compression is bz2. *)
Definition bz2_chunk_buffer : Buffer :=
  Buffer_from
    (record_bytes [(js_bytes "compression", js_bytes "bz2"); (js_bytes "size", u32le 4)]
                  [Byte.x42; Byte.x5a; Byte.x68; Byte.x39]).

(** The playing manager with looping switched off, and one that has
    the chunk of the bag in its cache, with messages at 1 s and at 2 s. *)
Definition playing_once_manager : RosbagManager.RosbagManager :=
  {| RosbagManager._bagMetadata := Some bag_0_10;
     RosbagManager._chunkManager := manager_0;
     RosbagManager._options :=
       {| RosbagManager.prefetch := 10; RosbagManager.playbackSpeed := 1;
          RosbagManager.loop := false |};
     RosbagManager._isPlaying := true;
     RosbagManager._currentBagTime := Some (mkTime 9 990000000);
     RosbagManager._wallStartTime := 0 |}.

Definition cached_manager : RosbagManager.RosbagManager :=
  {| RosbagManager._bagMetadata := Some bag_0_10;
     RosbagManager._chunkManager :=
       {| ChunkInfoManager._connections := [(0, connection_0)];
          ChunkInfoManager._msgSchemas := [];
          ChunkInfoManager._readers := MessageReader.new_MessageReaders;
          ChunkInfoManager._chunkCache :=
            [(0, {| ChunkInfoManager.messages := [message_at 1; message_at 2];
                    ChunkInfoManager.size := 4075 |})];
          ChunkInfoManager._currentCacheBytes := 4075 |};
     RosbagManager._options := RosbagManager.default_options;
     RosbagManager._isPlaying := true;
     RosbagManager._currentBagTime := Some (mkTime 0 0);
     RosbagManager._wallStartTime := 0 |}.

(** * Properties *)

Section TimeProperties.

Lemma addSecToTime_half :
  addSecToTime (mkTime 0 500000000) (1 # 2) = mkTime 1 0.
Proof. reflexivity. Qed.



(** *** The rounding of the product *)







(** The products round as they do in the code: 0.3 s is 300000000 ns
    although the double that holds 0.3 is below 0.3, and the fraction of
    2.3 s is 299999999 ns. *)
Lemma addSecToTime_rounds :
  is_double double_0_3 /\ is_double double_2_3 /\
  addSecToTime (mkTime 0 0) double_0_3 = mkTime 0 300000000 /\
  addSecToTime (mkTime 0 0) double_2_3 = mkTime 2 299999999.
Proof. repeat split. Qed.

(** C1. On the negative fractional offset of the specification's own
    example the code departs from the Euclidean completion: adding -0.25 s
    to {5, 0} gives {3, -250000000}, where the specification requires
    {4, 750000000}; the nanosecond field leaves [0, 1e9). *)
Theorem addSecToTime_negative_fraction :
  addSecToTime (mkTime 5 0) (-1 # 4) = mkTime 3 (-250000000) /\
  add_spec (mkTime 5 0) (-1 # 4) = mkTime 4 750000000 /\
  ~ (0 <= nsec (addSecToTime (mkTime 5 0) (-1 # 4)) < e9).
Proof.
  split; [reflexivity | split; [reflexivity |]].
  vm_compute. intros [H _]. apply H. reflexivity.
Qed.

End TimeProperties.

(** ** Facts on the run time *)

Section Runtime.

Lemma byteZ_range b : 0 <= byteZ b < 256.
Proof.
  unfold byteZ. pose proof (Byte.to_N_bounded b) as H.
  split; [lia |]. apply N2Z.inj_le in H. simpl in H. lia.
Qed.

Lemma byteZ_inj a b : byteZ a = byteZ b -> a = b.
Proof.
  unfold byteZ. intros H. apply N2Z.inj in H.
  pose proof (Byte.of_to_N a) as Ha. pose proof (Byte.of_to_N b) as Hb.
  rewrite H in Ha. congruence.
Qed.

Lemma byteZ_of_Z z : byteZ (byte_of_Z z) = z mod 256.
Proof.
  unfold byteZ, byte_of_Z.
  assert (Hr : 0 <= z mod 256 < 256) by (apply Z.mod_pos_bound; lia).
  destruct (Byte.of_N (Z.to_N (z mod 256))) as [b|] eqn:E.
  - apply Byte.to_of_N in E. rewrite E. lia.
  - apply Byte.of_N_None_iff in E. lia.
Qed.

Lemma lor_surrogate_high a c : 0 <= a -> Z.lor a 0xD800 = c -> c < 0x80 -> False.
Proof.
  intros Ha <- Hc.
  assert (H0 : 0 <= Z.lor a 55296) by (apply Z.lor_nonneg; lia).
  pose proof (Z.log2_lor a 55296 Ha ltac:(lia)) as Hl.
  assert (Hm : Z.log2 (Z.lor a 55296) <= Z.log2 127)
    by (apply Z.log2_le_mono; lia).
  change (Z.log2 55296) with 15 in Hl. change (Z.log2 127) with 6 in Hm. lia.
Qed.

(** A decoded string made of 7-bit code units comes from exactly these
    bytes. *)
Lemma utf8Slice_ascii_inv (s : jsstring) :
  Forall (fun c => c < 0x80) s ->
  forall bs, utf8Slice bs = s -> bs = s.
Proof.
  induction 1 as [| c s Hc Hs IH]; intros bs E.
  - destruct bs as [| b0 r0]; [reflexivity | exfalso].
    simpl in E.
    repeat match type of E with
           | (if ?c then _ else _) = _ => destruct c
           | match ?l with [] => _ | _ :: _ => _ end = _ => destruct l
           | _ => discriminate
           end.
    all: unfold push_code_point in E; destruct (_ <? _) in E; discriminate.
  - destruct bs as [| b0 r0]; [discriminate |].
    simpl in E.
    destruct (b0 <? 128) eqn:E0.
    + injection E as -> E. f_equal. apply IH, E.
    + exfalso.
      assert (Hbad : forall t, 0xFFFD :: t = c :: s -> False)
        by (intros t Ht; injection Ht as <- _; lia).
      repeat match type of E with
             | (if ?c then _ else _) = _ =>
               let H := fresh "B" in destruct c eqn:H
             | match ?l with [] => _ | _ :: _ => _ end = _ => destruct l
             | _ => solve [eapply Hbad; exact E]
             end.
      * injection E as <- _. apply andb_prop in B1 as [_ B1]. lia.
      * injection E as <- _.
        apply andb_prop in B2 as [B2 _]. apply andb_prop in B2 as [_ B2]. lia.
      * unfold push_code_point in E.
        destruct (_ <? _) eqn:B4 in E.
        -- injection E as <- _.
           eapply lor_surrogate_high; [| reflexivity | exact Hc].
           apply Z.land_nonneg. right. lia.
        -- apply andb_prop in B2 as [B2 _]. apply andb_prop in B2 as [_ B2].
           congruence.
Qed.

Lemma map_byteZ_inj (l1 l2 : list byte) : map byteZ l1 = map byteZ l2 -> l1 = l2.
Proof.
  revert l2. induction l1 as [| a l1 IH]; intros [| b l2] H; try discriminate.
  - reflexivity.
  - simpl in H. injection H as Hab H. f_equal; [apply byteZ_inj, Hab | apply IH, H].
Qed.

Lemma le_unsigned_app (a b : list byte) :
  le_unsigned (a ++ b) = le_unsigned a + 256 ^ Z.of_nat (length a) * le_unsigned b.
Proof.
  induction a as [| x a IH]; [simpl; lia |].
  cbn [app le_unsigned length]. rewrite IH, Nat2Z.inj_succ, Z.pow_succ_r by lia. lia.
Qed.

Lemma le_unsigned_range (l : list byte) :
  0 <= le_unsigned l < 256 ^ Z.of_nat (length l).
Proof.
  induction l as [| x l IH]; [simpl; lia |].
  cbn [le_unsigned length]. rewrite Nat2Z.inj_succ, Z.pow_succ_r by lia.
  pose proof (byteZ_range x). lia.
Qed.

Lemma read_bytes_ok (l : list byte) (off : Z) (n : nat) :
  0 <= off -> off + Z.of_nat n <= Z.of_nat (length l) ->
  read_bytes l off n = Ok (take n (drop (Z.to_nat off) l)).
Proof.
  intros H1 H2. unfold read_bytes.
  destruct (0 <=? off) eqn:E1; [| lia].
  destruct (off + Z.of_nat n <=? Z.of_nat (length l)) eqn:E2; [reflexivity | lia].
Qed.

Lemma readUInt32LE_ok (b : Buffer) (off : Z) :
  0 <= off -> off + 4 <= blength b ->
  readUInt32LE b off = Ok (le_unsigned (take 4 (drop (Z.to_nat off) (bytes b)))).
Proof.
  intros H1 H2. unfold readUInt32LE, blength in *.
  rewrite read_bytes_ok by lia. reflexivity.
Qed.

(** *** The readers of the int53 package *)

Lemma land_pow2 (h n : Z) :
  0 <= n -> Z.land h (2 ^ n) = if Z.testbit h n then 2 ^ n else 0.
Proof.
  intros Hn. apply Z.bits_inj'. intros m Hm.
  rewrite Z.land_spec, Z.pow2_bits_eqb by lia.
  destruct (Z.eqb_spec n m) as [-> |].
  - destruct (Z.testbit h m) eqn:E; simpl.
    + now rewrite Z.pow2_bits_true.
    + now rewrite Z.bits_0.
  - rewrite andb_false_r. destruct (Z.testbit h n).
    + rewrite Z.pow2_bits_false; [reflexivity | lia].
    + now rewrite Z.bits_0.
Qed.

Lemma sign_bit (h : Z) :
  0 <= h < 2 ^ 32 -> (Z.land h 0x80000000 =? 0) = (h <? 2 ^ 31).
Proof.
  intros Hh. change 0x80000000 with (2 ^ 31). rewrite land_pow2 by lia.
  destruct (Z.testbit h 31) eqn:E.
  - apply Z.testbit_true in E; [| lia].
    destruct (h <? 2 ^ 31) eqn:E'; [| reflexivity].
    apply Z.ltb_lt in E'. rewrite Z.div_small in E by lia. discriminate.
  - destruct (h <? 2 ^ 31) eqn:E'; [reflexivity |].
    apply Z.ltb_ge in E'.
    assert (Ht : Z.testbit h 31 = true); [| congruence].
    apply Z.testbit_true; [lia |].
    assert (h / 2 ^ 31 = 1); [| now replace (h / 2 ^ 31) with 1].
    symmetry. apply (Z.div_unique h (2 ^ 31) 1 (h - 2 ^ 31)); lia.
Qed.

Lemma onesComplement_u32 (n : Z) :
  0 <= n < 2 ^ 32 -> Int53.onesComplement n = 2 ^ 32 - 1 - n.
Proof.
  intros Hn. unfold Int53.onesComplement, Int53.toInt32, to_signed.
  rewrite Z.mod_small by lia. change (2 ^ (32 - 1)) with (2 ^ 31).
  destruct (n <? 2 ^ 31) eqn:E.
  - apply Z.ltb_lt in E.
    destruct (- n - 1 <? 0) eqn:E'; [| lia].
    change 0x7FFFFFFF with (Z.ones 31). rewrite Z.land_ones by lia.
    change 0x80000000 with (2 ^ 31).
    rewrite <- (Z.mod_unique (- n - 1) (2 ^ 31) (-1) (2 ^ 31 - 1 - n)); lia.
  - apply Z.ltb_ge in E.
    destruct (- (n - 2 ^ 32) - 1 <? 0) eqn:E'; lia.
Qed.

Lemma toDouble_unsigned (high low : Z) :
  0 <= low < 2 ^ 32 -> 0 <= high ->
  low + 2 ^ 32 * high < 2 ^ 53 ->
  Int53.toDouble high low false = Ok (low + 2 ^ 32 * high).
Proof.
  intros Hl Hh Hv. unfold Int53.toDouble, Int53.assert, Int53.MAX_UINT32. cbn [andb].
  destruct (high <? 0x00200000) eqn:E.
  - cbn. f_equal. lia.
  - apply Z.ltb_ge in E. lia.
Qed.

Lemma toDouble_signed (high low : Z) :
  0 <= low < 2 ^ 32 -> 0 <= high < 2 ^ 32 ->
  - 2 ^ 53 <= to_signed 64 (low + 2 ^ 32 * high) < 2 ^ 53 ->
  Int53.toDouble high low true = Ok (to_signed 64 (low + 2 ^ 32 * high)).
Proof.
  intros Hl Hh. unfold Int53.toDouble, to_signed.
  rewrite sign_bit by lia. cbn [andb]. change (2 ^ (64 - 1)) with (2 ^ 63).
  destruct (high <? 2 ^ 31) eqn:E; cbn [negb].
  - apply Z.ltb_lt in E.
    destruct (low + 2 ^ 32 * high <? 2 ^ 63) eqn:E'; [| lia].
    intros Hv. unfold Int53.assert, Int53.MAX_UINT32.
    destruct (high <? 0x00200000) eqn:E2; [cbn; f_equal; lia | lia].
  - apply Z.ltb_ge in E.
    destruct (low + 2 ^ 32 * high <? 2 ^ 63) eqn:E'; [lia |].
    intros Hv. rewrite !onesComplement_u32 by lia.
    unfold Int53.assert, Int53.MAX_UINT32.
    destruct (2 ^ 32 - 1 - high <? 0x00200000) eqn:E2; [cbn; f_equal; lia | lia].
Qed.

Lemma u32le_unsigned (n : Z) : 0 <= n < 2 ^ 32 -> le_unsigned (u32le n) = n.
Proof.
  intros Hn. unfold u32le. cbn [le_unsigned]. rewrite !byteZ_of_Z.
  change (2 ^ 8) with 256. change (2 ^ 16) with (256 * 256).
  change (2 ^ 24) with (256 * 256 * 256).
  change (2 ^ 32) with (256 * 256 * 256 * 256) in Hn.
  rewrite <- !Z.div_div by lia.
  set (a := n / 256). set (b := a / 256). set (c := b / 256).
  pose proof (Z.div_mod n 256 ltac:(lia)) as H1. fold a in H1.
  pose proof (Z.div_mod a 256 ltac:(lia)) as H2. fold b in H2.
  pose proof (Z.div_mod b 256 ltac:(lia)) as H3. fold c in H3.
  assert (Hc : 0 <= c < 256).
  { subst c b a. rewrite !Z.div_div by lia. split.
    - apply Z.div_pos; lia.
    - apply Z.div_lt_upper_bound; lia. }
  rewrite (Z.mod_small c) by lia. lia.
Qed.

End Runtime.

(** ** Header validation (BagInspector) *)

Section HeaderValidation.
Import BagInspector.

Lemma slice_prefix (l : list byte) (n : Z) :
  0 <= n -> slice l 0 (Some n) = take (Z.to_nat n) l.
Proof.
  intros Hn. unfold slice, relIndex.
  replace (0 <? 0) with false by reflexivity.
  destruct (n <? 0) eqn:E; [lia |].
  rewrite (Z.min_l 0) by lia. cbn [Z.to_nat]. rewrite drop_0.
  destruct (Z.min_spec n (Z.of_nat (length l))) as [[H ->] | [H ->]].
  - f_equal. lia.
  - rewrite Z.sub_0_r, Z.max_l by lia. rewrite Nat2Z.id.
    rewrite firstn_all. symmetry. apply firstn_all2. lia.
Qed.

Lemma magic_matches (b : Buffer) :
  toString (subarray b 0 (Some FORMAT_VERSION_OFFSET)) = FORMAT_VERSION <->
  take 13 (bytes b) = magic_bytes.
Proof.
  unfold toString, subarray. cbn [bytes].
  rewrite slice_prefix by (unfold FORMAT_VERSION_OFFSET; lia).
  change (Z.to_nat FORMAT_VERSION_OFFSET) with 13%nat.
  split.
  - intros H. apply utf8Slice_ascii_inv in H.
    + apply map_byteZ_inj. rewrite H. reflexivity.
    + vm_compute. repeat constructor.
  - intros ->. reflexivity.
Qed.

(** Where the unsigned header length stays below 2^31 the code and the
    specification agree on every buffer. *)
Lemma verifyHeader_agrees (b : Buffer) :
  le_unsigned (take 4 (drop 13 (bytes b))) < 2 ^ 31 ->
  verdict_of <$> _verifyHeader b = Ok (verifyHeader_spec (bytes b)).
Proof.
  intros Hlen. unfold _verifyHeader, verifyHeader_spec.
  destruct (bool_decide (take 13 (bytes b) = magic_bytes)) eqn:Hm.
  - apply bool_decide_eq_true in Hm. apply magic_matches in Hm.
    rewrite (bool_decide_eq_true_2 _ Hm). cbn [negb].
    unfold blength, FORMAT_VERSION_OFFSET, HEADER_MIN_LEN.
    destruct (Z.of_nat (length (bytes b)) <? 13 + 8) eqn:Hs; [reflexivity |].
    unfold readInt32LE, readUInt32LE.
    rewrite read_bytes_ok by lia. cbn [fmap completion_fmap mbind completion_bind].
    change (Z.to_nat 13) with 13%nat.
    unfold to_signed. change (2 ^ (32 - 1)) with (2 ^ 31).
    destruct (le_unsigned (take 4 (drop 13 (bytes b))) <? 2 ^ 31) eqn:Hl; [| lia].
    destruct (Z.of_nat (length (bytes b)) <? 13 + 8 + _); reflexivity.
  - apply bool_decide_eq_false in Hm.
    rewrite bool_decide_eq_false_2 by (rewrite magic_matches; exact Hm).
    reflexivity.
Qed.

(** C7. A header whose length field has its top bit set is accepted: the
    code reads the field as a signed integer (-1 here), so the check
    against the buffer length passes, where the unsigned reading of the
    specification (4294967295) gives HeaderTooLarge. *)
Theorem verifyHeader_accepts_high_bit_length :
  _verifyHeader (Buffer_from header_with_high_bit_length)
    = Ok {| valid := true; error := NoError |} /\
  verifyHeader_spec header_with_high_bit_length = FailHeaderTooLarge.
Proof. split; vm_compute; reflexivity. Qed.

(** The first byte changed from '#' to '$' is an invalid magic. *)
Lemma verifyHeader_dollar (tail : list byte) :
  verdict_of <$> _verifyHeader (Buffer_from (js_bytes "$ROSBAG V2.0" ++ Byte.x0a :: tail))
    = Ok FailInvalidMagic.
Proof.
  unfold _verifyHeader.
  rewrite bool_decide_eq_false_2; [reflexivity |].
  rewrite magic_matches. discriminate.
Qed.

End HeaderValidation.

(** ** The stable sort of the run time *)

Section StableSort.
Context {A : Type} (cmp : A -> A -> Z).

Hypothesis cmp_total : forall x y, cmp_le cmp x y \/ cmp_le cmp y x.
Hypothesis cmp_trans :
  forall x y z, cmp_le cmp x y -> cmp_le cmp y z -> cmp_le cmp x z.

Lemma sort_insert_perm x l : Permutation (sort_insert cmp x l) (x :: l).
Proof.
  induction l as [| y r IH]; simpl; [reflexivity |].
  destruct (cmp x y <=? 0); [reflexivity |].
  rewrite IH. apply perm_swap.
Qed.

Lemma js_sort_perm l : Permutation (js_sort cmp l) l.
Proof.
  induction l as [| x l IH]; simpl; [reflexivity |].
  rewrite sort_insert_perm. now constructor.
Qed.

Lemma sort_insert_hd x y l :
  (cmp_le cmp) y x -> HdRel (cmp_le cmp) y l -> HdRel (cmp_le cmp) y (sort_insert cmp x l).
Proof.
  intros Hyx Hl. destruct l as [| z r]; simpl; [now constructor |].
  destruct (cmp x z <=? 0); constructor; [exact Hyx |].
  now inversion Hl.
Qed.

Lemma sort_insert_sorted x l :
  Sorted (cmp_le cmp) l -> Sorted (cmp_le cmp) (sort_insert cmp x l).
Proof.
  induction 1 as [| y r Hr IH Hhd]; simpl.
  - repeat constructor.
  - destruct (cmp x y <=? 0) eqn:E.
    + apply Z.leb_le in E. repeat constructor; assumption.
    + apply Z.leb_gt in E. constructor; [exact IH |].
      apply sort_insert_hd; [| exact Hhd].
      destruct (cmp_total x y) as [H | H]; [unfold cmp_le in H; lia | exact H].
Qed.

Lemma js_sort_sorted l : StronglySorted (cmp_le cmp) (js_sort cmp l).
Proof.
  apply Sorted_StronglySorted; [exact cmp_trans |].
  induction l as [| x l IH]; simpl; [constructor |].
  now apply sort_insert_sorted.
Qed.

(** Stability: the elements that a predicate selects keep their order,
    when the comparator does not separate the selected elements. *)
Lemma js_sort_stable (P : A -> bool) l :
  (forall x y, P x = true -> P y = true -> (cmp_le cmp) x y) ->
  List.filter P (js_sort cmp l) = List.filter P l.
Proof.
  intros HP. induction l as [| x l IH]; simpl; [reflexivity |].
  rewrite <- IH. generalize (js_sort cmp l) as s. clear IH.
  induction s as [| y r IHs]; simpl; [reflexivity |].
  destruct (cmp x y <=? 0) eqn:E; simpl; [reflexivity |].
  rewrite IHs. apply Z.leb_gt in E.
  destruct (P x) eqn:Px; [| reflexivity].
  destruct (P y) eqn:Py; [| reflexivity].
  specialize (HP x y Px Py). unfold cmp_le in HP. lia.
Qed.

(** A sorted array is left as it is. *)
Lemma js_sort_id l : StronglySorted (cmp_le cmp) l -> js_sort cmp l = l.
Proof.
  induction 1 as [| x l Hl IH Hx]; simpl; [reflexivity |].
  rewrite IH. destruct l as [| y r]; simpl; [reflexivity |].
  inversion Hx as [| ? ? Hxy _]; subst. unfold cmp_le in Hxy.
  destruct (cmp x y <=? 0) eqn:E; [reflexivity | apply Z.leb_gt in E; lia].
Qed.

End StableSort.

Section CompareTime.

Lemma compareTime_le (a b : ITime) :
  compareTime a b <= 0 <-> sec a < sec b \/ (sec a = sec b /\ nsec a <= nsec b).
Proof.
  unfold compareTime. destruct (sec a - sec b =? 0) eqn:E.
  - apply Z.eqb_eq in E. lia.
  - apply Z.eqb_neq in E. lia.
Qed.

Lemma compareTime_total a b : compareTime a b <= 0 \/ compareTime b a <= 0.
Proof. rewrite !compareTime_le. lia. Qed.

Lemma compareTime_trans a b c :
  compareTime a b <= 0 -> compareTime b c <= 0 -> compareTime a c <= 0.
Proof. rewrite !compareTime_le. lia. Qed.

Lemma compareTime_refl a : compareTime a a = 0.
Proof. unfold compareTime. rewrite Z.sub_diag. simpl. lia. Qed.

End CompareTime.

(** ** Chunk infos after a file load (BagInspector) *)

Section ChunkInfos.
Import BagInspector.

Lemma linked_imap (fileSize : Z) (pre raw : list IChunkInfo) :
  Forall (fun c => chunkPosition c <> 0) raw ->
  imap (fun i chunk =>
          with_nextChunkPosition chunk
            (js_or (chunkPosition <$> (pre ++ raw) !! (length pre + i + 1)%nat) fileSize))
       raw
  = linked_in_record_order raw fileSize.
Proof.
  revert pre. induction raw as [| c r IH]; intros pre Hnz; [reflexivity |].
  rewrite imap_cons. cbn [linked_in_record_order]. f_equal.
  - f_equal. rewrite lookup_app_r by lia.
    replace (length pre + 0 + 1 - length pre)%nat with 1%nat by lia.
    destruct r as [| c' r']; [reflexivity |]. simpl.
    inversion Hnz as [| ? ? _ Hr]; subst. inversion Hr as [| ? ? Hc' _]; subst.
    destruct (chunkPosition c' =? 0) eqn:E; [apply Z.eqb_eq in E; tauto | reflexivity].
  - inversion Hnz as [| ? ? _ Hr]; subst.
    rewrite <- (IH (pre ++ [c]) Hr). apply imap_ext. intros i x _. simpl.
    rewrite <- app_assoc. simpl. rewrite length_app. simpl.
    replace (length pre + S i + 1)%nat with (length pre + 1 + i + 1)%nat by lia.
    reflexivity.
Qed.

Lemma StronglySorted_imap {A} (R : A -> A -> Prop) (f : nat -> A -> A) l :
  (forall i j x y, R x y -> R (f i x) (f j y)) ->
  StronglySorted R l -> StronglySorted R (imap f l).
Proof.
  intros Hf Hl. revert f Hf.
  induction Hl as [| x l Hl IH Hx]; intros f Hf; [constructor |].
  rewrite imap_cons. constructor.
  - apply IH. intros i j. apply Hf.
  - apply Forall_forall. intros y Hy.
    apply elem_of_lookup_imap in Hy as (i & z & -> & Hz).
    apply Hf. rewrite Forall_forall in Hx. apply Hx.
    eapply list_elem_of_lookup_2, Hz.
Qed.

Lemma map_unindexed_imap (g : nat -> Z) (l : list IChunkInfo) :
  map unindexed (imap (fun idx chunk => with_idx chunk (g idx)) l)
  = map unindexed l.
Proof.
  revert g. induction l as [| c r IH]; intros g; [reflexivity |].
  rewrite imap_cons. simpl. f_equal. apply (IH (fun i => g (S i))).
Qed.

(** C2 (amended). After a load the chunk infos are sorted by start time,
    chunk [i] carries [idx = i], and the sort is stable; the forward
    link of a chunk is the position of the chunk that follows it among
    the chunk-info records of the index (the file end for the last
    record): the links are made before the sort and travel with their
    chunks. *)
Theorem linkSortIndex_sorted_indexed_linked (raw : list IChunkInfo) (fileSize : Z) :
  Forall (fun c => chunkPosition c <> 0) raw ->
  let out := linkSortIndex raw fileSize in
  StronglySorted (fun a b => compareTime (startTime a) (startTime b) <= 0) out /\
  (forall (i : nat) c, out !! i = Some c -> idx c = Z.of_nat i) /\
  Permutation (map unindexed out)
              (map unindexed (linked_in_record_order raw fileSize)) /\
  (forall t, List.filter (starts_at t) (map unindexed out)
           = List.filter (starts_at t)
               (map unindexed (linked_in_record_order raw fileSize))).
Proof.
  intros Hnz out. subst out. unfold linkSortIndex.
  pose proof (linked_imap fileSize [] raw Hnz) as Hlink. simpl in Hlink.
  rewrite Hlink. clear Hlink.
  set (linked := linked_in_record_order raw fileSize).
  set (cmp := fun a b : IChunkInfo => compareTime (startTime a) (startTime b)).
  repeat split.
  - apply StronglySorted_imap; [intros i j x y H; exact H |].
    apply (js_sort_sorted cmp).
    + intros x y. apply compareTime_total.
    + intros x y z. apply compareTime_trans.
  - intros i c Hi. rewrite list_lookup_imap in Hi.
    destruct (js_sort cmp linked !! i); [| discriminate].
    injection Hi as <-. reflexivity.
  - rewrite (map_unindexed_imap Z.of_nat). apply Permutation_map, js_sort_perm.
  - intros t. rewrite (map_unindexed_imap Z.of_nat).
    assert (Hf : forall l, List.filter (starts_at t) (map unindexed l)
                         = map unindexed (List.filter (starts_at t) l)).
    { induction l as [| c r IH]; [reflexivity |]. cbn [map List.filter].
      replace (starts_at t (unindexed c)) with (starts_at t c) by reflexivity.
      destruct (starts_at t c); cbn [map]; now rewrite IH. }
    rewrite !Hf. f_equal. apply js_sort_stable.
    intros x y Hx Hy. unfold starts_at in Hx, Hy.
    apply bool_decide_eq_true in Hx, Hy. unfold cmp_le, cmp.
    rewrite Hx, Hy, compareTime_refl. lia.
Qed.

Lemma linked_lookup (raw : list IChunkInfo) (fileSize : Z) (i : nat) :
  linked_in_record_order raw fileSize !! i
  = (fun c => with_nextChunkPosition c
                (match raw !! (i + 1)%nat with
                 | Some c' => chunkPosition c'
                 | None => fileSize
                 end)) <$> raw !! i.
Proof.
  revert i. induction raw as [| c r IH]; intros i; [reflexivity |].
  destruct i as [| i]; cbn [linked_in_record_order].
  - cbn. destruct r; reflexivity.
  - cbn [lookup list_lookup]. apply IH.
Qed.

Lemma linked_sorted (raw : list IChunkInfo) (fileSize : Z) :
  StronglySorted (cmp_le by_startTime) raw ->
  StronglySorted (cmp_le by_startTime) (linked_in_record_order raw fileSize).
Proof.
  induction 1 as [| c r Hr IH Hc]; [constructor |].
  cbn [linked_in_record_order]. constructor; [exact IH |].
  apply Forall_forall. intros x Hx. apply list_elem_of_lookup in Hx as [i Hi].
  rewrite linked_lookup in Hi. destruct (r !! i) as [y |] eqn:Ey; [| discriminate].
  injection Hi as <-. rewrite Forall_forall in Hc.
  apply (Hc y). eapply list_elem_of_lookup_2, Ey.
Qed.

(** When the chunk-info records of the index already come in the order of
    their start times, the links are also those of the emitted order. *)
Lemma linkSortIndex_links_when_sorted (raw : list IChunkInfo) (fileSize : Z) :
  Forall (fun c => chunkPosition c <> 0) raw ->
  StronglySorted (cmp_le by_startTime) raw ->
  links_in_emitted_order (linkSortIndex raw fileSize) fileSize.
Proof.
  intros Hnz Hsorted. unfold linkSortIndex.
  pose proof (linked_imap fileSize [] raw Hnz) as Hlink. simpl in Hlink.
  rewrite Hlink. clear Hlink.
  change (fun a b : IChunkInfo => compareTime (startTime a) (startTime b))
    with by_startTime.
  rewrite js_sort_id by (apply linked_sorted, Hsorted).
  intros i c Hi. rewrite !list_lookup_imap, !linked_lookup in *.
  destruct (raw !! i) as [ci |]; [| discriminate]. cbn in Hi. injection Hi as <-.
  cbn. destruct (raw !! (i + 1)%nat); reflexivity.
Qed.

Lemma linkSortIndex_two_chunks :
  map (fun c => (idx c, chunkPosition c, nextChunkPosition c))
      (linkSortIndex two_chunks 12288)
  = [(0, 8192, Some 12288); (1, 4096, Some 8192)].
Proof. reflexivity. Qed.

(** The links are not those of the emitted order: chunk 0 of the completion
    points to the file end and not to the position of chunk 1. *)
Lemma linkSortIndex_links_not_in_emitted_order :
  ~ links_in_emitted_order (linkSortIndex two_chunks 12288) 12288.
Proof.
  intros H. specialize (H 0%nat _ eq_refl). vm_compute in H. discriminate H.
Qed.

Lemma linkSortIndex_sorted_indexed_linked_witness :
  Forall (fun c => chunkPosition c <> 0) two_chunks /\
  let out := linkSortIndex two_chunks 12288 in
  StronglySorted (fun a b => compareTime (startTime a) (startTime b) <= 0) out /\
  (forall (i : nat) c, out !! i = Some c -> idx c = Z.of_nat i) /\
  Permutation (map unindexed out)
              (map unindexed (linked_in_record_order two_chunks 12288)) /\
  (forall t, List.filter (starts_at t) (map unindexed out)
           = List.filter (starts_at t)
               (map unindexed (linked_in_record_order two_chunks 12288))).
Proof.
  assert (H : Forall (fun c => chunkPosition c <> 0) two_chunks)
    by (repeat constructor; simpl; lia).
  split; [exact H | exact (linkSortIndex_sorted_indexed_linked two_chunks 12288 H)].
Defined.

End ChunkInfos.

(** ** The message decoder (message-reader.ts) *)

Section Decoder.
Import Schema MessageReader.

Lemma parseMsgDefinition_MAX :
  parseMsgDefinition (js "uint8 MAX=255")
  = Ok {| topLevelKeys := [MAX_field]; MSGSTypes := [] |}.
Proof. reflexivity. Qed.

Lemma parseMsgDefinition_empty_constant :
  parseMsgDefinition (js "string NAME=")
  = Ok {| topLevelKeys := [empty_constant_field]; MSGSTypes := [] |}.
Proof. reflexivity. Qed.

(** A field whose constant is a non-empty string decodes to that string,
    and nothing of the decoder state moves, the read offset included; the
    line [uint8 MAX=255] gives such a field, with key MAX and the string
    255. *)
Lemma parseField_constant :
  (forall (fuel : nat) (field : IMsgFormat) (v : jsstring) (s : DecState),
      constantValue field = Some v -> v <> [] ->
      parseField (S fuel) field s = (s, Ok (VString v))) /\
  (exists field,
      parseMsgDefinition (js "uint8 MAX=255")
        = Ok {| topLevelKeys := [field]; MSGSTypes := [] |} /\
      key field = js "MAX" /\
      forall (fuel : nat) (s : DecState),
        parseField (S fuel) field s = (s, Ok (VString (js "255")))).
Proof.
  assert (H : forall (fuel : nat) (field : IMsgFormat) (v : jsstring) (s : DecState),
             constantValue field = Some v -> v <> [] ->
             parseField (S fuel) field s = (s, Ok (VString v))).
  { intros fuel field v s Hc Hv. cbn [parseField]. unfold parseField_body.
    rewrite Hc. destruct v as [| c r]; [contradiction | reflexivity]. }
  split; [exact H |].
  exists MAX_field. split; [reflexivity | split; [reflexivity |]].
  intros fuel s. apply H; [reflexivity | discriminate].
Qed.

(** C6. The line [string NAME=] compiles to a field whose constant is set,
    to the empty string. Decoding that field does not return the constant
    and does take bytes: on the bytes 1 0 0 0 65 the decoder reads a
    string from the stream, returns "A" and leaves the offset at 5, where
    a constant gives the empty string and leaves the offset at 0. *)
Theorem parseField_empty_constant_consumes :
  parseMsgDefinition (js "string NAME=")
    = Ok {| topLevelKeys := [empty_constant_field]; MSGSTypes := [] |} /\
  constantValue empty_constant_field = Some [] /\
  parseField 1 empty_constant_field (decoding [1; 0; 0; 0; 65] 0)
    = (decoding [1; 0; 0; 0; 65] 5, Ok (VString (js "A"))) /\
  parseField 1 empty_constant_field (decoding [1; 0; 0; 0; 65] 0)
    <> (decoding [1; 0; 0; 0; 65] 0, Ok (VString [])).
Proof.
  split; [reflexivity | split; [reflexivity | split; [reflexivity |]]].
  vm_compute. intros H. discriminate H.
Qed.

Lemma parseField_constant_MAX :
  constantValue MAX_field = Some (js "255") /\
  js "255" <> [] /\
  parseField 1 MAX_field (decoding [7; 8] 0)
  = (decoding [7; 8] 0, Ok (VString (js "255"))).
Proof.
  assert (H1 : constantValue MAX_field = Some (js "255")) by reflexivity.
  assert (H2 : js "255" <> []) by discriminate.
  split; [exact H1 | split; [exact H2 |]].
  exact (proj1 parseField_constant 0%nat MAX_field (js "255") (decoding [7; 8] 0) H1 H2).
Qed.

(** *** The decoder on the scenarios of the specification *)

Lemma decode_fixed_array :
  decode_message (js "uint8[3] rgb") [0x10; 0x20; 0x30]
  = Ok (VObject [(js "rgb", VArray [VNumber 16; VNumber 32; VNumber 48])]).
Proof. reflexivity. Qed.

Lemma decode_variable_array :
  decode_message (js "string[] names")
    [2; 0; 0; 0; 1; 0; 0; 0; 97; 2; 0; 0; 0; 98; 99]
  = Ok (VObject [(js "names", VArray [VString (js "a"); VString (js "bc")])]).
Proof. reflexivity. Qed.

Lemma decode_nested :
  decode_message nested_definition [7; 0; 0; 0; 1; 0; 0; 0; 0; 0; 0; 0; 9]
  = Ok (VObject [(js "h", VObject [(js "seq", VNumber 7);
                                   (js "stamp", VTime (mkTime 1 0))]);
                 (js "v", VNumber 9)]).
Proof. reflexivity. Qed.

(** The parsers share the accumulator [this.result]: after the inner
    parser has returned, the outer parser goes on writing into the object
    of the inner one and returns it. The field [b] of [Outer] comes out
    next to the field [a] of [Inner], and the key [i] is lost. *)
Lemma decode_shared_accumulator :
  decode_message outer_definition [1; 2]
  = Ok (VObject [(js "o", VObject [(js "a", VNumber 1); (js "b", VNumber 2)])]).
Proof. reflexivity. Qed.

(** *** Arrays of a stored length zero *)

Lemma parseValue_arrayLength pf field n :
  parseValue pf (with_arrayLength field n) = parseValue pf field.
Proof. destruct field. reflexivity. Qed.

Lemma parseElements_arrayLength pf k field n :
  parseElements pf k (with_arrayLength field n) = parseElements pf k field.
Proof.
  induction k as [| k IH]; [reflexivity |].
  cbn [parseElements]. now rewrite parseValue_arrayLength, IH.
Qed.

Lemma parseMsgDefinition_zero_length :
  parseMsgDefinition (js "uint8[0] x")
    = Ok {| topLevelKeys := [array_field "x" "uint8" (Some 0)]; MSGSTypes := [] |} /\
  parseMsgDefinition (js "uint8[] x")
    = Ok {| topLevelKeys := [array_field "x" "uint8" None]; MSGSTypes := [] |}.
Proof. split; reflexivity. Qed.

(** A length is the double that [parseInt] returns: exact up to 2^53,
    rounded past it. *)
Lemma parseInt_rounds :
  Schema.parseInt (js "255") = 255 /\
  Schema.parseInt (js "9007199254740993") = 9007199254740992.
Proof. split; vm_compute; reflexivity. Qed.

Lemma advanced_advanced (s : DecState) (a b : Z) :
  advanced (advanced s a) b = advanced s (a + b).
Proof. unfold advanced, advance. cbn. now rewrite Z.add_assoc. Qed.

Lemma advanced_0 (s : DecState) : advanced s 0 = s.
Proof.
  unfold advanced, advance. destruct s as [[b o] t]. cbn. now rewrite Z.add_0_r.
Qed.

(** The count of an array, read from the stream. *)
Lemma getLE_u32le (s : DecState) (pre rest : list byte) (n : Z) :
  0 <= n < 2 ^ 32 ->
  view (reader s) = pre ++ u32le n ++ rest ->
  offset (reader s) = Z.of_nat (length pre) ->
  getLE 4 false s = (advanced s 4, Ok n).
Proof.
  intros Hn Hv Hoff.
  unfold getLE, view_get, mbind, SE_bind, get_offset, get_view, lift, advance,
    advanced, mret, SE_ret.
  cbn [fst reader this offset buffer].
  rewrite read_bytes_ok.
  - rewrite Hv. replace (Z.to_nat (offset (reader s))) with (length pre) by lia.
    rewrite drop_app_length.
    change (take 4 (u32le n ++ rest)) with (u32le n).
    cbn [fmap completion_fmap]. rewrite u32le_unsigned by lia. reflexivity.
  - lia.
  - rewrite Hv, Hoff, !length_app. cbn [length u32le]. lia.
Qed.

Lemma parseElements_uint8 (pf : IMsgFormat -> Dec JSValue) (field : IMsgFormat)
    (tail : list byte) (xs : list byte) :
  keyType field = js "uint8" ->
  forall (pre : list byte) (s : DecState),
  view (reader s) = pre ++ xs ++ tail ->
  offset (reader s) = Z.of_nat (length pre) ->
  parseElements pf (length xs) field s
  = (advanced s (Z.of_nat (length xs)), Ok (map (fun b => VNumber (byteZ b)) xs)).
Proof.
  intros Hk. induction xs as [| x xs IH]; intros pre s Hv Hoff.
  - cbn [length parseElements map]. change (Z.of_nat 0) with 0.
    now rewrite advanced_0.
  - cbn [length parseElements map]. unfold mbind at 1, SE_bind at 1.
    assert (E : parseValue pf field s = (advanced s 1, Ok (VNumber (byteZ x)))).
    { unfold parseValue. rewrite Hk.
      change (lookup_parsingMethod (js "uint8")) with (Some t_uint8).
      cbn [parsingMethods]. unfold fmap, SE_fmap, get8, view_get, mbind, SE_bind,
        get_offset, get_view, lift, advance, advanced, mret, SE_ret.
      cbn [fst reader this offset buffer view].
      change (view {| buffer := buffer (reader s); offset := offset (reader s) + 1 |})
        with (view (reader s)).
      rewrite read_bytes_ok.
      - rewrite Hv, Hoff, Nat2Z.id, drop_app_length.
        cbn [app take le_unsigned fmap completion_fmap].
        f_equal; [unfold advance; cbn [fst]; now rewrite Hoff |].
        do 2 f_equal. rewrite take_0. cbn [le_unsigned]. lia.
      - lia.
      - rewrite Hv, Hoff, !length_app. cbn [length]. lia. }
    rewrite E. cbv beta iota. unfold mbind, SE_bind, mret, SE_ret.
    rewrite (IH (pre ++ [x]) (advanced s 1)).
    + rewrite advanced_advanced. do 2 f_equal. lia.
    + unfold advanced, advance. cbn [fst reader]. 
      change (view {| buffer := buffer (reader s); offset := offset (reader s) + 1 |})
        with (view (reader s)).
      rewrite Hv, <- app_assoc. reflexivity.
    + unfold advanced, advance. cbn [fst reader offset].
      rewrite Hoff, length_app. cbn [length]. lia.
Qed.

(** C10. A field that is an array with a stored length of 0 (the line
    [uint8[0] x] gives one) is decoded as the same field without a
    length, and not as an array of no element that takes no byte: the
    decoder reads the count [n], an unsigned 32-bit little-endian number,
    at the offset, moves four bytes on, and decodes [n] elements from
    there. For elements of type uint8 the result is the array of the [n]
    bytes that follow the count, and the offset ends behind them. *)
Theorem parseField_zero_length_array (fuel : nat) (field : IMsgFormat) (s : DecState)
    (pre : list byte) :
  isArray field = true ->
  arrayLength field = Some 0 ->
  truthy_string (constantValue field) = None ->
  offset (reader s) = Z.of_nat (length pre) ->
  parseMsgDefinition (js "uint8[0] x")
    = Ok {| topLevelKeys := [array_field "x" "uint8" (Some 0)]; MSGSTypes := [] |} /\
  parseField (S fuel) field s = parseField (S fuel) (with_arrayLength field None) s /\
  (forall (n : Z) (rest : list byte),
     0 <= n < 2 ^ 32 ->
     view (reader s) = pre ++ u32le n ++ rest ->
     parseField (S fuel) field s
     = (VArray <$> parseElements (parseField fuel) (Z.to_nat n) field) (advanced s 4)) /\
  (forall xs tail : list byte,
     keyType field = js "uint8" ->
     Z.of_nat (length xs) < 2 ^ 32 ->
     view (reader s) = pre ++ u32le (Z.of_nat (length xs)) ++ xs ++ tail ->
     parseField (S fuel) field s
     = (advanced s (4 + Z.of_nat (length xs)),
        Ok (VArray (map (fun b => VNumber (byteZ b)) xs)))).
Proof.
  intros Ha Hlen Hc Hoff.
  assert (Hcount : forall (n : Z) (rest : list byte),
             0 <= n < 2 ^ 32 ->
             view (reader s) = pre ++ u32le n ++ rest ->
             parseField (S fuel) field s
             = (VArray <$> parseElements (parseField fuel) (Z.to_nat n) field)
                 (advanced s 4)).
  { intros n rest Hn Hv. cbn [parseField]. unfold parseField_body.
    rewrite Hc, Ha, Hlen. cbn [truthy_number Z.eqb].
    unfold mbind at 1, SE_bind at 1.
    rewrite (getLE_u32le s pre rest n Hn Hv Hoff). cbv beta iota.
    unfold parseArray. now rewrite (proj2 (Z.leb_gt _ _)) by lia. }
  split; [reflexivity | split; [| split; [exact Hcount |]]].
  - cbn [parseField]. unfold parseField_body, parseArray.
    destruct field as [k kt a nk c al]. cbn in Ha, Hlen, Hc. subst a al. cbn.
    rewrite Hc.
    unfold mbind, SE_bind. destruct (getLE 4 false s) as [s' [n | e]]; [| reflexivity].
    destruct (2 ^ 32 <=? n); [reflexivity |].
    change (mkMsgFormat k kt true nk c None)
      with (with_arrayLength (mkMsgFormat k kt true nk c (Some 0)) None).
    now rewrite parseElements_arrayLength.
  - intros xs tail Hk Hxs Hv.
    rewrite (Hcount (Z.of_nat (length xs)) (xs ++ tail) ltac:(lia) Hv).
    rewrite Nat2Z.id. unfold fmap, SE_fmap.
    rewrite (parseElements_uint8 _ field tail xs Hk (pre ++ u32le (Z.of_nat (length xs)))).
    + now rewrite advanced_advanced.
    + unfold advanced, advance. cbn [fst reader].
      change (view {| buffer := buffer (reader s); offset := offset (reader s) + 4 |})
        with (view (reader s)).
      rewrite Hv, <- app_assoc. reflexivity.
    + unfold advanced, advance. cbn [fst reader offset].
      rewrite Hoff, length_app. cbn [length u32le]. lia.
Qed.

(** The field of [uint8[0] x] on the bytes 2 0 0 0 7 8: the length 2 is
    read from the stream and two elements follow; six bytes are taken,
    where an array of no element would have left the offset at 0. *)
Lemma parseField_zero_length_array_witness :
  isArray zero_length_field = true /\
  arrayLength zero_length_field = Some 0 /\
  truthy_string (constantValue zero_length_field) = None /\
  offset (reader (decoding [2; 0; 0; 0; 7; 8] 0)) = Z.of_nat (length (@nil byte)) /\
  view (reader (decoding [2; 0; 0; 0; 7; 8] 0))
    = [] ++ u32le (Z.of_nat (length [Byte.x07; Byte.x08]))
         ++ [Byte.x07; Byte.x08] ++ [] /\
  parseField 1 zero_length_field (decoding [2; 0; 0; 0; 7; 8] 0)
    = (decoding [2; 0; 0; 0; 7; 8] 6, Ok (VArray [VNumber 7; VNumber 8])) /\
  parseField 1 zero_length_field (decoding [2; 0; 0; 0; 7; 8] 0)
    <> (decoding [2; 0; 0; 0; 7; 8] 0, Ok (VArray [])).
Proof.
  assert (H1 : isArray zero_length_field = true) by reflexivity.
  assert (H2 : arrayLength zero_length_field = Some 0) by reflexivity.
  assert (H3 : truthy_string (constantValue zero_length_field) = None) by reflexivity.
  assert (H4 : offset (reader (decoding [2; 0; 0; 0; 7; 8] 0))
               = Z.of_nat (length (@nil byte))) by reflexivity.
  assert (H5 : view (reader (decoding [2; 0; 0; 0; 7; 8] 0))
               = [] ++ u32le (Z.of_nat (length [Byte.x07; Byte.x08]))
                    ++ [Byte.x07; Byte.x08] ++ []) by reflexivity.
  assert (H6 : parseField 1 zero_length_field (decoding [2; 0; 0; 0; 7; 8] 0)
               = (decoding [2; 0; 0; 0; 7; 8] 6, Ok (VArray [VNumber 7; VNumber 8]))).
  { destruct (parseField_zero_length_array 0 zero_length_field
                (decoding [2; 0; 0; 0; 7; 8] 0) [] H1 H2 H3 H4) as (_ & _ & _ & H).
    exact (H [Byte.x07; Byte.x08] [] eq_refl eq_refl H5). }
  repeat (split; [assumption |]).
  rewrite H6. vm_compute. intros E. discriminate E.
Defined.

(** *** 64-bit integers *)

Lemma le_unsigned_8 (l : list byte) (off : Z) :
  0 <= off -> off + 8 <= Z.of_nat (length l) ->
  let low := le_unsigned (take 4 (drop (Z.to_nat off) l)) in
  let high := le_unsigned (take 4 (drop (Z.to_nat (off + 4)) l)) in
  le_unsigned (take 8 (drop (Z.to_nat off) l)) = low + 2 ^ 32 * high /\
  0 <= low < 2 ^ 32 /\ 0 <= high < 2 ^ 32.
Proof.
  intros H0 H8 low high. subst low high.
  replace (Z.to_nat (off + 4)) with (Z.to_nat off + 4)%nat by lia.
  rewrite <- drop_drop.
  assert (Hl' : (8 <= length (drop (Z.to_nat off) l))%nat)
    by (rewrite length_drop; lia).
  generalize dependent (drop (Z.to_nat off) l). intros l' Hl'.
  replace (take 8 l') with (take 4 l' ++ take 4 (drop 4 l'))
    by apply (take_take_drop l' 4 4).
  rewrite le_unsigned_app.
  pose proof (le_unsigned_range (take 4 l')) as R1.
  pose proof (le_unsigned_range (take 4 (drop 4 l'))) as R2.
  rewrite !length_take, length_drop in *.
  replace (4 `min` length l')%nat with 4%nat in * by lia.
  replace (4 `min` (length l' - 4))%nat with 4%nat in * by lia.
  change (256 ^ Z.of_nat 4) with (2 ^ 32) in *. lia.
Qed.

Lemma int64_bytes_too_large :
  le_unsigned (map byte_of_Z bytes_2p53_plus_1) = 2 ^ 53 + 1.
Proof. reflexivity. Qed.

(** 2^53 + 1 does not come out of the decoder, neither as uint64 nor as
    int64: the int53 reader refuses the magnitude. *)
Lemma parseField_int64_above_53_bits :
  (parseField 1 (scalar_field "a" "uint64" None) (decoding bytes_2p53_plus_1 0)).2
    <> Ok (VNumber (2 ^ 53 + 1)) /\
  (parseField 1 (scalar_field "a" "int64" None) (decoding bytes_2p53_plus_1 0)).2
    <> Ok (VNumber (2 ^ 53 + 1)).
Proof. split; vm_compute; discriminate. Qed.

(** C9 (amended). An int64 or uint64 field reads eight little-endian
    bytes and gives the exact integer, the offset moving by eight, when
    the integer lies in the range of 53 bits: below 2^53 for uint64, from
    -2^53 to below 2^53 for int64. *)
Theorem parseField_int64_within_53_bits (fuel : nat) (field : IMsgFormat) (s : DecState) :
  isArray field = false ->
  truthy_string (constantValue field) = None ->
  0 <= offset (reader s) ->
  offset (reader s) + 8 <= blength (buffer (reader s)) ->
  let v := le_unsigned (take 8 (drop (Z.to_nat (offset (reader s)))
                                     (bytes (buffer (reader s))))) in
  (keyType field = js "uint64" -> v < 2 ^ 53 ->
   parseField (S fuel) field s = (advanced s 8, Ok (VNumber v))) /\
  (keyType field = js "int64" -> - 2 ^ 53 <= to_signed 64 v < 2 ^ 53 ->
   parseField (S fuel) field s = (advanced s 8, Ok (VNumber (to_signed 64 v)))).
Proof.
  intros Ha Hc H0 H8 v.
  destruct (le_unsigned_8 (bytes (buffer (reader s))) (offset (reader s)) H0 H8)
    as (Hv & Hlow & Hhigh).
  fold v in Hv.
  assert (R1 := readUInt32LE_ok (buffer (reader s)) (offset (reader s)) H0 ltac:(lia)).
  assert (R2 := readUInt32LE_ok (buffer (reader s)) (offset (reader s) + 4)
                  ltac:(lia) ltac:(lia)).
  split; intros Hk Hr; cbn [parseField]; unfold parseField_body, parseValue;
    rewrite Hc, Ha, Hk; cbn [lookup_parsingMethod].
  - change (lookup_parsingMethod (js "uint64")) with (Some t_uint64).
    cbn [parsingMethods]. unfold mbind, SE_bind, get_buffer, get_offset, lift.
    unfold Int53.readUInt64LE. rewrite R1, R2. cbn [mbind completion_bind].
    rewrite Hv in Hr. rewrite toDouble_unsigned by lia. rewrite <- Hv.
    reflexivity.
  - change (lookup_parsingMethod (js "int64")) with (Some t_int64).
    cbn [parsingMethods]. unfold mbind, SE_bind, get_buffer, get_offset, lift.
    unfold Int53.readInt64LE. rewrite R1, R2. cbn [mbind completion_bind].
    rewrite Hv in Hr. rewrite toDouble_signed by lia. rewrite <- Hv.
    reflexivity.
Qed.

Lemma parseField_int64_within_53_bits_witness :
  let field := scalar_field "a" "int64" None in
  let s := decoding [255; 255; 255; 255; 255; 255; 255; 255] 0 in
  isArray field = false /\
  truthy_string (constantValue field) = None /\
  0 <= offset (reader s) /\
  offset (reader s) + 8 <= blength (buffer (reader s)) /\
  keyType field = js "int64" /\
  parseField 1 field s
  = (decoding [255; 255; 255; 255; 255; 255; 255; 255] 8, Ok (VNumber (-1))).
Proof.
  intros field s.
  assert (H3 : 0 <= offset (reader s)) by (cbn; lia).
  assert (H4 : offset (reader s) + 8 <= blength (buffer (reader s)))
    by (vm_compute; intros H; discriminate H).
  repeat (split; [first [reflexivity | assumption] |]).
  refine (proj2 (parseField_int64_within_53_bits 0%nat field s eq_refl eq_refl H3 H4)
                eq_refl _).
  vm_compute. split; [intros H; discriminate H | reflexivity].
Defined.

End Decoder.

(** ** The chunk cache (chunk-info-manager.ts) *)

Section ChunkCache.
Import ChunkInfoManager.

Lemma Map_set_bytes (cache : list (Z * IChunkCache)) k e :
  Forall (fun e => 0 <= size e.2) cache -> 0 <= size e ->
  Forall (fun e => 0 <= size e.2) (Map_set cache k e) /\
  size e <= cache_bytes (Map_set cache k e) <= cache_bytes cache + size e.
Proof.
  intros Hc He. unfold cache_bytes.
  induction Hc as [| [k' e'] r Hk' Hr IH]; cbn.
  - split; [repeat constructor; exact He | lia].
  - cbn in Hk'.
    assert (0 <= foldr (fun (e : Z * IChunkCache) acc => size e.2 + acc) 0 r).
    { clear -Hr. induction Hr as [| x r Hx _ IH]; cbn; lia. }
    destruct (decide (k' = k)); cbn.
    + split; [constructor; assumption | lia].
    + destruct IH as [IH1 IH2]. split; [constructor; assumption | lia].
Qed.

Lemma cleanup_loop_inv (cache : list (Z * IChunkCache)) (cur : Z) :
  Forall (fun e => 0 <= size e.2) cache ->
  cache_bytes cache <= cur ->
  cur - cache_bytes cache <= _maxCacheBytes ->
  cache_inv (cleanup_loop cache cur).1 (cleanup_loop cache cur).2.
Proof.
  intros Hc. revert cur. unfold cache_inv, cache_bytes.
  induction Hc as [| [k e] r He Hr IH]; intros cur Hs Hp.
  - cbn in *. repeat split; [constructor | lia | lia].
  - cbn in *. destruct (_maxCacheBytes <? cur) eqn:E.
    + apply IH; lia.
    + apply Z.ltb_ge in E. cbn. repeat split; [constructor; assumption | lia | lia].
Qed.

Lemma cacheChunk_inv (chunkInfo : IChunkInfo) messages this next :
  nextChunkPosition chunkInfo = Some next ->
  chunkPosition chunkInfo <= next ->
  cache_inv (_chunkCache this) (_currentCacheBytes this) ->
  exists this', cacheChunk chunkInfo messages this = Some this' /\
                cache_inv (_chunkCache this') (_currentCacheBytes this').
Proof.
  intros Hn Hp (Hc & Hs & Hm). unfold cacheChunk, chunkSize. rewrite Hn. cbn.
  eexists. split; [reflexivity |]. unfold _cleanupCache. cbn.
  set (e := {| messages := messages; size := next - chunkPosition chunkInfo |}).
  destruct (Map_set_bytes (_chunkCache this) (idx chunkInfo) e Hc) as [H1 H2];
    [cbn; lia |]. cbn in H2.
  pose proof (cleanup_loop_inv (Map_set (_chunkCache this) (idx chunkInfo) e)
                (_currentCacheBytes this + (next - chunkPosition chunkInfo))
                H1 ltac:(lia) ltac:(lia)) as H.
  destruct (cleanup_loop _ _) as [cache' cur']. exact H.
Qed.

Lemma cacheChunks_inv inserts this :
  Forall (fun i => exists next, nextChunkPosition i.1 = Some next /\
                                chunkPosition i.1 <= next) inserts ->
  cache_inv (_chunkCache this) (_currentCacheBytes this) ->
  exists this', cacheChunks inserts this = Some this' /\
                cache_inv (_chunkCache this') (_currentCacheBytes this').
Proof.
  intros Hi. revert this. induction Hi as [| [c m] r (next & Hn & Hp) Hr IH]; intros this Hinv.
  - exists this. split; [reflexivity | exact Hinv].
  - cbn [cacheChunks]. cbn in Hn, Hp.
    destruct (cacheChunk_inv c m this next Hn Hp Hinv) as (this1 & E1 & Hinv1).
    rewrite E1. cbn. apply IH, Hinv1.
Qed.


(** *** Reads leave the cache alone until they insert *)

Section Reads.
Variable lz4_decompress : list byte -> Z -> completion (list byte).
Variable stack : nat.

Lemma decodePointer_cache chunk pointer this :
  same_cache (decodePointer stack chunk pointer this).1 this.
Proof.
  unfold decodePointer, mbind, SE_bind, lift.
  destruct (messageRecord chunk pointer) as [[msgRecord |] | e]; try (split; reflexivity).
  destruct (messageConn msgRecord) as [conn | e]; try (split; reflexivity).
  destruct (Map_get (_connections this) conn) as [connection |]; try (split; reflexivity).
  destruct (messageTime msgRecord) as [t | e]; try (split; reflexivity).
  assert (Hs : same_cache (schemaOf connection this).1 this).
  { unfold schemaOf.
    destruct (Map_get (_msgSchemas this) (messageType connection)); [split; reflexivity |].
    unfold mbind, SE_bind, lift, set_msgSchemas.
    destruct (defined (messageDefinition connection)); [| split; reflexivity].
    destruct (Schema.parseMsgDefinition a); split; reflexivity. }
  destruct (schemaOf connection this) as [this1 [schema | e]]; [| exact Hs].
  unfold tryReadMsg. destruct (MessageReader.readMsg _ _ _ _ _) as [readers r].
  cbn. exact Hs.
Qed.

Lemma decodePointers_cache chunk pointers :
  forall this, same_cache (decodePointers stack chunk pointers this).1 this.
Proof.
  induction pointers as [| p r IH]; intros this; [split; reflexivity |].
  cbn [decodePointers]. unfold mbind, SE_bind.
  pose proof (decodePointer_cache chunk p this) as H1.
  destruct (decodePointer stack chunk p this) as [this1 [message | e]]; [| exact H1].
  fold (@mbind (SE ChunkInfoManager) _).
  pose proof (IH this1) as H2.
  destruct (decodePointers stack chunk r this1) as [this2 [msgs | e]];
    cbn in *; destruct H1, H2; split; congruence.
Qed.

Lemma processChunkBuffer_cache buffer chunkInfo this :
  same_cache (_processChunkBuffer lz4_decompress stack buffer chunkInfo this).1 this.
Proof.
  unfold _processChunkBuffer, mbind, SE_bind, lift.
  destruct (sortedPointers lz4_decompress buffer chunkInfo)
    as [[[chunk pointers] |] | e]; try (split; reflexivity).
  apply decodePointers_cache.
Qed.





End Reads.



End ChunkCache.

(** ** Header fields (helper-functions.ts) *)

Section Fields.

Lemma utf8Slice_ascii (bs : list byte) :
  Forall (fun b => byteZ b < 0x80) bs -> utf8Slice (map byteZ bs) = map byteZ bs.
Proof.
  induction 1 as [| b bs Hb _ IH]; [reflexivity |].
  cbn [map utf8Slice]. destruct (byteZ b <? 128) eqn:E; [now rewrite IH | lia].
Qed.

Lemma slice_range (l : list byte) (s e : Z) :
  0 <= s <= e -> e <= Z.of_nat (length l) ->
  slice l s (Some e) = take (Z.to_nat (e - s)) (drop (Z.to_nat s) l).
Proof.
  intros Hs He. unfold slice, relIndex.
  destruct (s <? 0) eqn:E1; [lia |]. destruct (e <? 0) eqn:E2; [lia |].
  rewrite !Z.min_l by lia. rewrite Z.max_l by lia. reflexivity.
Qed.

Lemma slice_from (l : list byte) (s : Z) :
  0 <= s <= Z.of_nat (length l) -> slice l s None = drop (Z.to_nat s) l.
Proof.
  intros Hs. unfold slice, relIndex.
  destruct (s <? 0) eqn:E1; [lia |].
  rewrite Z.min_l by lia. rewrite Z.max_l by lia.
  apply firstn_all2. rewrite length_drop. lia.
Qed.

Lemma index_of_range (v : byte) (l : list byte) (i : Z) :
  index_of v l = Some i -> 0 <= i < Z.of_nat (length l).
Proof.
  revert i. induction l as [| b r IH]; intros i; [discriminate |].
  cbn [index_of length]. destruct (Byte.eqb b v).
  - intros [= <-]. lia.
  - destruct (index_of v r) as [j |]; [| discriminate].
    intros [= <-]. specialize (IH j eq_refl). lia.
Qed.

Lemma index_of_None (v : byte) (l : list byte) :
  index_of v l = None <-> v ∉ l.
Proof.
  induction l as [| b r IH]; cbn [index_of].
  - split; [intros _; apply not_elem_of_nil | reflexivity].
  - destruct (Byte.eqb b v) eqn:E.
    + apply Byte.byte_dec_bl in E. subst b.
      split; [discriminate | intros H; exfalso; apply H; left].
    + assert (b <> v) by (intros ->; rewrite (Byte.byte_dec_lb (eq_refl v)) in E; discriminate).
      rewrite not_elem_of_cons. destruct (index_of v r); cbn.
      * split; [discriminate | intros [_ H']; apply IH in H'; discriminate].
      * split; [intros _; split; [congruence | now apply IH] | reflexivity].
Qed.

Lemma index_of_app (v : byte) (name value : list byte) :
  v ∉ name -> index_of v (name ++ v :: value) = Some (Z.of_nat (length name)).
Proof.
  induction name as [| b r IH]; intros Hn; cbn [app index_of length].
  - now rewrite (Byte.byte_dec_lb (eq_refl v)).
  - apply not_elem_of_cons in Hn as [Hb Hr].
    destruct (Byte.eqb b v) eqn:E; [apply Byte.byte_dec_bl in E; congruence |].
    rewrite (IH Hr). cbn. f_equal. lia.
Qed.

Lemma split_entry_of (name value : list byte) :
  equalChar ∉ name -> split_entry (name ++ equalChar :: value) = Some (name, value).
Proof.
  intros Hn. unfold split_entry. rewrite index_of_app by exact Hn.
  rewrite Nat2Z.id. replace (Z.to_nat (Z.of_nat (length name) + 1)) with (S (length name)) by lia.
  rewrite take_app_length. f_equal. f_equal.
  replace (S (length name)) with (length name + 1)%nat by lia.
  rewrite <- drop_drop, drop_app_length. reflexivity.
Qed.

Lemma frame_length (e : list byte) : length (frame e) = (4 + length e)%nat.
Proof. unfold frame. rewrite length_app. reflexivity. Qed.

Lemma read_frame_length (pre e rest trailing : list byte) :
  Z.of_nat (length e) < 2 ^ 31 ->
  readInt32LE (mkBuffer (pre ++ frame e ++ rest) trailing) (Z.of_nat (length pre))
  = Ok (Z.of_nat (length e)).
Proof.
  intros He. unfold readInt32LE. rewrite readUInt32LE_ok.
  - cbn [bytes fmap completion_fmap]. rewrite Nat2Z.id, drop_app_length.
    unfold frame. rewrite <- !app_assoc.
    change (take 4 (u32le (Z.of_nat (length e)) ++ e ++ rest))
      with (u32le (Z.of_nat (length e))).
    rewrite u32le_unsigned by lia. unfold to_signed.
    change (2 ^ (32 - 1)) with (2 ^ 31).
    destruct (Z.of_nat (length e) <? 2 ^ 31) eqn:E; [reflexivity | lia].
  - lia.
  - unfold blength. cbn [bytes]. rewrite !length_app, frame_length. lia.
Qed.

Lemma slice_frame (pre e rest : list byte) :
  slice (pre ++ frame e ++ rest) (Z.of_nat (length pre) + 4)
        (Some (Z.of_nat (length pre) + 4 + Z.of_nat (length e))) = e.
Proof.
  rewrite slice_range.
  - replace (Z.to_nat (Z.of_nat (length pre) + 4)) with (length pre + 4)%nat by lia.
    rewrite <- drop_drop, drop_app_length. unfold frame. rewrite <- app_assoc.
    change (drop 4 (u32le (Z.of_nat (length e)) ++ e ++ rest)) with (e ++ rest).
    replace (Z.to_nat _) with (length e) by lia. apply take_app_length.
  - lia.
  - rewrite !length_app, frame_length. lia.
Qed.

(** The one name that decodes to [__proto__]. *)
Lemma proto_name (name : list byte) :
  utf8Slice (map byteZ name) = js "__proto__" -> name = js_bytes "__proto__".
Proof.
  intros H. apply utf8Slice_ascii_inv in H.
  - apply map_byteZ_inj. exact H.
  - apply (bool_decide_unpack _). vm_compute. exact I.
Qed.

(** Under [Object.prototype] every other name makes a property. *)
Lemma assign_plain (acc : IRecordFields) (name : jsstring) (value : Buffer) :
  name <> js "__proto__" ->
  assign {| own := acc; prototype := None |} name value
  = Ok {| own := <[name := value]> acc; prototype := None |}.
Proof.
  intros Hn. unfold assign. rewrite bool_decide_eq_false_2 by exact Hn.
  cbn [prototype own]. reflexivity.
Qed.

Lemma plain_entry_of (name value : list byte) :
  field_name name -> plain_entry (name ++ equalChar :: value).
Proof.
  intros [Ha Hp]. unfold plain_entry. rewrite split_entry_of.
  - cbn. intros [= E]. exact (Hp E).
  - intros Hin. unfold ascii_name in Ha. rewrite Forall_forall in Ha.
    apply (Ha _ Hin). reflexivity.
Qed.

Lemma plain_entries_of (fields : list (list byte * list byte)) :
  Forall (fun f => field_name f.1) fields -> Forall plain_entry (map entry_of fields).
Proof.
  induction 1 as [| [name value] r H _ IH]; [constructor |].
  cbn [map]. constructor; [| exact IH]. apply plain_entry_of, H.
Qed.

Lemma extractFields_loop_frames (entries : list (list byte)) :
  forall (pre trailing : list byte) (acc : IRecordFields) (fuel : nat),
  (length entries < fuel)%nat ->
  Forall (fun e => Z.of_nat (length e) < 2 ^ 31) entries ->
  Forall plain_entry entries ->
  field_bytes (extractFields_loop fuel (mkBuffer (pre ++ frames entries) trailing)
                 (Z.of_nat (length pre)) {| own := acc; prototype := None |})
  = Ok (read_entries entries (bytes <$> acc)).
Proof.
  induction entries as [| e r IH]; intros pre trailing acc fuel Hfuel Hlen Hplain.
  all: destruct fuel as [| fuel]; [cbn in Hfuel; lia | idtac].
  - cbn [extractFields_loop frames map concat read_entries].
    unfold blength. cbn [bytes]. rewrite app_nil_r.
    rewrite (proj2 (Z.ltb_ge _ _)) by lia. reflexivity.
  - inversion Hlen as [| ? ? He Hr]; subst.
    inversion Hplain as [| ? ? Hpe Hpr]; subst.
    change (frames (e :: r)) with (frame e ++ frames r).
    cbn [extractFields_loop read_entries].
    assert (Hlt : (Z.of_nat (length pre)
                   <? blength (mkBuffer (pre ++ frame e ++ frames r) trailing)) = true).
    { apply Z.ltb_lt. unfold blength. cbn [bytes]. rewrite !length_app, frame_length. lia. }
    rewrite Hlt, read_frame_length by exact He. cbn [mbind completion_bind].
    unfold indexOf, split_entry. cbn [subarray bytes]. rewrite slice_frame.
    destruct (index_of equalChar e) as [i |] eqn:Ei; [| reflexivity].
    pose proof (index_of_range _ _ _ Ei) as Hi.
    set (name := toString _). set (value := subarray _ _ None).
    assert (Hname : name = utf8Slice (map byteZ (take (Z.to_nat i) e))).
    { subst name. unfold toString. cbn [subarray bytes].
      rewrite slice_frame, slice_prefix by lia. reflexivity. }
    assert (Hvalue : bytes value = drop (Z.to_nat (i + 1)) e).
    { subst value. cbn [subarray bytes]. rewrite slice_frame, slice_from by lia.
      reflexivity. }
    assert (Hplain_name : name <> js "__proto__").
    { rewrite Hname. intros E. apply proto_name in E.
      apply Hpe. unfold split_entry. rewrite Ei. cbn. now rewrite E. }
    clearbody name value.
    rewrite assign_plain by exact Hplain_name. cbn [mbind completion_bind].
    replace (Z.of_nat (length pre) + 4 + Z.of_nat (length e))
      with (Z.of_nat (length (pre ++ frame e)))
      by (rewrite length_app, frame_length; lia).
    rewrite (app_assoc pre (frame e) (frames r)).
    rewrite IH; [| cbn in Hfuel; lia | exact Hr | exact Hpr].
    rewrite fmap_insert, Hname, Hvalue. reflexivity.
Qed.

Lemma extractFields_frames (entries : list (list byte)) (trailing : list byte) :
  Z.of_nat (length (frames entries)) <= K_MAX_LENGTH ->
  Forall plain_entry entries ->
  field_bytes (extractFields (mkBuffer (frames entries) trailing))
  = Ok (read_entries entries ∅).
Proof.
  intros Hmax Hplain. unfold extractFields, new_object. cbn [bytes].
  assert (Hsum : forall l, (length l <= length (frames l))%nat /\
                           Forall (fun e => length e <= length (frames l))%nat l).
  { induction l as [| e r [IH1 IH2]]; [split; [reflexivity | constructor] |].
    change (frames (e :: r)) with (frame e ++ frames r).
    rewrite length_app, frame_length. split; [cbn; lia |].
    constructor; [lia |]. eapply Forall_impl; [exact IH2 |]. cbn. intros; lia. }
  destruct (Hsum entries) as [H1 H2].
  pose proof (extractFields_loop_frames entries [] trailing ∅
                (S (S (length (frames entries)))) ltac:(lia)) as H.
  rewrite fmap_empty in H. apply H; [| exact Hplain].
  eapply Forall_impl; [exact H2 |]. cbn. intros e He.
  unfold K_MAX_LENGTH in Hmax. lia.
Qed.

(** *** The fuel of [extractFields] is never spent *)

Lemma readInt32LE_inv (b : Buffer) (off : Z) :
  match readInt32LE b off with
  | Ok _ => 0 <= off /\ off + 4 <= blength b
  | Throw e => e = RangeError
  end.
Proof.
  unfold readInt32LE, readUInt32LE, read_bytes, blength.
  destruct (0 <=? off) eqn:E1; [| reflexivity].
  destruct (off + Z.of_nat 4 <=? Z.of_nat (length (bytes b))) eqn:E2; [| reflexivity].
  apply Z.leb_le in E1, E2. cbn [fmap completion_fmap andb]. lia.
Qed.

Lemma slice_nonempty (v : byte) (l : list byte) (s e i : Z) :
  0 <= s -> 0 <= e -> index_of v (slice l s (Some e)) = Some i -> s < e.
Proof.
  intros Hs He Hi. apply index_of_range in Hi.
  unfold slice, relIndex in Hi.
  destruct (s <? 0) eqn:E1; [lia |]. destruct (e <? 0) eqn:E2; [lia |].
  rewrite length_take in Hi. lia.
Qed.

Lemma extractFields_loop_fuel (fuel : nat) :
  forall (buffer : Buffer) (offset : Z) (acc : FieldsObject),
  (1 <= fuel)%nat ->
  (0 <= offset -> blength buffer - offset + 2 <= Z.of_nat fuel) ->
  extractFields_loop fuel buffer offset acc <> Throw OutOfFuel.
Proof.
  induction fuel as [| fuel IH]; intros buffer offset acc H1 H2; [lia |].
  cbn [extractFields_loop].
  destruct (offset <? blength buffer) eqn:E; [| discriminate].
  apply Z.ltb_lt in E.
  pose proof (readInt32LE_inv buffer offset) as Hr.
  destruct (readInt32LE buffer offset) as [fieldLen | e]; cbn [mbind completion_bind].
  - destruct Hr as [Hr1 Hr2]. specialize (H2 Hr1).
    destruct (indexOf _ equalChar) as [i |] eqn:Ei; [| discriminate].
    destruct (assign acc _ _) as [acc' | e] eqn:Ea; cbn [mbind completion_bind].
    + apply IH; [lia |]. intros Hpos.
      unfold indexOf in Ei. cbn [subarray bytes] in Ei.
      apply slice_nonempty in Ei; lia.
    + unfold assign in Ea. repeat case_match; try discriminate Ea.
      injection Ea as <-. discriminate.
  - subst e. discriminate.
Qed.

Lemma extractFields_fuel (buffer : Buffer) : extractFields buffer <> Throw OutOfFuel.
Proof.
  unfold extractFields. apply extractFields_loop_fuel; [lia |].
  unfold blength. lia.
Qed.

Lemma read_entries_fields (fields : list (list byte * list byte)) :
  forall acc : gmap jsstring (list byte),
  NoDup (map fst fields) ->
  Forall (fun f => ascii_name f.1) fields ->
  read_entries (map entry_of fields) acc = Some (fields_map fields ∪ acc).
Proof.
  unfold fields_map.
  induction fields as [| [name value] r IH]; intros acc Hnd Hascii.
  - cbn. now rewrite (left_id_L ∅ (∪)).
  - inversion Hnd as [| ? ? Hname Hr]; subst.
    inversion Hascii as [| ? ? Hn Ha]; subst. cbn in Hn. unfold ascii_name in Hn.
    cbn [map read_entries]. unfold entry_of at 1. cbn [fst snd].
    rewrite split_entry_of.
    + rewrite utf8Slice_ascii, (IH _ Hr Ha).
      * cbn [list_to_map foldr fst snd]. f_equal.
        rewrite <- insert_union_r, insert_union_l; [reflexivity |].
        apply not_elem_of_list_to_map. rewrite <- list_fmap_compose.
        intros Hin. apply list_elem_of_fmap in Hin as ([n v] & E & Hin).
        cbn in E. apply map_byteZ_inj in E. subst n.
        apply Hname. apply list_elem_of_In. apply in_map_iff.
        exists (name, v). split; [reflexivity | now apply list_elem_of_In].
      * eapply Forall_impl; [exact Hn |]. cbn. tauto.
    + intros Hin. rewrite Forall_forall in Hn. apply (Hn _ Hin). reflexivity.
Qed.

Lemma read_entries_None (entries : list (list byte)) :
  forall acc, read_entries entries acc = None <-> Exists (fun e => equalChar ∉ e) entries.
Proof.
  induction entries as [| e r IH]; intros acc; cbn [read_entries].
  - split; [discriminate | intros H; inversion H].
  - unfold split_entry. destruct (index_of equalChar e) as [i |] eqn:E.
    + rewrite IH. split; [now right |].
      intros H. inversion H as [? ? He | ? ? Hr]; subst; [| exact Hr].
      apply index_of_None in He. congruence.
    + split; [| reflexivity]. intros _. left. now apply index_of_None.
Qed.

Lemma field_names_ascii (fields : list (list byte * list byte)) :
  Forall (fun f => field_name f.1) fields -> Forall (fun f => ascii_name f.1) fields.
Proof. intros H. eapply Forall_impl; [exact H |]. intros f [Ha _]. exact Ha. Qed.

(** Apart from the name [__proto__], [extractFields] is a left inverse of
    the serialization: a blob made from fields with distinct names of
    7-bit bytes other than '=' and with any values reads back as the map
    of these fields; and on a blob made of framed entries the [undefined]
    result comes exactly when some entry has no '='. The blob is a buffer,
    so its length is within the limit of the buffer package. *)
Lemma extractFields_round_trip :
  (forall (fields : list (list byte * list byte)) (trailing : list byte),
      NoDup (map fst fields) ->
      Forall (fun f => field_name f.1) fields ->
      Z.of_nat (length (serialize fields)) <= K_MAX_LENGTH ->
      field_bytes (extractFields (mkBuffer (serialize fields) trailing))
      = Ok (Some (fields_map fields))) /\
  (forall (entries : list (list byte)) (trailing : list byte),
      Z.of_nat (length (frames entries)) <= K_MAX_LENGTH ->
      Forall plain_entry entries ->
      extractFields (mkBuffer (frames entries) trailing) = Ok None
      <-> Exists (fun e => equalChar ∉ e) entries).
Proof.
  split.
  - intros fields trailing Hnd Hnames Hmax. unfold serialize in *.
    rewrite extractFields_frames by (try exact Hmax; now apply plain_entries_of).
    rewrite read_entries_fields by (try assumption; now apply field_names_ascii).
    now rewrite (right_id_L ∅ (∪)).
  - intros entries trailing Hmax Hplain.
    pose proof (extractFields_frames entries trailing Hmax Hplain) as H.
    rewrite <- (read_entries_None entries ∅).
    unfold field_bytes in H.
    destruct (extractFields _) as [[m |] | e]; split; intros E;
      try discriminate; try congruence; reflexivity.
Qed.

Lemma serialize_two_fields :
  map byteZ (serialize two_fields)
  = [7; 0; 0; 0; 97; 61; 104; 101; 108; 108; 111;
     5; 0; 0; 0; 98; 61; 120; 121; 32].
Proof. reflexivity. Qed.

Lemma extractFields_two_fields :
  field_bytes (extractFields (mkBuffer (serialize two_fields) []))
  = Ok (Some (fields_map two_fields)).
Proof.
  apply (proj1 extractFields_round_trip).
  - repeat constructor.
    + intros H. apply list_elem_of_singleton in H. discriminate H.
    + apply not_elem_of_nil.
  - repeat constructor; discriminate.
  - vm_compute. intros H. discriminate H.
Qed.

(** C3. The round trip fails on the name [__proto__]: the assignment of
    the entry makes its value the prototype of the object and makes no
    field. The blob of the one field [__proto__=1] (a name of 7-bit bytes
    without '=') reads back as an object without fields, not as the map
    of that field. The blob of the two fields [__proto__=1] and
    [length=2] (distinct names, every entry with its '=') does not read
    back either: the assignment of the second entry is refused, [length]
    being read-only on the buffer that is now the prototype, so that
    [extractFields] throws a TypeError. *)
Theorem extractFields_proto_entry :
  NoDup (map fst proto_fields) /\
  Forall (fun f => ascii_name f.1) proto_fields /\
  Z.of_nat (length (serialize proto_fields)) <= K_MAX_LENGTH /\
  field_bytes (extractFields (Buffer_from (serialize (take 1 proto_fields))))
    = Ok (Some ∅) /\
  field_bytes (extractFields (Buffer_from (serialize (take 1 proto_fields))))
    <> Ok (Some (fields_map (take 1 proto_fields))) /\
  extractFields (Buffer_from (serialize proto_fields)) = Throw TypeError /\
  field_bytes (extractFields (Buffer_from (serialize proto_fields)))
    <> Ok (Some (fields_map proto_fields)).
Proof.
  split; [| split; [| split; [| split; [| split; [| split]]]]].
  - apply (bool_decide_unpack _). vm_compute. exact I.
  - repeat constructor; discriminate.
  - vm_compute. intros H. discriminate H.
  - vm_compute. reflexivity.
  - intros H. apply (f_equal (fun r => match r with
                                      | Ok (Some m) => m !! js "__proto__"
                                      | _ => None
                                      end)) in H.
    vm_compute in H. discriminate H.
  - vm_compute. reflexivity.
  - vm_compute. discriminate.
Qed.

End Fields.

(** ** The chunk pipeline (chunk-info-manager.ts) *)

Section ChunkPipeline.
Import ChunkInfoManager.
Variable lz4_decompress : list byte -> Z -> completion (list byte).
Variable stack : nat.

(** The pointers that the first half of [_processChunkBuffer] returns
    are the entries of the index records that follow the chunk record,
    sorted by a stable sort. *)
Lemma sortedPointers_index buffer chunkInfo chunk pointers :
  sortedPointers lz4_decompress buffer chunkInfo = Ok (Some (chunk, pointers)) ->
  exists indexedDataList,
    retrieveRecordsFromBuffer
      (subarray buffer (recordLength (rest chunk)) None) (count chunkInfo)
      (chunkPosition chunkInfo + recordLength (rest chunk)) _parseIndexDataRecord
    = Ok indexedDataList /\
    index_order pointers indexedDataList.
Proof.
  unfold sortedPointers. intros H.
  destruct (shallowRecordRead buffer (chunkPosition chunkInfo)) as [[chunk0 |] | e];
    cbn [mbind completion_bind] in H; try discriminate H.
  destruct (defined (recordHeaderFields chunk0 !! js "compression")) as [compression | e];
    cbn [mbind completion_bind] in H; try discriminate H.
  destruct (defined (recordHeaderFields chunk0 !! js "size")) as [size_ | e];
    cbn [mbind completion_bind] in H; try discriminate H.
  destruct (readUInt32LE size_ 0) as [chunkSize | e];
    cbn [mbind completion_bind] in H; try discriminate H.
  destruct (recordDecompression _ _ _ _) as [decompressedBuffer | e];
    cbn [mbind completion_bind] in H; try discriminate H.
  destruct (retrieveRecordsFromBuffer _ _ _ _) as [indexedDataList | e] eqn:Ei;
    cbn [mbind completion_bind] in H; try discriminate H.
  set (cmp := fun a b : IIndexDataMsg => compareTime (recievedTime a) (recievedTime b))
    in *.
  assert (Hp : rest chunk = rest chunk0 /\
               pointers = js_sort cmp (concat (map recievedMsgs indexedDataList))).
  { destruct decompressedBuffer as [decompressedBuffer |].
    - injection H as <- <-. split; reflexivity.
    - destruct (js_sort cmp _) as [| p ps]; [| discriminate H].
      injection H as <- <-. split; reflexivity. }
  destruct Hp as [-> ->]. exists indexedDataList. split; [exact Ei |].
  split; [| split].
  - apply (js_sort_sorted cmp).
    + intros x y. apply compareTime_total.
    + intros x y z. apply compareTime_trans.
  - apply js_sort_perm.
  - intros t. apply js_sort_stable.
    intros x y Hx Hy. unfold received_at in Hx, Hy.
    apply bool_decide_eq_true in Hx, Hy. unfold cmp_le, cmp.
    rewrite Hx, Hy, compareTime_refl. lia.
Qed.

Lemma sortedPointers_sorted buffer chunkInfo chunk pointers :
  sortedPointers lz4_decompress buffer chunkInfo = Ok (Some (chunk, pointers)) ->
  pointers_sorted pointers.
Proof.
  intros H. destruct (sortedPointers_index _ _ _ _ H) as (indexedDataList & _ & Hs & _).
  exact Hs.
Qed.

Lemma decodePointer_from chunk pointer this this' m :
  decodePointer stack chunk pointer this = (this', Ok (Some m)) ->
  decoded_from chunk m pointer.
Proof.
  unfold decodePointer, decoded_from, mbind, SE_bind, lift. intros H.
  destruct (messageRecord chunk pointer) as [[msgRecord |] | e] eqn:Er;
    cbn in H; try discriminate H.
  destruct (messageConn msgRecord) as [conn | e]; cbn in H; try discriminate H.
  destruct (Map_get (_connections this) conn) as [connection |];
    cbn in H; try discriminate H.
  destruct (messageTime msgRecord) as [t | e] eqn:Et; cbn in H; try discriminate H.
  destruct (schemaOf connection this) as [this1 [schema | e]]; try discriminate H.
  unfold tryReadMsg in H.
  destruct (MessageReader.readMsg stack (messageType connection) schema
              (recordDataBuffer msgRecord) (_readers this1)) as [readers r].
  cbn in H. destruct r as [parsed | e]; cbn in H; try discriminate H.
  injection H as _ <-. exists msgRecord. split; [reflexivity | exact Et].
Qed.

Lemma decodePointers_from chunk pointers :
  forall this this' msgs,
  decodePointers stack chunk pointers this = (this', Ok msgs) ->
  exists ps, sublist ps pointers /\ Forall2 (decoded_from chunk) msgs ps.
Proof.
  induction pointers as [| p r IH]; intros this this' msgs H.
  - injection H as _ <-. exists []. split; constructor.
  - cbn [decodePointers] in H. unfold mbind, SE_bind in H.
    destruct (decodePointer stack chunk p this) as [this1 [message | e]] eqn:E1;
      try discriminate H.
    fold (@mbind (SE ChunkInfoManager) _) in H.
    destruct (decodePointers stack chunk r this1) as [this2 [rosMessages | e]] eqn:E2;
      try discriminate H.
    destruct (IH _ _ _ E2) as (ps & Hsub & Hall).
    injection H as _ <-.
    destruct message as [m |].
    + exists (p :: ps). split; [now constructor |].
      constructor; [| exact Hall]. eapply decodePointer_from, E1.
    + exists ps. split; [now constructor | exact Hall].
Qed.

Lemma messages_sorted_from chunk pointers ps msgs :
  pointers_sorted pointers ->
  sublist ps pointers ->
  Forall2 (decoded_from chunk) msgs ps ->
  times_agree chunk pointers ->
  messages_sorted msgs.
Proof.
  intros Hsorted Hsub Hall Hagree.
  assert (Hps : pointers_sorted ps).
  { clear Hall Hagree. unfold pointers_sorted in *.
    induction Hsub as [| x l1 l2 Hsub IH | x l1 l2 Hsub IH].
    - constructor.
    - inversion Hsorted as [| ? ? Hl Hx]; subst. constructor; [now apply IH |].
      apply Forall_forall. intros y Hy. rewrite Forall_forall in Hx. apply Hx.
      eapply elem_of_sublist; eassumption.
    - inversion Hsorted; subst. now apply IH. }
  assert (Hin : forall p, p ∈ ps -> p ∈ pointers)
    by (intros p Hp; eapply elem_of_sublist; eassumption).
  clear Hsub Hsorted. unfold messages_sorted, pointers_sorted in *.
  induction Hall as [| m p msgs ps (r & Hr & Ht) Hall IH]; [constructor |].
  inversion Hps as [| ? ? Hps' Hp]; subst.
  constructor.
  - apply IH; [exact Hps' |]. intros q Hq. apply Hin. now right.
  - apply Forall_forall. intros m' Hm'. rewrite Forall_forall in Hp.
    apply list_elem_of_lookup in Hm' as [i Hi].
    destruct (Forall2_lookup_l _ _ _ _ _ Hall Hi) as (p' & Hi' & (r' & Hr' & Ht')).
    assert (Hp' : p' ∈ ps) by (eapply list_elem_of_lookup_2, Hi').
    rewrite (Hagree p r (time m) ltac:(apply Hin; left) Hr Ht).
    rewrite (Hagree p' r' (time m') ltac:(apply Hin; now right) Hr' Ht').
    apply Hp, Hp'.
Qed.

(** C5 (amended). When a chunk decodes, its message list follows the
    pointers of the index in the order of their received times: the
    pointers are the entries of the index records that follow the chunk
    record, all of them, sorted by received time with the entries of one
    time in the order of the index (the sort is stable), and the messages
    come, in order, from a subsequence of them (a skipped message leaves
    its pointer out), each with the time of its own record header. The
    list is therefore sorted by the time field of the messages whenever
    the headers carry the times that the index gives. *)
Theorem processChunkBuffer_order buffer chunkInfo this this' msgs :
  _processChunkBuffer lz4_decompress stack buffer chunkInfo this = (this', Ok msgs) ->
  match sortedPointers lz4_decompress buffer chunkInfo with
  | Ok (Some (chunk, pointers)) =>
    (exists indexedDataList,
       retrieveRecordsFromBuffer
         (subarray buffer (recordLength (rest chunk)) None) (count chunkInfo)
         (chunkPosition chunkInfo + recordLength (rest chunk)) _parseIndexDataRecord
       = Ok indexedDataList /\
       index_order pointers indexedDataList) /\
    (exists ps, sublist ps pointers /\ Forall2 (decoded_from chunk) msgs ps) /\
    (times_agree chunk pointers -> messages_sorted msgs)
  | Ok None => msgs = []
  | Throw _ => False
  end.
Proof.
  unfold _processChunkBuffer, mbind, SE_bind, lift. intros H.
  destruct (sortedPointers lz4_decompress buffer chunkInfo)
    as [[[chunk pointers] |] | e] eqn:Es.
  - pose proof (sortedPointers_sorted _ _ _ _ Es) as Hsorted.
    destruct (decodePointers_from _ _ _ _ _ H) as (ps & Hsub & Hall).
    split; [exact (sortedPointers_index _ _ _ _ Es) | split; [now exists ps |]].
    intros Hagree. eapply messages_sorted_from; eassumption.
  - now injection H as _ <-.
  - discriminate H.
Qed.

End ChunkPipeline.

Section ChunkPipelineExamples.
Import ChunkInfoManager.

(** A chunk whose index dates two messages at 1 s and 2 s while their
    headers say 9 s and 3 s decodes, and its messages come out in the
    order of the index: 9 s before 3 s. *)
Lemma processChunkBuffer_not_sorted_by_time :
  (_processChunkBuffer no_lz4 8 chunk_buffer chunk_info manager_0).2
    = Ok [decoded_A; decoded_B] /\
  ~ messages_sorted [decoded_A; decoded_B].
Proof.
  split; [vm_compute; reflexivity |].
  intros H. inversion H as [| ? ? _ Hall]; subst.
  inversion Hall as [| ? ? Hle _]; subst.
  vm_compute in Hle. apply Hle. reflexivity.
Qed.

Lemma agreeing_chunk_decodes :
  (_processChunkBuffer no_lz4 8 agreeing_chunk_buffer chunk_info manager_0).2
  = Ok [{| topic := js "/t"; time := mkTime 1 0; data := VObject [(js "v", VNumber 10)] |};
        {| topic := js "/t"; time := mkTime 2 0; data := VObject [(js "v", VNumber 11)] |}].
Proof. vm_compute. reflexivity. Qed.

(** A compression tag that names a property of [Object.prototype]: under
    [constructor] the chunk decodes as it does under [none], under
    [valueOf] the data of the chunk is no buffer and the first message
    throws, and [__proto__] is no function. *)
Lemma processChunkBuffer_inherited_tags :
  _processChunkBuffer no_lz4 8 (tagged_chunk_buffer "constructor") chunk_info manager_0
    = _processChunkBuffer no_lz4 8 agreeing_chunk_buffer chunk_info manager_0 /\
  _processChunkBuffer no_lz4 8 (tagged_chunk_buffer "valueOf") chunk_info manager_0
    = (manager_0, Throw TypeError) /\
  _processChunkBuffer no_lz4 8 (tagged_chunk_buffer "__proto__") chunk_info manager_0
    = (manager_0, Throw TypeError).
Proof. repeat split; vm_compute; reflexivity. Qed.

Lemma processChunkBuffer_order_witness :
  exists this' msgs chunk pointers indexedDataList,
    _processChunkBuffer no_lz4 8 agreeing_chunk_buffer chunk_info manager_0
      = (this', Ok msgs) /\
    sortedPointers no_lz4 agreeing_chunk_buffer chunk_info = Ok (Some (chunk, pointers)) /\
    index_order pointers indexedDataList /\
    messages_sorted msgs.
Proof.
  destruct (_processChunkBuffer no_lz4 8 agreeing_chunk_buffer chunk_info manager_0)
    as [this' [msgs | e]] eqn:E.
  - pose proof (processChunkBuffer_order no_lz4 8 _ _ _ _ _ E) as H.
    destruct (sortedPointers no_lz4 agreeing_chunk_buffer chunk_info)
      as [[[chunk pointers] |] | e'] eqn:Es;
      [| exfalso; vm_compute in Es; discriminate Es | contradiction].
    destruct H as ((indexedDataList & _ & Hindex) & _ & H).
    exists this', msgs, chunk, pointers, indexedDataList.
    split; [reflexivity | split; [reflexivity | split; [exact Hindex |]]].
    apply H.
    vm_compute in Es. injection Es as <- <-.
    intros pointer msgRecord t Hin Hr Ht.
    apply list_elem_of_In in Hin.
    destruct Hin as [<- | [<- | []]]; vm_compute in Hr; injection Hr as <-;
      vm_compute in Ht; injection Ht as <-; reflexivity.
  - exfalso. apply (f_equal snd) in E. rewrite agreeing_chunk_decodes in E.
    discriminate E.
Defined.

End ChunkPipelineExamples.

(** ** The playback clock (RosbagManager) *)

Section Playback.
Import BagInspector RosbagManager.

(** C8. With [loop] set, a tick whose new bag time is not before the end
    time of the bag publishes the start time as the current bag time,
    anchors the clock again (bag anchor at the start time, wall anchor at
    the new reading of the wall clock, prefetch mark at the start time),
    subscribes to a prefetch at the start time, and pushes no message
    batch: these two are all the events of the tick. *)
Theorem tick_loops_at_end (bagMetadata md : IBagMetadata) (now now' : Q)
    (this : RosbagManager) (c : clock) :
  loop (_options this) = true ->
  isLessThan (newBagTime_at now this c) (md_endTime bagMetadata) = false ->
  _bagMetadata this = Some md ->
  exists this' c' chunks,
    tick bagMetadata now now' this c
      = Ok (this', c',
            [currentBagTime_next (Some (md_startTime bagMetadata));
             prefetch_subscribed chunks]) /\
    _currentBagTime this' = Some (md_startTime bagMetadata) /\
    _wallStartTime this' = now' /\
    bagTimeAtWallStart c' = md_startTime bagMetadata /\
    lastPrefetchTimeSec c' = seconds (md_startTime bagMetadata) /\
    _prefetchChunks (md_startTime bagMetadata) this' = Ok chunks /\
    List.filter is_message_batch
      [currentBagTime_next (Some (md_startTime bagMetadata));
       prefetch_subscribed chunks] = [].
Proof.
  intros Hloop Hend Hmd. unfold tick. fold (newBagTime_at now this c).
  rewrite Hend, Hloop. cbn [negb].
  set (this' := set_wallStartTime now'
                  (set_currentBagTime (Some (md_startTime bagMetadata)) this)).
  assert (Hmd' : _bagMetadata this' = Some md) by exact Hmd.
  unfold _prefetchChunks. rewrite Hmd'. cbn [defined mbind completion_bind].
  eexists this', _, _. repeat split.
  unfold _prefetchChunks. rewrite Hmd'. reflexivity.
Qed.

Lemma tick_loops_at_end_witness :
  loop (_options playing_manager) = true /\
  isLessThan (newBagTime_at 11000 playing_manager playing_clock)
             (md_endTime bag_0_10) = false /\
  exists this' c' chunks,
    tick bag_0_10 11000 11001 playing_manager playing_clock
      = Ok (this', c',
            [currentBagTime_next (Some (mkTime 0 0)); prefetch_subscribed chunks]) /\
    _currentBagTime this' = Some (mkTime 0 0).
Proof.
  split; [reflexivity | split; [reflexivity |]].
  destruct (tick_loops_at_end bag_0_10 bag_0_10 11000 11001 playing_manager
              playing_clock eq_refl eq_refl eq_refl)
    as (this' & c' & chunks & H1 & H2 & _).
  exists this', c', chunks. split; [exact H1 | exact H2].
Defined.

(** Before the end the same manager emits a batch: the tick at 5 s. *)
Lemma tick_before_end_emits :
  exists this' c' t,
    tick bag_0_10 5000 5000 playing_manager playing_clock
      = Ok (this', c', [currentBagTime_next (Some t); onMessages_next []]).
Proof. eexists _, _, _. vm_compute. reflexivity. Qed.

End Playback.

(** * Further properties of the code *)

(** ** The order on times (utils/timeUtil.ts) *)

Section TimeOrder.

(** X1. The order on times.  [compareTime] is a consistent comparator:
    swapping the arguments negates the result, the result is zero exactly
    on equal times, and "not later than" is transitive.  [isLessThan] is
    the strict total order that goes with it: irreflexive, transitive,
    two times of which neither is less than the other are equal, and it
    is the lexicographic order on seconds and nanoseconds. *)
Theorem compareTime_isLessThan_order (a b c : ITime) :
  (compareTime b a = - compareTime a b /\
   (compareTime a b = 0 <-> a = b) /\
   (compareTime a b <= 0 -> compareTime b c <= 0 -> compareTime a c <= 0)) /\
  (isLessThan a a = false /\
   (isLessThan a b = true -> isLessThan b c = true -> isLessThan a c = true) /\
   (isLessThan a b = false -> isLessThan b a = false -> a = b) /\
   (isLessThan a b = true <-> sec a < sec b \/ (sec a = sec b /\ nsec a < nsec b))).
Proof.
  destruct a as [sa na], b as [sb nb], c as [sc nc].
  unfold isLessThan, compareTime; cbn [sec nsec].
  split.
  - repeat split.
    + destruct (Z.eqb_spec (sb - sa) 0), (Z.eqb_spec (sa - sb) 0); lia.
    + destruct (Z.eqb_spec (sa - sb) 0); intros H; [| lia].
      f_equal; lia.
    + intros H. injection H as -> ->. rewrite Z.sub_diag. cbn. lia.
    + destruct (Z.eqb_spec (sa - sb) 0), (Z.eqb_spec (sb - sc) 0),
        (Z.eqb_spec (sa - sc) 0); lia.
  - rewrite Z.sub_diag. cbn [Z.eqb].
    repeat split.
    + apply Z.ltb_ge. lia.
    + rewrite !Z.ltb_lt.
      destruct (Z.eqb_spec (sa - sb) 0), (Z.eqb_spec (sb - sc) 0),
        (Z.eqb_spec (sa - sc) 0); lia.
    + rewrite !Z.ltb_ge.
      destruct (Z.eqb_spec (sa - sb) 0), (Z.eqb_spec (sb - sa) 0); intros; try lia.
      f_equal; lia.
    + rewrite Z.ltb_lt. destruct (Z.eqb_spec (sa - sb) 0); lia.
    + rewrite Z.ltb_lt. destruct (Z.eqb_spec (sa - sb) 0); lia.
Qed.

End TimeOrder.

(** ** Adding seconds to a time (utils/timeUtil.ts) *)

Section TimeArithmetic.









End TimeArithmetic.

(** ** Header fields, further (helper-functions.ts) *)

Section FieldEntries.


Lemma assign_throws (o : FieldsObject) (name : jsstring) (value : Buffer) (e : jsError) :
  assign o name value = Throw e -> e = TypeError /\ prototype o <> None.
Proof.
  unfold assign. destruct (bool_decide _); [discriminate |].
  destruct (prototype o) as [b |]; [| discriminate].
  destruct (own o !! name); [discriminate |].
  destruct (bool_decide _); [| discriminate].
  intros [= <-]. split; [reflexivity | discriminate].
Qed.

Lemma extractFields_loop_throws (fuel : nat) :
  forall (buffer : Buffer) (offset : Z) (acc : FieldsObject) (e : jsError),
  extractFields_loop fuel buffer offset acc = Throw e ->
  e = RangeError \/ e = TypeError \/ e = OutOfFuel.
Proof.
  induction fuel as [| fuel IH]; intros buffer offset acc e; cbn [extractFields_loop].
  - intros [= <-]. now right; right.
  - destruct (offset <? blength buffer); [| discriminate].
    pose proof (readInt32LE_inv buffer offset) as Hr.
    destruct (readInt32LE buffer offset) as [fieldLen | e']; cbn [mbind completion_bind].
    + destruct (indexOf _ equalChar) as [i |]; [| discriminate].
      destruct (assign acc _ _) as [acc' | e'] eqn:Ea; cbn [mbind completion_bind].
      * apply IH.
      * intros [= <-]. apply assign_throws in Ea as [-> _]. now right; left.
    + intros [= <-]. now left.
Qed.

Lemma index_of_split (v : byte) (l : list byte) (i : Z) :
  index_of v l = Some i ->
  l = take (Z.to_nat i) l ++ v :: drop (Z.to_nat (i + 1)) l.
Proof.
  revert i. induction l as [| b r IH]; intros i; [discriminate |].
  cbn [index_of]. destruct (Byte.eqb b v) eqn:E.
  - intros [= <-]. apply Byte.byte_dec_bl in E. subst b. reflexivity.
  - destruct (index_of v r) as [j |] eqn:Ej; [| discriminate].
    intros [= <-]. pose proof (index_of_range _ _ _ Ej) as Hj.
    replace (Z.to_nat (Z.succ j)) with (S (Z.to_nat j)) by lia.
    replace (Z.to_nat (Z.succ j + 1)) with (S (Z.to_nat (j + 1))) by lia.
    cbn [take drop app]. f_equal. apply IH. reflexivity.
Qed.

Lemma slice_occurs (l : list byte) (s : Z) (e : option Z) :
  exists before after, l = before ++ slice l s e ++ after.
Proof.
  unfold slice. set (n := Z.to_nat _). set (k := Z.to_nat _).
  exists (take k l), (drop n (drop k l)).
  now rewrite (take_drop n (drop k l)), take_drop.
Qed.

Lemma occurs_app (pattern before after : list byte) :
  occurs pattern (before ++ pattern ++ after) = true.
Proof.
  induction before as [| x r IH].
  - destruct (pattern ++ after) eqn:E; cbn [app occurs]; rewrite <- E;
      rewrite take_app_length, bool_decide_eq_true_2 by reflexivity; reflexivity.
  - cbn [app occurs]. rewrite IH. apply orb_true_r.
Qed.

(** An entry of the buffer that is named [__proto__] shows in its
    bytes. *)
Lemma proto_entry_occurs (buffer : Buffer) (offset fieldLen i : Z) :
  let fieldData := subarray buffer offset (Some (offset + fieldLen)) in
  indexOf fieldData equalChar = Some i ->
  toString (subarray fieldData 0 (Some i)) = js "__proto__" ->
  occurs (js_bytes "__proto__=") (bytes buffer) = true.
Proof.
  intros fieldData Hi Hname. unfold indexOf in Hi.
  pose proof (index_of_range _ _ _ Hi) as Hr.
  pose proof (index_of_split _ _ _ Hi) as Hsplit.
  unfold toString in Hname. cbn [subarray bytes] in Hname.
  rewrite slice_prefix in Hname by lia. apply proto_name in Hname.
  rewrite Hname in Hsplit.
  destruct (slice_occurs (bytes buffer) offset (Some (offset + fieldLen)))
    as (before & after & Hb).
  change (slice (bytes buffer) offset (Some (offset + fieldLen)))
    with (bytes fieldData) in Hb.
  rewrite Hsplit in Hb. rewrite Hb.
  change (js_bytes "__proto__" ++ equalChar :: ?r)
    with (js_bytes "__proto__=" ++ r).
  rewrite <- app_assoc. apply occurs_app.
Qed.

Lemma extractFields_loop_plain (fuel : nat) :
  forall (buffer : Buffer) (offset : Z) (acc : FieldsObject) (e : jsError),
  occurs (js_bytes "__proto__=") (bytes buffer) = false ->
  prototype acc = None ->
  extractFields_loop fuel buffer offset acc = Throw e ->
  e = RangeError \/ e = OutOfFuel.
Proof.
  induction fuel as [| fuel IH]; intros buffer offset acc e Hno Hproto;
    cbn [extractFields_loop].
  - intros [= <-]. now right.
  - destruct (offset <? blength buffer); [| discriminate].
    pose proof (readInt32LE_inv buffer offset) as Hr.
    destruct (readInt32LE buffer offset) as [fieldLen | e']; cbn [mbind completion_bind].
    + destruct (indexOf _ equalChar) as [i |] eqn:Ei; [| discriminate].
      destruct (assign acc _ _) as [acc' | e'] eqn:Ea; cbn [mbind completion_bind].
      * apply IH; [exact Hno |].
        unfold assign in Ea.
        destruct (bool_decide _) eqn:En in Ea.
        { apply bool_decide_eq_true in En. exfalso.
          rewrite (proto_entry_occurs _ _ _ _ Ei En) in Hno. discriminate Hno. }
        rewrite Hproto in Ea. injection Ea as <-. reflexivity.
      * apply assign_throws in Ea as [_ Ea]. contradiction.
    + intros [= <-]. now left.
Qed.

(** X4. [extractFields] ends on every buffer, and what it throws is a
    RangeError, for a length prefix that does not fit in the bytes that
    are left, or a TypeError, for an assignment that is refused; the
    latter only on a buffer that holds the bytes [__proto__=], as no
    assignment is refused before an entry of that name has replaced the
    prototype. *)
Theorem extractFields_returns_or_throws (buffer : Buffer) :
  ((exists fields, extractFields buffer = Ok fields) \/
   extractFields buffer = Throw RangeError \/
   extractFields buffer = Throw TypeError) /\
  (extractFields buffer = Throw TypeError ->
   occurs (js_bytes "__proto__=") (bytes buffer) = true).
Proof.
  split.
  - destruct (extractFields buffer) as [fields | e] eqn:E; [left; now exists fields |].
    right. destruct (extractFields_loop_throws _ _ _ _ _ E) as [-> | [-> | ->]];
      [now left | now right |].
    exfalso. exact (extractFields_fuel buffer E).
  - intros E. destruct (occurs (js_bytes "__proto__=") (bytes buffer)) eqn:H;
      [reflexivity | exfalso].
    unfold extractFields in E.
    destruct (extractFields_loop_plain _ buffer 0 new_object _ H eq_refl E);
      discriminate.
Qed.

(** Insertion one field after the other. *)
Lemma read_entries_foldl (fields : list (list byte * list byte)) :
  forall acc : gmap jsstring (list byte),
  Forall (fun f => ascii_name f.1) fields ->
  read_entries (map entry_of fields) acc
  = Some (foldl (fun m f => <[map byteZ f.1 := f.2]> m) acc fields).
Proof.
  induction fields as [| [name value] r IH]; intros acc Hascii; [reflexivity |].
  inversion Hascii as [| ? ? Hn Ha]; subst. cbn in Hn. unfold ascii_name in Hn.
  cbn [map read_entries foldl]. unfold entry_of at 1. cbn [fst snd].
  rewrite split_entry_of.
  - rewrite utf8Slice_ascii, (IH _ Ha); [reflexivity |].
    eapply Forall_impl; [exact Hn |]. cbn. tauto.
  - intros Hin. rewrite Forall_forall in Hn. apply (Hn _ Hin). reflexivity.
Qed.

Lemma foldl_insert_fields_map (fields : list (list byte * list byte)) :
  forall acc : gmap jsstring (list byte),
  foldl (fun m f => <[map byteZ f.1 := f.2]> m) acc fields
  = fields_map (rev fields) ∪ acc.
Proof.
  unfold fields_map.
  induction fields as [| f r IH]; intros acc; cbn [foldl rev].
  - cbn. now rewrite (left_id_L ∅ (∪)).
  - rewrite IH, map_app, list_to_map_app. cbn [map list_to_map foldr fst snd].
    rewrite <- (assoc_L (∪)). f_equal.
    rewrite insert_union_singleton_l, insert_empty. reflexivity.
Qed.

(** X5. When a name occurs in several entries the last one wins: a blob
    of fields, their names of 7-bit bytes other than '=' and none of them
    [__proto__], reads back as the map built from the last field to the
    first. *)
Theorem extractFields_last_entry_wins
    (fields : list (list byte * list byte)) (trailing : list byte) :
  Forall (fun f => field_name f.1) fields ->
  Z.of_nat (length (serialize fields)) <= K_MAX_LENGTH ->
  field_bytes (extractFields (mkBuffer (serialize fields) trailing))
  = Ok (Some (fields_map (rev fields))).
Proof.
  intros Hnames Hmax. unfold serialize in *.
  rewrite extractFields_frames by (try exact Hmax; now apply plain_entries_of).
  rewrite read_entries_foldl by (now apply field_names_ascii).
  rewrite foldl_insert_fields_map. now rewrite (right_id_L ∅ (∪)).
Qed.

Lemma extractFields_last_entry_wins_witness :
  Forall (fun f => field_name f.1) [(js_bytes "a", js_bytes "1"); (js_bytes "a", js_bytes "2")] /\
  field_bytes (extractFields
                 (mkBuffer (serialize [(js_bytes "a", js_bytes "1");
                                       (js_bytes "a", js_bytes "2")]) []))
  = Ok (Some (fields_map (rev [(js_bytes "a", js_bytes "1"); (js_bytes "a", js_bytes "2")]))).
Proof.
  assert (H1 : Forall (fun f : list byte * list byte => field_name f.1)
                      [(js_bytes "a", js_bytes "1"); (js_bytes "a", js_bytes "2")]).
  { repeat constructor; discriminate. }
  split; [exact H1 |].
  refine (extractFields_last_entry_wins _ [] H1 _).
  vm_compute. intros H. discriminate H.
Defined.

Lemma readUInt32LE_u32le (pre rest trailing : list byte) (n : Z) :
  0 <= n < 2 ^ 32 ->
  readUInt32LE (mkBuffer (pre ++ u32le n ++ rest) trailing) (Z.of_nat (length pre))
  = Ok n.
Proof.
  intros Hn. rewrite readUInt32LE_ok.
  - cbn [bytes]. rewrite Nat2Z.id, drop_app_length.
    change (take 4 (u32le n ++ rest)) with (u32le n).
    now rewrite u32le_unsigned.
  - lia.
  - unfold blength. cbn [bytes]. rewrite !length_app. cbn [length u32le]. lia.
Qed.

Lemma readInt32LE_u32le (pre rest trailing : list byte) (n : Z) :
  0 <= n < 2 ^ 31 ->
  readInt32LE (mkBuffer (pre ++ u32le n ++ rest) trailing) (Z.of_nat (length pre))
  = Ok n.
Proof.
  intros Hn. unfold readInt32LE. rewrite readUInt32LE_u32le by lia.
  cbn [fmap completion_fmap]. unfold to_signed. change (2 ^ (32 - 1)) with (2 ^ 31).
  destruct (n <? 2 ^ 31) eqn:E; [reflexivity | lia].
Qed.

(** The loop over a run of framed entries that something else follows:
    either an entry without '=' ends it, or it arrives behind the run. *)
Lemma extractFields_loop_run (entries : list (list byte)) :
  forall (pre tail trailing : list byte) (acc : IRecordFields) (fuel : nat),
  Forall (fun e => Z.of_nat (length e) < 2 ^ 31) entries ->
  Forall plain_entry entries ->
  let buffer := mkBuffer (pre ++ frames entries ++ tail) trailing in
  match read_entries entries (bytes <$> acc) with
  | None => extractFields_loop (length entries + fuel) buffer (Z.of_nat (length pre))
              {| own := acc; prototype := None |}
            = Ok None
  | Some m =>
    exists acc', bytes <$> acc' = m /\
      extractFields_loop (length entries + fuel) buffer (Z.of_nat (length pre))
        {| own := acc; prototype := None |}
      = extractFields_loop fuel buffer (Z.of_nat (length (pre ++ frames entries)))
          {| own := acc'; prototype := None |}
  end.
Proof.
  induction entries as [| e r IH]; intros pre tail trailing acc fuel Hlen Hplain buffer.
  - cbn [read_entries length Nat.add]. exists acc. split; [reflexivity |].
    subst buffer. cbn [frames map concat]. now rewrite app_nil_r.
  - inversion Hlen as [| ? ? He Hr]; subst.
    inversion Hplain as [| ? ? Hpe Hpr]; subst.
    subst buffer. change (frames (e :: r)) with (frame e ++ frames r).
    rewrite <- (app_assoc (frame e)).
    cbn [read_entries length Nat.add extractFields_loop].
    assert (Hlt : (Z.of_nat (length pre)
                   <? blength (mkBuffer (pre ++ frame e ++ frames r ++ tail) trailing)) = true).
    { apply Z.ltb_lt. unfold blength. cbn [bytes]. rewrite !length_app, frame_length. lia. }
    rewrite Hlt, read_frame_length by exact He. cbn [mbind completion_bind].
    unfold indexOf, split_entry. cbn [subarray bytes]. rewrite slice_frame.
    destruct (index_of equalChar e) as [i |] eqn:Ei; [| reflexivity].
    pose proof (index_of_range _ _ _ Ei) as Hi.
    set (name := toString _). set (value := subarray _ _ None).
    assert (Hname : name = utf8Slice (map byteZ (take (Z.to_nat i) e))).
    { subst name. unfold toString. cbn [subarray bytes].
      rewrite slice_frame, slice_prefix by lia. reflexivity. }
    assert (Hvalue : bytes value = drop (Z.to_nat (i + 1)) e).
    { subst value. cbn [subarray bytes]. rewrite slice_frame, slice_from by lia.
      reflexivity. }
    assert (Hplain_name : name <> js "__proto__").
    { rewrite Hname. intros E. apply proto_name in E.
      apply Hpe. unfold split_entry. rewrite Ei. cbn. now rewrite E. }
    clearbody name value.
    rewrite assign_plain by exact Hplain_name. cbn [mbind completion_bind].
    replace (Z.of_nat (length pre) + 4 + Z.of_nat (length e))
      with (Z.of_nat (length (pre ++ frame e)))
      by (rewrite length_app, frame_length; lia).
    rewrite (app_assoc pre (frame e) (frames r ++ tail)).
    specialize (IH (pre ++ frame e) tail trailing (<[name := value]> acc) fuel Hr Hpr).
    cbn zeta in IH. rewrite <- Hname, <- Hvalue, <- fmap_insert.
    destruct (read_entries r _) as [m |]; [| exact IH].
    destruct IH as (acc' & Hacc & IH). exists acc'. split; [exact Hacc |].
    rewrite IH. now rewrite <- !app_assoc.
Qed.

(** One entry whose declared length reaches the end of the buffer or
    goes beyond it. *)
Lemma extractFields_loop_clamped (pre e trailing : list byte) (n : Z)
    (acc : IRecordFields) (fuel : nat) :
  Z.of_nat (length e) <= n < 2 ^ 31 ->
  plain_entry e ->
  field_bytes (extractFields_loop (S (S fuel)) (mkBuffer (pre ++ u32le n ++ e) trailing)
                 (Z.of_nat (length pre)) {| own := acc; prototype := None |})
  = Ok (read_entries [e] (bytes <$> acc)).
Proof.
  intros Hn Hpe.
  assert (Hlen : blength (mkBuffer (pre ++ u32le n ++ e) trailing)
                 = Z.of_nat (length pre) + 4 + Z.of_nat (length e)).
  { unfold blength. cbn [bytes]. rewrite !length_app. cbn [length u32le]. lia. }
  assert (Hslice : slice (pre ++ u32le n ++ e) (Z.of_nat (length pre) + 4)
                         (Some (Z.of_nat (length pre) + 4 + n)) = e).
  { unfold slice, relIndex.
    assert (L : Z.of_nat (length (pre ++ u32le n ++ e))
                = Z.of_nat (length pre) + 4 + Z.of_nat (length e)).
    { rewrite !length_app. cbn [length u32le]. lia. }
    rewrite L.
    destruct (Z.of_nat (length pre) + 4 <? 0) eqn:E1; [lia |].
    destruct (Z.of_nat (length pre) + 4 + n <? 0) eqn:E2; [lia |].
    rewrite (Z.min_l (Z.of_nat (length pre) + 4)) by lia.
    rewrite (Z.min_r (Z.of_nat (length pre) + 4 + n)) by lia.
    rewrite Z.max_l by lia.
    replace (Z.to_nat (Z.of_nat (length pre) + 4)) with (length pre + 4)%nat by lia.
    rewrite <- drop_drop, drop_app_length.
    change (drop 4 (u32le n ++ e)) with e.
    apply firstn_all2. lia. }
  cbn [extractFields_loop read_entries].
  rewrite Hlen.
  rewrite (proj2 (Z.ltb_lt _ _)) by lia.
  rewrite readInt32LE_u32le by lia. cbn [mbind completion_bind].
  unfold indexOf, split_entry. cbn [subarray bytes]. rewrite Hslice.
  destruct (index_of equalChar e) as [i |] eqn:Ei; [| reflexivity].
  pose proof (index_of_range _ _ _ Ei) as Hi.
  set (name := toString _). set (value := subarray _ _ None).
  assert (Hname : name = utf8Slice (map byteZ (take (Z.to_nat i) e))).
  { subst name. unfold toString. cbn [subarray bytes].
    rewrite Hslice, slice_prefix by lia. reflexivity. }
  assert (Hvalue : bytes value = drop (Z.to_nat (i + 1)) e).
  { subst value. cbn [subarray bytes]. rewrite Hslice, slice_from by lia.
    reflexivity. }
  assert (Hplain_name : name <> js "__proto__").
  { rewrite Hname. intros E. apply proto_name in E.
    apply Hpe. unfold split_entry. rewrite Ei. cbn. now rewrite E. }
  clearbody name value.
  rewrite assign_plain by exact Hplain_name. cbn [mbind completion_bind].
  rewrite (proj2 (Z.ltb_ge _ _)) by lia.
  cbn [field_bytes own]. rewrite fmap_insert, Hname, Hvalue. reflexivity.
Qed.

Lemma frames_length (entries : list (list byte)) :
  (length entries <= length (frames entries))%nat.
Proof.
  induction entries as [| e r IH]; [reflexivity |].
  change (frames (e :: r)) with (frame e ++ frames r).
  rewrite length_app, frame_length. cbn [length]. lia.
Qed.

Lemma read_entries_app (es1 es2 : list (list byte)) :
  forall acc,
  read_entries (es1 ++ es2) acc
  = match read_entries es1 acc with
    | Some m => read_entries es2 m
    | None => None
    end.
Proof.
  induction es1 as [| e r IH]; intros acc; [reflexivity |].
  cbn [app read_entries]. destruct (split_entry e) as [[name value] |]; [apply IH | reflexivity].
Qed.

(** X6. A last entry whose declared length goes beyond the end of the
    buffer is no error: it is read as the bytes that are there. (No entry
    is named [__proto__].) *)
Theorem extractFields_truncated_last_entry
    (entries : list (list byte)) (e trailing : list byte) (n : Z) :
  Z.of_nat (length e) <= n < 2 ^ 31 ->
  Z.of_nat (length (frames entries ++ u32le n ++ e)) <= K_MAX_LENGTH ->
  Forall plain_entry (entries ++ [e]) ->
  field_bytes (extractFields (mkBuffer (frames entries ++ u32le n ++ e) trailing))
  = Ok (read_entries (entries ++ [e]) ∅).
Proof.
  intros Hn Hmax Hplain. apply Forall_app in Hplain as [Hplain He].
  inversion He as [| ? ? Hpe _]; subst. clear He.
  unfold extractFields, new_object. cbn [bytes].
  pose proof (frames_length entries) as Hle.
  set (len := length (frames entries ++ u32le n ++ e)) in *.
  assert (Hlen : (length (frames entries) + 4 <= len)%nat).
  { subst len. rewrite !length_app. cbn [length u32le]. lia. }
  assert (Hsize : Forall (fun e => Z.of_nat (length e) < 2 ^ 31) entries).
  { apply Forall_forall. intros x Hx.
    assert ((length x <= length (frames entries))%nat); [| unfold K_MAX_LENGTH in Hmax; lia].
    clear -Hx. induction Hx as [x r | x y r Hx IH].
    - change (frames (x :: r)) with (frame x ++ frames r).
      rewrite length_app, frame_length. lia.
    - change (frames (y :: r)) with (frame y ++ frames r).
      rewrite length_app. lia. }
  replace (S (S len)) with (length entries + S (S (len - length entries)))%nat by lia.
  pose proof (extractFields_loop_run entries [] (u32le n ++ e) trailing ∅
                (S (S (len - length entries))) Hsize Hplain) as H.
  cbn zeta in H. rewrite fmap_empty in H. cbn [app length] in H.
  change (Z.of_nat 0) with 0 in H.
  rewrite read_entries_app.
  destruct (read_entries entries ∅) as [m |].
  - destruct H as (acc' & Hacc & H). rewrite H. subst m.
    apply (extractFields_loop_clamped (frames entries) e trailing n acc');
      [exact Hn | exact Hpe].
  - rewrite H. reflexivity.
Qed.

Lemma extractFields_truncated_last_entry_witness :
  Z.of_nat (length (js_bytes "a=xy")) <= 100 < 2 ^ 31 /\
  Forall plain_entry ([] ++ [js_bytes "a=xy"]) /\
  field_bytes (extractFields (mkBuffer (frames [] ++ u32le 100 ++ js_bytes "a=xy") []))
  = Ok (read_entries ([] ++ [js_bytes "a=xy"]) ∅).
Proof.
  assert (H1 : Z.of_nat (length (js_bytes "a=xy")) <= 100 < 2 ^ 31) by (cbn; lia).
  assert (H2 : Forall plain_entry ([] ++ [js_bytes "a=xy"])).
  { constructor; [| constructor]. unfold plain_entry. vm_compute. discriminate. }
  split; [exact H1 | split; [exact H2 |]].
  refine (extractFields_truncated_last_entry [] (js_bytes "a=xy") [] 100 H1 _ H2).
  vm_compute. intros H. discriminate H.
Defined.

Lemma shallowRecordRead_frames (entries : list (list byte))
    (data tail beyond : list byte) (initialOffset : Z) :
  Z.of_nat (length (frame (frames entries) ++ frame data ++ tail)) <= K_MAX_LENGTH ->
  Forall plain_entry entries ->
  let recordBuffer := mkBuffer (frame (frames entries) ++ frame data ++ tail) beyond in
  match read_entries entries ∅ with
  | None => shallowRecordRead recordBuffer initialOffset = Ok None
  | Some m =>
    exists fields,
      bytes <$> fields = m /\
      shallowRecordRead recordBuffer initialOffset
      = Ok (Some {| rest := {| recordOffset := initialOffset;
                               recordLength :=
                                 Z.of_nat (length (frame (frames entries) ++ frame data));
                               recordDataOffset :=
                                 initialOffset + 8 + Z.of_nat (length (frames entries)) |};
                    recordHeaderFields := fields;
                    recordDataBuffer := mkBuffer data (tail ++ beyond) |})
  end.
Proof.
  intros Hmax Hplain recordBuffer. unfold K_MAX_LENGTH in Hmax.
  rewrite !length_app, !frame_length in Hmax.
  unfold shallowRecordRead. subst recordBuffer.
  pose proof (read_frame_length [] (frames entries) (frame data ++ tail) beyond
                ltac:(lia)) as H1.
  cbn [app length] in H1. change (Z.of_nat 0) with 0 in H1. rewrite H1.
  cbn [mbind completion_bind].
  pose proof (slice_frame [] (frames entries) (frame data ++ tail)) as H2.
  cbn [app length] in H2. change (Z.of_nat 0 + 4) with 4 in H2.
  set (headerFieldsBuffer := subarray _ 4 _).
  assert (Hb : bytes headerFieldsBuffer = frames entries).
  { subst headerFieldsBuffer. cbn [subarray bytes]. exact H2. }
  pose proof (extractFields_frames entries (trailing headerFieldsBuffer)
                ltac:(unfold K_MAX_LENGTH; lia) Hplain) as H3.
  rewrite <- Hb in H3.
  replace (mkBuffer (bytes headerFieldsBuffer) (trailing headerFieldsBuffer))
    with headerFieldsBuffer in H3 by (now destruct headerFieldsBuffer).
  clearbody headerFieldsBuffer.
  unfold field_bytes in H3.
  destruct (extractFields headerFieldsBuffer) as [[fields |] | e]; try discriminate.
  2:{ injection H3 as <-. reflexivity. }
  injection H3 as <-. exists fields. split; [reflexivity |].
  pose proof (read_frame_length (frame (frames entries)) data tail beyond ltac:(lia)) as H4.
  rewrite frame_length in H4.
  replace (Z.of_nat (4 + length (frames entries)))
    with (Z.of_nat (length (frames entries)) + 4) in H4 by lia.
  rewrite H4. cbn [mbind completion_bind]. do 3 f_equal.
  - f_equal; [rewrite length_app, !frame_length | ]; lia.
  - pose proof (slice_frame (frame (frames entries)) data tail) as H5.
    rewrite frame_length in H5.
    unfold subarray. cbn [bytes]. f_equal.
    + etransitivity; [| exact H5]. f_equal; [lia | f_equal; lia].
    + cbn [trailing]. unfold blength, relIndex. cbn [bytes].
      rewrite !length_app, !frame_length.
      match goal with |- context [if ?c then _ else _] => destruct c eqn:E1 end; [lia |].
      match goal with |- context [if ?c then _ else _] => destruct c eqn:E2 end; [lia |].
      rewrite !Z.min_l by lia. rewrite Z.max_l by lia.
      match goal with |- drop ?k _ ++ _ = _ =>
        replace k with (length (frame (frames entries)) + length (frame data))%nat
          by (rewrite !frame_length; lia) end.
      rewrite <- drop_drop, drop_app_length, drop_app_length. reflexivity.
Qed.

End FieldEntries.

(** ** Records of the container (helper-functions.ts) *)

Section Records.


Lemma subarray_from (pre l beyond : list byte) :
  subarray (mkBuffer (pre ++ l) beyond) (Z.of_nat (length pre)) None = mkBuffer l beyond.
Proof.
  unfold subarray, blength, relIndex. cbn [bytes trailing].
  assert (L : Z.of_nat (length (pre ++ l)) = Z.of_nat (length pre) + Z.of_nat (length l))
    by (rewrite length_app; lia).
  rewrite slice_from by lia.
  rewrite Nat2Z.id, drop_app_length. f_equal.
  destruct (Z.of_nat (length pre) <? 0) eqn:E; [lia |].
  rewrite L, Z.min_l by lia.
  rewrite Z.max_l by lia.
  replace (Z.to_nat _) with (length (pre ++ l)) by lia.
  now rewrite drop_all.
Qed.

Lemma shallowRecordRead_reads_as (header : list (list byte * list byte))
    (data tail beyond : list byte) (initialOffset : Z) :
  wf_header header ->
  Z.of_nat (length (record_bytes header data ++ tail)) <= K_MAX_LENGTH ->
  exists s,
    shallowRecordRead (mkBuffer (record_bytes header data ++ tail) beyond) initialOffset
      = Ok (Some s) /\
    reads_as initialOffset (header, data) s /\
    trailing (recordDataBuffer s) = tail ++ beyond.
Proof.
  intros [Hnd Hnames] Hmax. unfold record_bytes, serialize in *.
  rewrite <- app_assoc in *.
  pose proof (shallowRecordRead_frames (map entry_of header) data tail beyond
                initialOffset Hmax (plain_entries_of _ Hnames)) as H.
  cbn zeta in H.
  rewrite read_entries_fields in H by (try assumption; now apply field_names_ascii).
  rewrite (right_id_L ∅ (∪)) in H.
  destruct H as (fields & Hf & H). rewrite H. eexists. split; [reflexivity |].
  split; [| reflexivity]. repeat split; cbn [rest recordHeaderFields recordDataBuffer bytes fst snd].
  exact Hf.
Qed.

(** X7. [shallowRecordRead] takes a record apart: on the bytes of a
    record (header fields after their length, data after its length),
    whatever follows them, it returns the offset it was given, the length
    of the record, the offset of its data, the header fields and the data;
    the data buffer ends where the data ends. The header fields have
    distinct names, none of them [__proto__]. *)
Theorem shallowRecordRead_record (header : list (list byte * list byte))
    (data tail beyond : list byte) (initialOffset : Z) :
  wf_header header ->
  Z.of_nat (length (record_bytes header data ++ tail)) <= K_MAX_LENGTH ->
  exists s,
    shallowRecordRead (mkBuffer (record_bytes header data ++ tail) beyond) initialOffset
      = Ok (Some s) /\
    reads_as initialOffset (header, data) s /\
    trailing (recordDataBuffer s) = tail ++ beyond.
Proof. apply shallowRecordRead_reads_as. Qed.

Lemma wf_two_fields : wf_header two_fields.
Proof.
  split.
  - cbn. apply NoDup_cons. split.
    + intros H. apply list_elem_of_singleton in H. discriminate H.
    + apply NoDup_singleton.
  - repeat constructor; discriminate.
Qed.

Lemma shallowRecordRead_record_witness :
  wf_header two_fields /\
  Z.of_nat (length (record_bytes two_fields [Byte.x0a] ++ [Byte.xff])) <= K_MAX_LENGTH /\
  exists s,
    shallowRecordRead (mkBuffer (record_bytes two_fields [Byte.x0a] ++ [Byte.xff]) []) 100
      = Ok (Some s) /\
    reads_as 100 (two_fields, [Byte.x0a]) s /\
    trailing (recordDataBuffer s) = [Byte.xff] ++ [].
Proof.
  assert (H : Z.of_nat (length (record_bytes two_fields [Byte.x0a] ++ [Byte.xff]))
              <= K_MAX_LENGTH).
  { vm_compute. intros E. discriminate E. }
  split; [exact wf_two_fields | split; [exact H |]].
  exact (shallowRecordRead_record two_fields [Byte.x0a] [Byte.xff] [] 100 wf_two_fields H).
Defined.

Lemma retrieveRecords_loop_records {T} (recordParser : IRecordShallow -> completion T)
    (records : list record_layout) :
  forall (pre tail beyond : list byte) (startingOffset : Z),
  Forall (fun r => wf_header r.1) records ->
  Z.of_nat (length (pre ++ records_bytes records ++ tail)) <= K_MAX_LENGTH ->
  exists shallows,
    read_as_from (startingOffset + Z.of_nat (length pre)) records shallows /\
    retrieveRecords_loop (length records)
      (mkBuffer (pre ++ records_bytes records ++ tail) beyond)
      startingOffset (Z.of_nat (length pre)) recordParser
    = mapM recordParser shallows.
Proof.
  induction records as [| r rs IH]; intros pre tail beyond startingOffset Hwf Hmax.
  - exists []. split; reflexivity.
  - inversion Hwf as [| ? ? Hr Hrs]; subst.
    change (records_bytes (r :: rs)) with (record_bytes r.1 r.2 ++ records_bytes rs) in *.
    rewrite <- app_assoc in *.
    cbn [length retrieveRecords_loop]. rewrite subarray_from.
    destruct (shallowRecordRead_reads_as r.1 r.2 (records_bytes rs ++ tail) beyond
                (startingOffset + Z.of_nat (length pre)) Hr) as (s & Hs & Has & _).
    { rewrite !length_app in *. lia. }
    unfold reads_as in Has. cbn [fst snd] in Has.
    rewrite Hs. cbn [mbind completion_bind defined].
    destruct (IH (pre ++ record_bytes r.1 r.2) tail beyond startingOffset Hrs)
      as (shallows & Hfrom & Hloop).
    { rewrite <- app_assoc. exact Hmax. }
    exists (s :: shallows). split.
    + cbn [read_as_from]. split; [exact Has |].
      rewrite length_app, Nat2Z.inj_add, Z.add_assoc in Hfrom. exact Hfrom.
    + destruct Has as (Hrest & _ & _). rewrite Hrest. cbn [recordLength].
      rewrite <- Nat2Z.inj_add, <- length_app.
      rewrite (app_assoc pre). rewrite Hloop. reflexivity.
Qed.

(** X8. [retrieveRecordsFromBuffer] walks records that lie one after
    the other (their header fields with distinct names, none of them
    [__proto__]): asked for as many records as were laid out, it hands
    the parser each record in turn, every one at the offset where the one
    before it ended, and returns what the parser returned, in order; the
    first error of the parser is its error. *)
Theorem retrieveRecordsFromBuffer_records {T}
    (recordParser : IRecordShallow -> completion T)
    (records : list record_layout) (tail beyond : list byte) (startingOffset : Z) :
  Forall (fun r => wf_header r.1) records ->
  Z.of_nat (length (records_bytes records ++ tail)) <= K_MAX_LENGTH ->
  exists shallows,
    read_as_from startingOffset records shallows /\
    retrieveRecordsFromBuffer (mkBuffer (records_bytes records ++ tail) beyond)
      (Z.of_nat (length records)) startingOffset recordParser
    = mapM recordParser shallows.
Proof.
  intros Hwf Hmax. unfold retrieveRecordsFromBuffer. rewrite Nat2Z.id.
  destruct (retrieveRecords_loop_records recordParser records [] tail beyond
              startingOffset Hwf Hmax) as (shallows & Hfrom & Hloop).
  exists shallows. split; [| exact Hloop].
  cbn [length] in Hfrom. now rewrite Z.add_0_r in Hfrom.
Qed.

Lemma retrieveRecordsFromBuffer_records_witness :
  Forall (fun r : record_layout => wf_header r.1)
         [(two_fields, [Byte.x0a]); (two_fields, [])] /\
  exists shallows,
    read_as_from 100 [(two_fields, [Byte.x0a]); (two_fields, [])] shallows /\
    retrieveRecordsFromBuffer
      (mkBuffer (records_bytes [(two_fields, [Byte.x0a]); (two_fields, [])] ++ []) [])
      (Z.of_nat (length [(two_fields, [Byte.x0a]); (two_fields, @nil byte)])) 100
      (fun s => Ok (recordOffset (rest s)))
    = mapM (fun s => Ok (recordOffset (rest s))) shallows.
Proof.
  assert (H1 : Forall (fun r : record_layout => wf_header r.1)
                      [(two_fields, [Byte.x0a]); (two_fields, [])]).
  { constructor; [exact wf_two_fields |].
    constructor; [exact wf_two_fields | constructor]. }
  split; [exact H1 |].
  refine (retrieveRecordsFromBuffer_records _ _ [] [] 100 H1 _).
  vm_compute. intros E. discriminate E.
Defined.

End Records.

(** ** The record parsers (BagInspector, chunk-info-manager.ts) *)

Section RecordParsers.
Import BagInspector ChunkInfoManager.


Lemma readUInt32LE_bytes (b : Buffer) (n : Z) (tail : list byte) :
  u32 n -> bytes b = u32le n ++ tail -> readUInt32LE b 0 = Ok n.
Proof.
  intros Hn Hb. destruct b as [bs beyond]. cbn [bytes] in Hb. subst bs.
  exact (readUInt32LE_u32le [] tail beyond n Hn).
Qed.

Lemma readUInt32LE_at (b : Buffer) (pre tail : list byte) (n : Z) :
  u32 n -> bytes b = pre ++ u32le n ++ tail ->
  readUInt32LE b (Z.of_nat (length pre)) = Ok n.
Proof.
  intros Hn Hb. destruct b as [bs beyond]. cbn [bytes] in Hb. subst bs.
  exact (readUInt32LE_u32le pre tail beyond n Hn).
Qed.

Lemma extractTime_at (b : Buffer) (pre tail : list byte) (t : ITime) :
  u32_time t -> bytes b = pre ++ time_bytes t ++ tail ->
  extractTime b (Z.of_nat (length pre)) = Ok t.
Proof.
  intros [Hs Hn] Hb. unfold extractTime, time_bytes in *.
  rewrite <- app_assoc in Hb.
  rewrite (readUInt32LE_at b pre _ (sec t) Hs Hb). cbn [mbind completion_bind].
  replace (Z.of_nat (length pre) + 4) with (Z.of_nat (length (pre ++ u32le (sec t))))
    by (rewrite length_app; cbn [length u32le]; lia).
  rewrite (readUInt32LE_at b (pre ++ u32le (sec t)) tail (nsec t) Hn)
    by (now rewrite <- app_assoc).
  cbn [mbind completion_bind]. now destruct t.
Qed.

Lemma readUInt64LE_u64le (b : Buffer) (n : Z) (tail : list byte) :
  0 <= n < 2 ^ 53 -> bytes b = u64le n ++ tail -> Int53.readUInt64LE b 0 = Ok n.
Proof.
  intros Hn Hb. unfold Int53.readUInt64LE, u64le in *. rewrite <- app_assoc in Hb.
  assert (Hlow : u32 (n mod 2 ^ 32)) by (apply Z.mod_pos_bound; lia).
  assert (Hhigh : u32 (n / 2 ^ 32)).
  { split; [apply Z.div_pos; lia |]. apply Z.div_lt_upper_bound; lia. }
  pose proof (readUInt32LE_at b [] _ _ Hlow Hb) as H1.
  change (Z.of_nat (length [])) with 0 in H1. rewrite H1.
  cbn [mbind completion_bind].
  pose proof (readUInt32LE_at b (u32le (n mod 2 ^ 32)) tail _ Hhigh Hb) as H2.
  change (Z.of_nat (length (u32le (n mod 2 ^ 32)))) with (0 + 4) in H2. rewrite H2.
  cbn [mbind completion_bind].
  rewrite toDouble_unsigned.
  - f_equal. pose proof (Z.div_mod n (2 ^ 32) ltac:(lia)). lia.
  - exact Hlow.
  - apply Hhigh.
  - pose proof (Z.div_mod n (2 ^ 32) ltac:(lia)). lia.
Qed.

Lemma field_of_Some (fields : IRecordFields) (name : string) (v : list byte) :
  field_of fields name = Some v ->
  exists b, fields !! js name = Some b /\ bytes b = v.
Proof.
  unfold field_of. destruct (fields !! js name) as [b |]; [| discriminate].
  intros [= <-]. now exists b.
Qed.

Lemma field_of_None (fields : IRecordFields) (name : string) :
  field_of fields name = None -> fields !! js name = None.
Proof. unfold field_of. now destruct (fields !! js name). Qed.

Lemma field_of_fields_map (fields : IRecordFields) (header : list (list byte * list byte))
    (name : string) :
  bytes <$> fields = fields_map header ->
  field_of fields name = fields_map header !! js name.
Proof. intros H. unfold field_of. now rewrite <- H, lookup_fmap. Qed.

Lemma array_from_loop_items {A} (enc : A -> list byte) (size : nat)
    (dec : Buffer -> Z -> completion A) (P : A -> Prop) (buf : Buffer) (tail : list byte) :
  (forall x, length (enc x) = size) ->
  (forall pre tl x, P x -> bytes buf = pre ++ enc x ++ tl ->
                    dec buf (Z.of_nat (length pre)) = Ok x) ->
  forall (items done : list A),
  Forall P items ->
  bytes buf = concat (map enc done) ++ concat (map enc items) ++ tail ->
  array_from_loop (length items) (Z.of_nat (length done))
    (fun i => dec buf (i * Z.of_nat size))
  = Ok items.
Proof.
  intros Hsize Hdec. induction items as [| x items IH]; intros done HP Hb; [reflexivity |].
  inversion HP as [| ? ? Hx HP']; subst.
  assert (Hlen : forall l : list A, length (concat (map enc l)) = (length l * size)%nat).
  { induction l as [| y l IHl]; [reflexivity |].
    cbn [map concat length]. rewrite length_app, IHl, Hsize. lia. }
  cbn [length array_from_loop].
  replace (Z.of_nat (length done) * Z.of_nat size)
    with (Z.of_nat (length (concat (map enc done)))) by (rewrite Hlen; lia).
  cbn [map concat] in Hb. rewrite <- app_assoc in Hb.
  rewrite (Hdec _ _ x Hx Hb). cbn [mbind completion_bind].
  replace (Z.of_nat (length done) + 1) with (Z.of_nat (length (done ++ [x])))
    by (rewrite length_app; cbn [length]; lia).
  rewrite (IH (done ++ [x]) HP').
  - reflexivity.
  - rewrite map_app, concat_app. cbn [map concat]. rewrite app_nil_r, <- app_assoc.
    exact Hb.
Qed.

Lemma array_from_items {A} (enc : A -> list byte) (size : nat)
    (dec : Buffer -> Z -> completion A) (P : A -> Prop) (buf : Buffer) (tail : list byte)
    (items : list A) :
  (forall x, length (enc x) = size) ->
  (forall pre tl x, P x -> bytes buf = pre ++ enc x ++ tl ->
                    dec buf (Z.of_nat (length pre)) = Ok x) ->
  Forall P items ->
  bytes buf = concat (map enc items) ++ tail ->
  array_from (Z.of_nat (length items)) (fun i => dec buf (i * Z.of_nat size)) = Ok items.
Proof.
  intros Hsize Hdec HP Hb. unfold array_from. rewrite Nat2Z.id.
  exact (array_from_loop_items enc size dec P buf tail Hsize Hdec items [] HP Hb).
Qed.

Lemma chunkConnection_at (buf : Buffer) (pre tl : list byte) (cc : IChunkConnection) :
  u32 (cc_conn cc) /\ u32 (cc_count cc) ->
  bytes buf = pre ++ chunkConnection_bytes cc ++ tl ->
  (conn ← readUInt32LE buf (Z.of_nat (length pre));
   count ← readUInt32LE buf (Z.of_nat (length pre) + 4);
   Ok {| cc_conn := conn; cc_count := count |}) = Ok cc.
Proof.
  intros [H1 H2] Hb. unfold chunkConnection_bytes in Hb. rewrite <- app_assoc in Hb.
  rewrite (readUInt32LE_at buf pre _ _ H1 Hb). cbn [mbind completion_bind].
  replace (Z.of_nat (length pre) + 4)
    with (Z.of_nat (length (pre ++ u32le (cc_conn cc))))
    by (rewrite length_app; cbn [length u32le]; lia).
  rewrite (readUInt32LE_at buf (pre ++ u32le (cc_conn cc)) tl _ H2)
    by (now rewrite <- app_assoc).
  cbn [mbind completion_bind]. now destruct cc.
Qed.

Lemma parseChunkInfo_fields (s : IRecordShallow) (c : IChunkInfo) (tail : list byte) :
  chunkInfo_in_range c ->
  field_of (recordHeaderFields s) "ver" = u32le <$> version c ->
  field_of (recordHeaderFields s) "chunk_pos" = Some (u64le (chunkPosition c)) ->
  field_of (recordHeaderFields s) "start_time" = Some (time_bytes (startTime c)) ->
  field_of (recordHeaderFields s) "end_time" = Some (time_bytes (endTime c)) ->
  field_of (recordHeaderFields s) "count" = Some (u32le (count c)) ->
  bytes (recordDataBuffer s)
    = concat (map chunkConnection_bytes (connections c)) ++ tail ->
  _parseChunkInfo s
  = Ok {| chunk_rest := rest s; version := version c;
          chunkPosition := chunkPosition c; startTime := startTime c;
          endTime := endTime c; count := count c; connections := connections c;
          idx := 0; nextChunkPosition := None |}.
Proof.
  intros (Hver & Hpos & Hstart & Hend & Hcount & Hn & Hconns) Fver Fpos Fstart Fend Fcount Hdata.
  unfold _parseChunkInfo.
  apply field_of_Some in Fcount as (bcount & -> & Bcount).
  cbn [defined mbind completion_bind].
  rewrite (readUInt32LE_bytes bcount (count c) [] Hn) by (now rewrite app_nil_r).
  cbn [mbind completion_bind].
  assert (Ever : match recordHeaderFields s !! js "ver" with
                 | Some ver => Some <$> readUInt32LE ver 0
                 | None => Ok None
                 end = Ok (version c)).
  { destruct (version c) as [v |] eqn:Ev; cbn [fmap option_fmap option_map] in Fver.
    - apply field_of_Some in Fver as (bver & -> & Bver).
      rewrite (readUInt32LE_bytes bver v [] (Hver v eq_refl)) by (now rewrite app_nil_r).
      reflexivity.
    - apply field_of_None in Fver. now rewrite Fver. }
  rewrite Ever. cbn [mbind completion_bind].
  apply field_of_Some in Fpos as (bpos & -> & Bpos). cbn [defined mbind completion_bind].
  rewrite (readUInt64LE_u64le bpos (chunkPosition c) [] Hpos) by (now rewrite app_nil_r).
  cbn [mbind completion_bind].
  apply field_of_Some in Fstart as (bstart & -> & Bstart). cbn [defined mbind completion_bind].
  pose proof (extractTime_at bstart [] [] (startTime c) Hstart) as Es.
  change (Z.of_nat (length [])) with 0 in Es. rewrite Es by (now rewrite app_nil_r).
  cbn [mbind completion_bind].
  apply field_of_Some in Fend as (bend & -> & Bend). cbn [defined mbind completion_bind].
  pose proof (extractTime_at bend [] [] (endTime c) Hend) as Ee.
  change (Z.of_nat (length [])) with 0 in Ee. rewrite Ee by (now rewrite app_nil_r).
  cbn [mbind completion_bind].
  pose proof (array_from_items chunkConnection_bytes 8
                (fun buf off => conn ← readUInt32LE buf off;
                                count ← readUInt32LE buf (off + 4);
                                Ok {| cc_conn := conn; cc_count := count |})
                (fun cc => u32 (cc_conn cc) /\ u32 (cc_count cc))
                (recordDataBuffer s) tail (connections c)) as Ha.
  cbn beta in Ha. change (Z.of_nat 8) with 8 in Ha. rewrite <- Hcount in Ha.
  rewrite Ha.
  - reflexivity.
  - reflexivity.
  - intros pre tl x Hx Hb. exact (chunkConnection_at _ pre tl x Hx Hb).
  - exact Hconns.
  - exact Hdata.
Qed.

(** X9. [_parseChunkInfo] reads a chunk-info record back: when the
    header fields hold the version, the chunk position in eight bytes, the
    two times and the count, and the data starts with one pair of numbers
    per connection, the parser returns these values, with index 0 and no
    next position. A record without a version field gives no version. *)
Theorem parseChunkInfo_record (s : IRecordShallow) (c : IChunkInfo) (tail : list byte) :
  chunkInfo_in_range c ->
  field_of (recordHeaderFields s) "ver" = u32le <$> version c ->
  field_of (recordHeaderFields s) "chunk_pos" = Some (u64le (chunkPosition c)) ->
  field_of (recordHeaderFields s) "start_time" = Some (time_bytes (startTime c)) ->
  field_of (recordHeaderFields s) "end_time" = Some (time_bytes (endTime c)) ->
  field_of (recordHeaderFields s) "count" = Some (u32le (count c)) ->
  bytes (recordDataBuffer s)
    = concat (map chunkConnection_bytes (connections c)) ++ tail ->
  _parseChunkInfo s
  = Ok {| chunk_rest := rest s; version := version c;
          chunkPosition := chunkPosition c; startTime := startTime c;
          endTime := endTime c; count := count c; connections := connections c;
          idx := 0; nextChunkPosition := None |}.
Proof. apply parseChunkInfo_fields. Qed.


Lemma indexDataMsg_at (buf : Buffer) (pre tl : list byte) (m : IIndexDataMsg) :
  u32_time (recievedTime m) /\ u32 (msgDataOffset m) ->
  bytes buf = pre ++ indexDataMsg_bytes m ++ tl ->
  (recievedTime ← extractTime buf (Z.of_nat (length pre));
   msgDataOffset ← readUInt32LE buf (Z.of_nat (length pre) + 8);
   Ok {| recievedTime := recievedTime; msgDataOffset := msgDataOffset |}) = Ok m.
Proof.
  intros [H1 H2] Hb. unfold indexDataMsg_bytes in Hb. rewrite <- app_assoc in Hb.
  rewrite (extractTime_at buf pre _ _ H1 Hb). cbn [mbind completion_bind].
  replace (Z.of_nat (length pre) + 8)
    with (Z.of_nat (length (pre ++ time_bytes (recievedTime m))))
    by (rewrite length_app; cbn [length time_bytes u32le app]; lia).
  rewrite (readUInt32LE_at buf (pre ++ time_bytes (recievedTime m)) tl _ H2)
    by (now rewrite <- app_assoc).
  cbn [mbind completion_bind]. now destruct m.
Qed.

Lemma parseIndexDataRecord_fields (s : IRecordShallow) (ver conn : Z)
    (entries : list IIndexDataMsg) (tail : list byte) :
  u32 ver -> u32 conn -> u32 (Z.of_nat (length entries)) ->
  Forall (fun m => u32_time (recievedTime m) /\ u32 (msgDataOffset m)) entries ->
  field_of (recordHeaderFields s) "ver" = Some (u32le ver) ->
  field_of (recordHeaderFields s) "conn" = Some (u32le conn) ->
  field_of (recordHeaderFields s) "count" = Some (u32le (Z.of_nat (length entries))) ->
  bytes (recordDataBuffer s) = concat (map indexDataMsg_bytes entries) ++ tail ->
  _parseIndexDataRecord s
  = Ok {| index_rest := rest s; index_version := ver; index_conn := conn;
          index_count := Z.of_nat (length entries); recievedMsgs := entries |}.
Proof.
  intros Hver Hconn Hn Hentries Fver Fconn Fcount Hdata.
  unfold _parseIndexDataRecord.
  apply field_of_Some in Fcount as (bcount & -> & Bcount).
  cbn [defined mbind completion_bind].
  rewrite (readUInt32LE_bytes bcount _ [] Hn) by (now rewrite app_nil_r).
  cbn [mbind completion_bind].
  apply field_of_Some in Fver as (bver & -> & Bver). cbn [defined mbind completion_bind].
  rewrite (readUInt32LE_bytes bver _ [] Hver) by (now rewrite app_nil_r).
  cbn [mbind completion_bind].
  apply field_of_Some in Fconn as (bconn & -> & Bconn). cbn [defined mbind completion_bind].
  rewrite (readUInt32LE_bytes bconn _ [] Hconn) by (now rewrite app_nil_r).
  cbn [mbind completion_bind].
  pose proof (array_from_items indexDataMsg_bytes 12
                (fun buf off => recievedTime ← extractTime buf off;
                                msgDataOffset ← readUInt32LE buf (off + 8);
                                Ok {| recievedTime := recievedTime;
                                      msgDataOffset := msgDataOffset |})
                (fun m => u32_time (recievedTime m) /\ u32 (msgDataOffset m))
                (recordDataBuffer s) tail entries) as Ha.
  cbn beta in Ha. change (Z.of_nat 12) with 12 in Ha. rewrite Ha.
  - reflexivity.
  - reflexivity.
  - intros pre tl x Hx Hb. exact (indexDataMsg_at _ pre tl x Hx Hb).
  - exact Hentries.
  - exact Hdata.
Qed.

(** X10. [_parseIndexDataRecord] reads an index record back: from the
    fields ver, conn and count and from data that starts with one entry of
    twelve bytes per message (time, then offset) it returns the version,
    the connection, the count and the entries in order. *)
Theorem parseIndexDataRecord_record (s : IRecordShallow) (ver conn : Z)
    (entries : list IIndexDataMsg) (tail : list byte) :
  u32 ver -> u32 conn -> u32 (Z.of_nat (length entries)) ->
  Forall (fun m => u32_time (recievedTime m) /\ u32 (msgDataOffset m)) entries ->
  field_of (recordHeaderFields s) "ver" = Some (u32le ver) ->
  field_of (recordHeaderFields s) "conn" = Some (u32le conn) ->
  field_of (recordHeaderFields s) "count" = Some (u32le (Z.of_nat (length entries))) ->
  bytes (recordDataBuffer s) = concat (map indexDataMsg_bytes entries) ++ tail ->
  _parseIndexDataRecord s
  = Ok {| index_rest := rest s; index_version := ver; index_conn := conn;
          index_count := Z.of_nat (length entries); recievedMsgs := entries |}.
Proof. apply parseIndexDataRecord_fields. Qed.


Lemma extractFields_fields (b : Buffer) (header : list (list byte * list byte)) :
  wf_header header ->
  bytes b = serialize header ->
  Z.of_nat (length (serialize header)) <= K_MAX_LENGTH ->
  exists fields, extractFields b = Ok (Some fields) /\
                 bytes <$> fields = fields_map header.
Proof.
  intros [Hnd Hnames] Hb Hmax. destruct b as [bs beyond]. cbn [bytes] in Hb. subst bs.
  unfold serialize in *.
  pose proof (extractFields_frames (map entry_of header) beyond Hmax
                (plain_entries_of _ Hnames)) as H.
  rewrite read_entries_fields in H by (try assumption; now apply field_names_ascii).
  rewrite (right_id_L ∅ (∪)) in H. unfold field_bytes in H.
  destruct (extractFields _) as [[fields |] | e]; try discriminate.
  injection H as H. now exists fields.
Qed.

Lemma getField_fields_map (fields : IRecordFields) (header : list (list byte * list byte))
    (name : string) :
  bytes <$> fields = fields_map header ->
  getField fields (js name) = text_of <$> fields_map header !! js name.
Proof.
  intros H. unfold getField. rewrite <- H, lookup_fmap.
  now destruct (fields !! js name).
Qed.

Lemma parseConnectionRecord_fields (s : IRecordShallow) (n : Z) (topic : list byte)
    (dataFields : list (list byte * list byte)) :
  u32 n ->
  wf_header dataFields ->
  Z.of_nat (length (serialize dataFields)) <= K_MAX_LENGTH ->
  field_of (recordHeaderFields s) "conn" = Some (u32le n) ->
  field_of (recordHeaderFields s) "topic" = Some topic ->
  bytes (recordDataBuffer s) = serialize dataFields ->
  _parseConnectionRecord s
  = Ok (Some {| conn_rest := rest s; conn := n; topicName := text_of topic;
                messageType := text_of <$> fields_map dataFields !! js "type";
                md5sum := text_of <$> fields_map dataFields !! js "md5sum";
                messageDefinition :=
                  text_of <$> fields_map dataFields !! js "message_definition" |}).
Proof.
  intros Hn Hwf Hmax Fconn Ftopic Hdata. unfold _parseConnectionRecord.
  destruct (extractFields_fields _ _ Hwf Hdata Hmax) as (fields & -> & Hf).
  cbn [mbind completion_bind].
  apply field_of_Some in Fconn as (bconn & -> & Bconn). cbn [defined mbind completion_bind].
  rewrite (readUInt32LE_bytes bconn _ [] Hn) by (now rewrite app_nil_r).
  cbn [mbind completion_bind].
  apply field_of_Some in Ftopic as (btopic & -> & Btopic). cbn [defined mbind completion_bind].
  rewrite !(getField_fields_map fields dataFields) by exact Hf.
  unfold toString, text_of. now rewrite Btopic.
Qed.

(** X11. [_parseConnectionRecord] reads a connection record back: the
    connection number and the topic come from the header fields, the type,
    the md5 sum and the definition from the fields that the data holds
    (fields with distinct names of 7-bit bytes, none of them [__proto__]);
    one that the data does not hold is left undefined. *)
Theorem parseConnectionRecord_record (s : IRecordShallow) (n : Z) (topic : list byte)
    (dataFields : list (list byte * list byte)) :
  u32 n ->
  wf_header dataFields ->
  Z.of_nat (length (serialize dataFields)) <= K_MAX_LENGTH ->
  field_of (recordHeaderFields s) "conn" = Some (u32le n) ->
  field_of (recordHeaderFields s) "topic" = Some topic ->
  bytes (recordDataBuffer s) = serialize dataFields ->
  _parseConnectionRecord s
  = Ok (Some {| conn_rest := rest s; conn := n; topicName := text_of topic;
                messageType := text_of <$> fields_map dataFields !! js "type";
                md5sum := text_of <$> fields_map dataFields !! js "md5sum";
                messageDefinition :=
                  text_of <$> fields_map dataFields !! js "message_definition" |}).
Proof. apply parseConnectionRecord_fields. Qed.


Lemma readHeader_fields (file tail : list byte)
    (header : list (list byte * list byte)) (h : IBagHeaderInfo) :
  wf_header header ->
  take 4096 file = magic_bytes ++ frame (serialize header) ++ tail ->
  (4 <= length tail)%nat ->
  fields_map header !! js "index_pos" = Some (u64le (indexPos h)) ->
  fields_map header !! js "conn_count" = Some (u32le (connCount h)) ->
  fields_map header !! js "chunk_count" = Some (u32le (chunkCount h)) ->
  0 <= indexPos h < 2 ^ 53 ->
  0 <= connCount h < 2 ^ 31 ->
  0 <= chunkCount h < 2 ^ 31 ->
  _readHeader file = Ok h.
Proof.
  intros Hwf Hfile Htail Fpos Fconn Fchunk Hpos Hconn Hchunk.
  assert (Hlen : (length (magic_bytes ++ frame (serialize header) ++ tail) <= 4096)%nat).
  { rewrite <- Hfile, length_take. lia. }
  rewrite !length_app, frame_length in Hlen. change (length magic_bytes) with 13%nat in Hlen.
  unfold _readHeader. unfold HEADER_PADDING. rewrite slice_prefix by lia.
  change (Z.to_nat 4096) with 4096%nat. rewrite Hfile.
  set (hb := Buffer_from _).
  assert (Hread : readInt32LE hb FORMAT_VERSION_OFFSET
                  = Ok (Z.of_nat (length (serialize header)))).
  { exact (read_frame_length magic_bytes (serialize header) tail [] ltac:(lia)). }
  assert (Hverify : _verifyHeader hb = Ok {| valid := true; error := NoError |}).
  { unfold _verifyHeader.
    assert (M : toString (subarray hb 0 (Some FORMAT_VERSION_OFFSET)) = FORMAT_VERSION).
    { apply magic_matches. subst hb. cbn [bytes Buffer_from].
      now rewrite (take_app_length magic_bytes). }
    rewrite M. rewrite bool_decide_eq_true_2 by reflexivity. cbn [negb].
    assert (B : blength hb = 13 + 4 + Z.of_nat (length (serialize header))
                             + Z.of_nat (length tail)).
    { subst hb. unfold blength. cbn [bytes Buffer_from].
      rewrite !length_app, frame_length. change (length magic_bytes) with 13%nat. lia. }
    rewrite B, Hread. unfold FORMAT_VERSION_OFFSET, HEADER_MIN_LEN.
    rewrite (proj2 (Z.ltb_ge _ _)) by lia. cbn [mbind completion_bind].
    rewrite (proj2 (Z.ltb_ge _ _)) by lia. reflexivity. }
  rewrite Hverify. cbn [mbind completion_bind valid negb].
  unfold _parseBagHeader. rewrite Hread. cbn [mbind completion_bind].
  set (hf := subarray hb _ _).
  assert (Hhf : bytes hf = serialize header).
  { subst hf hb. cbn [subarray bytes Buffer_from].
    exact (slice_frame magic_bytes (serialize header) tail). }
  destruct (extractFields_fields hf header Hwf Hhf ltac:(unfold K_MAX_LENGTH; lia))
    as (fields & -> & Hf).
  cbn [mbind completion_bind].
  rewrite <- (field_of_fields_map fields header _ Hf) in Fpos.
  rewrite <- (field_of_fields_map fields header _ Hf) in Fconn.
  rewrite <- (field_of_fields_map fields header _ Hf) in Fchunk.
  apply field_of_Some in Fpos as (bpos & -> & Bpos). cbn [defined mbind completion_bind].
  rewrite (readUInt64LE_u64le bpos _ [] Hpos) by (now rewrite app_nil_r).
  cbn [mbind completion_bind].
  apply field_of_Some in Fconn as (bconn & -> & Bconn). cbn [defined mbind completion_bind].
  pose proof (readInt32LE_u32le [] [] (trailing bconn) (connCount h) Hconn) as Rc.
  cbn [app length] in Rc. rewrite app_nil_r, <- Bconn in Rc.
  change (Z.of_nat 0) with 0 in Rc.
  replace (mkBuffer (bytes bconn) (trailing bconn)) with bconn in Rc by (now destruct bconn).
  rewrite Rc. cbn [mbind completion_bind].
  apply field_of_Some in Fchunk as (bchunk & -> & Bchunk). cbn [defined mbind completion_bind].
  pose proof (readInt32LE_u32le [] [] (trailing bchunk) (chunkCount h) Hchunk) as Rk.
  cbn [app length] in Rk. rewrite app_nil_r, <- Bchunk in Rk.
  change (Z.of_nat 0) with 0 in Rk.
  replace (mkBuffer (bytes bchunk) (trailing bchunk)) with bchunk in Rk by (now destruct bchunk).
  rewrite Rk. cbn [mbind completion_bind]. now destruct h.
Qed.

(** X12. [_readHeader$] reads the bag header back: when the first 4096
    bytes of the file are the magic, the header fields (with distinct
    names of 7-bit bytes, none of them [__proto__]) and four bytes or
    more, the header passes the validation and the three numbers of the
    fields index_pos, conn_count and chunk_count are returned. *)
Theorem readHeader_record (file tail : list byte)
    (header : list (list byte * list byte)) (h : IBagHeaderInfo) :
  wf_header header ->
  take 4096 file = magic_bytes ++ frame (serialize header) ++ tail ->
  (4 <= length tail)%nat ->
  fields_map header !! js "index_pos" = Some (u64le (indexPos h)) ->
  fields_map header !! js "conn_count" = Some (u32le (connCount h)) ->
  fields_map header !! js "chunk_count" = Some (u32le (chunkCount h)) ->
  0 <= indexPos h < 2 ^ 53 ->
  0 <= connCount h < 2 ^ 31 ->
  0 <= chunkCount h < 2 ^ 31 ->
  _readHeader file = Ok h.
Proof. apply readHeader_fields. Qed.


Lemma wf_header_of (header : list (list byte * list byte)) :
  NoDup (map fst header) ->
  forallb (fun f => forallb (fun b => (byteZ b <? 0x80) && negb (Byte.eqb b equalChar)) f.1
                    && negb (bool_decide (f.1 = js_bytes "__proto__")))
          header = true ->
  wf_header header.
Proof.
  intros Hnd Hb. split; [exact Hnd |].
  apply Forall_forall. intros f Hf.
  rewrite forallb_forall in Hb. specialize (Hb f (proj1 (list_elem_of_In _ _) Hf)).
  apply andb_true_iff in Hb as [Hb Hp]. split.
  - apply Forall_forall. intros b Hin.
    rewrite forallb_forall in Hb. specialize (Hb b (proj1 (list_elem_of_In _ _) Hin)).
    apply andb_true_iff in Hb as [H1 H2]. split; [now apply Z.ltb_lt |].
    intros ->. now rewrite (Byte.byte_dec_lb (eq_refl equalChar)) in H2.
  - apply negb_true_iff, bool_decide_eq_false in Hp. exact Hp.
Qed.

Lemma parseChunkInfo_record_witness :
  chunkInfo_in_range parsed_chunk_info /\
  _parseChunkInfo
    (shallow_of chunk_info_header
       (concat (map chunkConnection_bytes (connections parsed_chunk_info)) ++ []))
  = Ok parsed_chunk_info.
Proof.
  assert (H : chunkInfo_in_range parsed_chunk_info).
  { unfold chunkInfo_in_range, u32_time, u32.
    cbn [parsed_chunk_info version chunkPosition startTime endTime count connections
         sec nsec length cc_conn cc_count].
    split; [intros v [= <-]; lia |].
    do 5 (split; [lia |]).
    constructor; [cbn; lia |]. constructor; [cbn; lia | constructor]. }
  split; [exact H |].
  refine (parseChunkInfo_record _ parsed_chunk_info [] H _ _ _ _ _ _); reflexivity.
Defined.

Lemma parseIndexDataRecord_record_witness :
  u32 1 /\ u32 7 /\ u32 (Z.of_nat (length index_entries)) /\
  _parseIndexDataRecord
    (shallow_of index_header (concat (map indexDataMsg_bytes index_entries) ++ []))
  = Ok {| index_rest := mkRecord 0 0 0; index_version := 1; index_conn := 7;
          index_count := 2; recievedMsgs := index_entries |}.
Proof.
  assert (H1 : u32 1) by (unfold u32; lia).
  assert (H2 : u32 7) by (unfold u32; lia).
  assert (H3 : u32 (Z.of_nat (length index_entries))) by (unfold u32; cbn; lia).
  split; [exact H1 | split; [exact H2 | split; [exact H3 |]]].
  refine (parseIndexDataRecord_record _ 1 7 index_entries [] H1 H2 H3 _ _ _ _ _);
    try reflexivity.
  unfold u32_time, u32.
  constructor; [cbn; lia |]. constructor; [cbn; lia | constructor].
Defined.

Lemma parseConnectionRecord_record_witness :
  u32 7 /\ wf_header connection_data /\
  _parseConnectionRecord (shallow_of connection_header (serialize connection_data))
  = Ok (Some {| conn_rest := mkRecord 0 0 0; conn := 7; topicName := js "/t";
                messageType := Some (js "pkg/T"); md5sum := Some (js "*");
                messageDefinition := Some (js "uint8 v") |}).
Proof.
  assert (H1 : u32 7) by (unfold u32; lia).
  assert (H2 : wf_header connection_data).
  { apply wf_header_of; [| reflexivity].
    apply (bool_decide_unpack _). vm_compute. exact I. }
  split; [exact H1 | split; [exact H2 |]].
  refine (parseConnectionRecord_record _ 7 (js_bytes "/t") connection_data H1 H2 _ _ _ _);
    try reflexivity.
  vm_compute. intros E. discriminate E.
Defined.

Lemma readHeader_record_witness :
  wf_header bag_header_fields /\
  take 4096 bag_start = magic_bytes ++ frame (serialize bag_header_fields) ++ frame [] /\
  _readHeader bag_start = Ok {| chunkCount := 3; indexPos := 4117; connCount := 1 |}.
Proof.
  assert (H1 : wf_header bag_header_fields).
  { apply wf_header_of; [| reflexivity].
    apply (bool_decide_unpack _). vm_compute. exact I. }
  assert (H2 : take 4096 bag_start
               = magic_bytes ++ frame (serialize bag_header_fields) ++ frame [])
    by reflexivity.
  split; [exact H1 | split; [exact H2 |]].
  refine (readHeader_record bag_start (frame []) bag_header_fields
            {| chunkCount := 3; indexPos := 4117; connCount := 1 |}
            H1 H2 _ _ _ _ _ _ _); try reflexivity; cbn; lia.
Defined.

End RecordParsers.

(** ** The inspector on a whole header and a whole index (BagInspector) *)

Section Inspector.
Import BagInspector ChunkInfoManager.


(** X13. [_verifyHeader] never throws: on every buffer it returns a
    verdict, valid exactly when the error is empty; and a valid verdict
    means that the buffer starts with the magic, holds the 21 bytes of the
    magic and the two lengths, and holds the header length, read as a
    signed number, on top of them. *)
Theorem verifyHeader_returns (headerBuffer : Buffer) :
  exists v,
    _verifyHeader headerBuffer = Ok v /\
    (valid v = true <-> error v = NoError) /\
    (valid v = true ->
     take 13 (bytes headerBuffer) = magic_bytes /\
     exists headerLength,
       readInt32LE headerBuffer 13 = Ok headerLength /\
       13 + 8 + headerLength <= blength headerBuffer /\
       13 + 8 <= blength headerBuffer).
Proof.
  unfold _verifyHeader.
  destruct (bool_decide (toString (subarray headerBuffer 0 (Some FORMAT_VERSION_OFFSET))
                         = FORMAT_VERSION)) eqn:M; cbn [negb].
  2:{ eexists. split; [reflexivity |]. cbn. split; [split |]; discriminate. }
  apply bool_decide_eq_true_1, magic_matches in M.
  unfold FORMAT_VERSION_OFFSET, HEADER_MIN_LEN.
  destruct (blength headerBuffer <? 13 + 8) eqn:L.
  { eexists. split; [reflexivity |]. cbn. split; [split |]; discriminate. }
  apply Z.ltb_ge in L.
  unfold readInt32LE at 1. rewrite readUInt32LE_ok by lia.
  cbn [fmap completion_fmap mbind completion_bind].
  set (headerLength := to_signed 32 _).
  assert (R : readInt32LE headerBuffer 13 = Ok headerLength).
  { unfold readInt32LE. rewrite readUInt32LE_ok by lia. reflexivity. }
  destruct (blength headerBuffer <? 13 + 8 + headerLength) eqn:T.
  { eexists. split; [reflexivity |]. cbn. split; [split |]; discriminate. }
  apply Z.ltb_ge in T.
  eexists. split; [reflexivity |]. cbn [valid error]. split; [split; reflexivity |].
  intros _. split; [exact M |]. exists headerLength. repeat split; assumption.
Qed.

Lemma retrieveRecords_loop_length {T} (recordParser : IRecordShallow -> completion T)
    (n : nat) :
  forall (buffer : Buffer) (startingOffset bufferOffset : Z) (records : list T),
  retrieveRecords_loop n buffer startingOffset bufferOffset recordParser = Ok records ->
  length records = n.
Proof.
  induction n as [| n IH]; intros buffer startingOffset bufferOffset records;
    cbn [retrieveRecords_loop].
  - now intros [= <-].
  - destruct (shallowRecordRead _ _) as [[s |] | e]; cbn [mbind completion_bind defined];
      try discriminate.
    destruct (recordParser s) as [p | e]; cbn [mbind completion_bind]; [| discriminate].
    destruct (retrieveRecords_loop n _ _ _ _) as [r | e] eqn:E;
      cbn [mbind completion_bind]; [| discriminate].
    intros [= <-]. cbn [length]. f_equal. exact (IH _ _ _ _ E).
Qed.

Lemma linkSortIndex_length (chunksInfo : list IChunkInfo) (fileSize : Z) :
  length (linkSortIndex chunksInfo fileSize) = length chunksInfo.
Proof.
  unfold linkSortIndex. rewrite length_imap.
  rewrite (Permutation_length (js_sort_perm _ _)). apply length_imap.
Qed.

Lemma extractFileMetadata_inv (file : list byte) (bagHeaderInfo : IBagHeaderInfo)
    (md : IBagMetadata) :
  _extractFileMetadata file bagHeaderInfo = Ok md ->
  exists (raw : list IChunkInfo) (first last : IChunkInfo),
    length raw = Z.to_nat (chunkCount bagHeaderInfo) /\
    (0 < Z.to_nat (connCount bagHeaderInfo))%nat /\
    chunksInfo md = linkSortIndex raw (Z.of_nat (length file)) /\
    chunksInfo md !! 0%nat = Some first /\
    chunksInfo md !! (length (chunksInfo md) - 1)%nat = Some last /\
    md_startTime md = startTime first /\
    md_endTime md = endTime last.
Proof.
  unfold _extractFileMetadata.
  destruct (retrieveRecordsFromBuffer _ (connCount bagHeaderInfo) _ _parseConnectionRecord)
    as [conns | e] eqn:Ec; cbn [mbind completion_bind]; [| discriminate].
  destruct (mapM _ conns) as [entries | e]; cbn [mbind completion_bind]; [| discriminate].
  destruct (mjoin (conns !! Z.to_nat (connCount bagHeaderInfo - 1))) as [lastConnection |] eqn:El;
    cbn [defined mbind completion_bind]; [| discriminate].
  destruct (retrieveRecordsFromBuffer _ (chunkCount bagHeaderInfo) _ _parseChunkInfo)
    as [raw | e] eqn:Er; cbn [mbind completion_bind]; [| discriminate].
  set (out := linkSortIndex raw _).
  destruct (out !! 0%nat) as [first |] eqn:Ef;
    cbn [defined mbind completion_bind]; [| discriminate].
  destruct (out !! (length out - 1)%nat) as [last |] eqn:Ela;
    cbn [defined mbind completion_bind]; [| discriminate].
  intros [= E]. subst md. cbn [chunksInfo md_startTime md_endTime].
  exists raw, first, last. repeat split; try assumption.
  - exact (retrieveRecords_loop_length _ _ _ _ _ _ Er).
  - apply retrieveRecords_loop_length in Ec.
    destruct (conns !! Z.to_nat (connCount bagHeaderInfo - 1)) as [c |] eqn:E;
      [| discriminate].
    apply lookup_lt_Some in E. lia.
Qed.

Lemma linkSortIndex_lookup (raw : list IChunkInfo) (fileSize : Z) (i : nat) (c : IChunkInfo) :
  linkSortIndex raw fileSize !! i = Some c ->
  idx c = Z.of_nat i /\ is_Some (nextChunkPosition c).
Proof.
  unfold linkSortIndex. rewrite list_lookup_imap.
  set (linked := imap _ raw).
  destruct (js_sort _ linked !! i) as [c' |] eqn:E; [| discriminate].
  cbn [fmap option_fmap option_map]. intros [= <-]. split; [reflexivity |].
  cbn [with_idx nextChunkPosition].
  apply list_elem_of_lookup_2 in E.
  rewrite (js_sort_perm _ linked) in E. subst linked.
  apply list_elem_of_lookup in E as (k & E). rewrite list_lookup_imap in E.
  destruct (raw !! k) as [c0 |]; [| discriminate].
  cbn [fmap option_fmap option_map] in E. injection E as <-.
  cbn [with_nextChunkPosition nextChunkPosition]. eauto.
Qed.

Lemma linkSortIndex_sorted (raw : list IChunkInfo) (fileSize : Z) :
  StronglySorted (cmp_le by_startTime) (linkSortIndex raw fileSize).
Proof.
  unfold linkSortIndex. apply StronglySorted_imap.
  - intros i j x y H. exact H.
  - apply (js_sort_sorted by_startTime).
    + intros x y. apply compareTime_total.
    + intros x y z. apply compareTime_trans.
Qed.

(** X14. What every metadata that [_extractFileMetadata$] emits
    satisfies: there was a connection and a chunk at least; there are as
    many chunk infos as the header counted; they are sorted by start time;
    each one carries its position in the array as [idx] and a next
    position; the start time of the bag is the start time of the first
    chunk, which none precedes; the end time of the bag is the end time of
    the chunk that comes last in that order. *)
Theorem extractFileMetadata_invariants (file : list byte) (bagHeaderInfo : IBagHeaderInfo)
    (md : IBagMetadata) :
  _extractFileMetadata file bagHeaderInfo = Ok md ->
  0 < connCount bagHeaderInfo /\
  0 < chunkCount bagHeaderInfo /\
  length (chunksInfo md) = Z.to_nat (chunkCount bagHeaderInfo) /\
  StronglySorted (fun a b => compareTime (startTime a) (startTime b) <= 0) (chunksInfo md) /\
  (forall (i : nat) (c : IChunkInfo), chunksInfo md !! i = Some c ->
     idx c = Z.of_nat i /\
     is_Some (nextChunkPosition c) /\
     compareTime (md_startTime md) (startTime c) <= 0) /\
  (exists c, last (chunksInfo md) = Some c /\ md_endTime md = endTime c).
Proof.
  intros H.
  destruct (extractFileMetadata_inv _ _ _ H)
    as (raw & first & last & Hlen & Hconn & Hmd & Hfirst & Hlast & Hstart & Hend).
  pose proof (linkSortIndex_length raw (Z.of_nat (length file))) as Hl.
  rewrite <- Hmd in Hl.
  assert (Hpos : (0 < length (chunksInfo md))%nat) by (apply lookup_lt_Some in Hfirst; lia).
  pose proof (linkSortIndex_sorted raw (Z.of_nat (length file))) as Hs.
  rewrite <- Hmd in Hs.
  split; [lia |]. split; [lia |]. split; [lia |]. split; [exact Hs |]. split.
  - intros i c Hc. rewrite Hmd in Hc.
    destruct (linkSortIndex_lookup _ _ _ _ Hc) as [Hi Hn].
    split; [exact Hi | split; [exact Hn |]]. rewrite <- Hmd in Hc. rewrite Hstart.
    destruct i as [| i].
    + rewrite Hfirst in Hc. injection Hc as <-. rewrite compareTime_refl. lia.
    + destruct (chunksInfo md) as [| c0 rest] eqn:E; [discriminate |].
      cbn in Hfirst. injection Hfirst as ->. cbn in Hc.
      apply StronglySorted_inv in Hs as [_ Hall].
      rewrite Forall_forall in Hall.
      exact (Hall c (list_elem_of_lookup_2 _ _ _ Hc)).
  - exists last. split; [| exact Hend].
    rewrite last_lookup, <- Nat.sub_1_r. exact Hlast.
Qed.

Lemma extractFileMetadata_invariants_witness :
  exists md,
    _extractFileMetadata index_file index_file_header = Ok md /\
    length (chunksInfo md) = Z.to_nat (chunkCount index_file_header) /\
    StronglySorted (fun a b => compareTime (startTime a) (startTime b) <= 0) (chunksInfo md).
Proof.
  destruct (_extractFileMetadata index_file index_file_header) as [md | e] eqn:E.
  - exists md. split; [reflexivity |].
    pose proof (extractFileMetadata_invariants _ _ _ E) as (_ & _ & H1 & H2 & _).
    split; [exact H1 | exact H2].
  - exfalso. vm_compute in E. discriminate E.
Defined.

(** X15. A bag whose header counts no connection makes
    [_extractFileMetadata$] throw a TypeError, and one whose header counts
    no chunk makes it throw: no metadata is emitted for either. *)
Theorem extractFileMetadata_empty (file : list byte) (bagHeaderInfo : IBagHeaderInfo) :
  (connCount bagHeaderInfo <= 0 ->
   _extractFileMetadata file bagHeaderInfo = Throw TypeError) /\
  (chunkCount bagHeaderInfo <= 0 ->
   exists e, _extractFileMetadata file bagHeaderInfo = Throw e).
Proof.
  split.
  - intros Hc. unfold _extractFileMetadata, retrieveRecordsFromBuffer.
    replace (Z.to_nat (connCount bagHeaderInfo)) with 0%nat by lia.
    cbn [retrieveRecords_loop mbind completion_bind]. reflexivity.
  - intros Hc. destruct (_extractFileMetadata file bagHeaderInfo) as [md | e] eqn:E;
      [| now exists e].
    apply extractFileMetadata_inv in E
      as (raw & first & last & Hlen & _ & Hmd & Hfirst & _).
    apply lookup_lt_Some in Hfirst. rewrite Hmd, linkSortIndex_length in Hfirst. lia.
Qed.

Lemma extractFileMetadata_empty_witness :
  connCount {| chunkCount := 2; indexPos := 5; connCount := 0 |} <= 0 /\
  _extractFileMetadata index_file {| chunkCount := 2; indexPos := 5; connCount := 0 |}
  = Throw TypeError.
Proof.
  assert (H : connCount {| chunkCount := 2; indexPos := 5; connCount := 0 |} <= 0)
    by (cbn; lia).
  split; [exact H |].
  exact (proj1 (extractFileMetadata_empty index_file _) H).
Defined.

End Inspector.

(** ** The schema compiler (helper-functions.ts) *)

Section SchemaCompiler.
Import Schema SchemaSections.


Lemma split_nonempty (sep : Z) (s : jsstring) : split sep s <> [].
Proof.
  destruct s as [| c r]; cbn [split]; [discriminate |].
  destruct (c =? sep); [discriminate |].
  destruct (split sep r); discriminate.
Qed.

Lemma split_app (sep : Z) (a b : jsstring) :
  split sep (a ++ sep :: b) = split sep a ++ split sep b.
Proof.
  induction a as [| c r IH]; cbn [app split].
  - now rewrite Z.eqb_refl.
  - destruct (c =? sep); [now rewrite IH |].
    rewrite IH. pose proof (split_nonempty sep r) as Hne.
    destruct (split sep r) as [| h t]; [contradiction | reflexivity].
Qed.

Lemma split_one (sep : Z) (s : jsstring) : sep ∉ s -> split sep s = [s].
Proof.
  induction s as [| c r IH]; intros Hs; [reflexivity |].
  apply not_elem_of_cons in Hs as [Hc Hr]. cbn [split].
  destruct (Z.eqb_spec c sep) as [-> | _]; [contradiction |].
  now rewrite (IH Hr).
Qed.

(** X16. A line that, once trimmed, is empty or starts with '#' or with
    "==" has no effect on the schema, wherever it stands: between two
    lines, first or last. *)
Theorem parseMsgDefinition_skips_line (before line after : jsstring) :
  10 ∉ line ->
  retained (trim line) = false ->
  parseMsgDefinition (before ++ 10 :: line ++ 10 :: after)
    = parseMsgDefinition (before ++ 10 :: after) /\
  parseMsgDefinition (line ++ 10 :: after) = parseMsgDefinition after /\
  parseMsgDefinition (before ++ 10 :: line) = parseMsgDefinition before.
Proof.
  intros Hline Hdrop. unfold parseMsgDefinition.
  rewrite !split_app, (split_one 10 line Hline).
  rewrite !map_app, !List.filter_app. cbn [map List.filter]. rewrite Hdrop.
  rewrite !app_nil_r. cbn [app]. repeat split; reflexivity.
Qed.

Lemma parseMsgDefinition_filteredLines (msgDef : jsstring) :
  parseMsgDefinition msgDef
  = st ← scan_lines {| scan_topLevelKeys := []; scan_MSGSTypes := [];
                       currentMSG := {| key := []; keyType := []; isArray := false;
                                        nestedKeys := []; constantValue := None;
                                        arrayLength := None |} |}
                    (filteredLines msgDef);
    Ok {| topLevelKeys := scan_topLevelKeys st; MSGSTypes := scan_MSGSTypes st |}.
Proof. reflexivity. Qed.

Lemma scan_line_format (is_last : bool) (st : scan) (line : jsstring) :
  scan_line is_last st line = scan_format is_last st <$> parseLine line.
Proof.
  unfold scan_line, scan_format.
  destruct (parseLine line) as [f | e]; cbn [mbind completion_bind fmap completion_fmap];
    [| reflexivity].
  destruct (bool_decide (keyType f = js "msg:")); [reflexivity |].
  destruct (has_key (currentMSG st)); reflexivity.
Qed.

Lemma scan_lines_formats (lines : list jsstring) :
  forall (st : scan),
  scan_lines st lines = scan_formats st <$> mapM parseLine lines.
Proof.
  induction lines as [| line rest IH]; intros st; [reflexivity |].
  cbn [scan_lines mapM]. rewrite scan_line_format.
  destruct (parseLine line) as [f | e]; cbn [mbind completion_bind fmap completion_fmap];
    [| reflexivity].
  rewrite IH.
  assert (Hlast : forall fs, mapM parseLine rest = Ok fs ->
                    match rest with [] => true | _ :: _ => false end
                    = match fs with [] => true | _ :: _ => false end).
  { intros fs. destruct rest as [| l r]; cbn [mapM].
    - now intros [= <-].
    - destruct (parseLine l); cbn [mbind completion_bind]; [| discriminate].
      destruct (mapM parseLine r); cbn [mbind completion_bind]; [| discriminate].
      now intros [= <-]. }
  destruct (mapM parseLine rest) as [fs | e];
    cbn [mbind completion_bind fmap completion_fmap mret completion_ret]; [| reflexivity].
  cbn [scan_formats]. now rewrite (Hlast fs eq_refl).
Qed.

Lemma scan_formats_top (top more : list IMsgFormat) :
  forall st : scan,
  has_key (currentMSG st) = false ->
  Forall (fun f => is_msg f = false) top ->
  scan_formats st (top ++ more)
  = scan_formats {| scan_topLevelKeys := scan_topLevelKeys st ++ top;
                    scan_MSGSTypes := scan_MSGSTypes st;
                    currentMSG := currentMSG st |} more.
Proof.
  induction top as [| f r IH]; intros st Hk Htop.
  - cbn [app]. rewrite app_nil_r. now destruct st.
  - inversion Htop as [| ? ? Hf Hr]; subst. cbn [app scan_formats].
    unfold scan_format at 1. unfold is_msg in Hf. rewrite Hf, Hk.
    rewrite IH by assumption. cbn [scan_topLevelKeys scan_MSGSTypes currentMSG].
    now rewrite <- app_assoc.
Qed.

Lemma has_key_push (m f : IMsgFormat) : has_key (push_nestedKey m f) = has_key m.
Proof. reflexivity. Qed.

Lemma has_key_pushes (fs : list IMsgFormat) :
  forall m, has_key (foldl push_nestedKey m fs) = has_key m.
Proof. induction fs as [| f r IH]; intros m; [reflexivity |]. cbn [foldl]. now rewrite IH. Qed.

Lemma scan_formats_pushes (fs more : list IMsgFormat) :
  forall st : scan,
  has_key (currentMSG st) = true ->
  Forall (fun f => is_msg f = false) fs ->
  scan_formats st (fs ++ more)
  = match more, fs with
    | [], [] => st
    | [], _ :: _ => finalize (with_current st (foldl push_nestedKey (currentMSG st) fs))
    | _ :: _, _ =>
      scan_formats (with_current st (foldl push_nestedKey (currentMSG st) fs)) more
    end.
Proof.
  induction fs as [| f r IH]; intros st Hk Hfs.
  - cbn [app foldl]. destruct more; [reflexivity |]. now destruct st.
  - inversion Hfs as [| ? ? Hf Hr]; subst. cbn [app scan_formats foldl].
    unfold scan_format at 1. unfold is_msg in Hf. rewrite Hf, Hk.
    destruct r as [| z r'].
    + destruct more as [| y more']; reflexivity.
    + change (match (z :: r') ++ more with [] => true | _ :: _ => false end) with false.
      cbn iota. rewrite IH by assumption.
      cbn [currentMSG with_current scan_topLevelKeys scan_MSGSTypes].
      destruct more as [| y more']; reflexivity.
Qed.

Lemma registered_cons (s : IMsgFormat * list IMsgFormat)
    (rest : list (IMsgFormat * list IMsgFormat)) :
  rest <> [] -> registered (s :: rest) = s :: registered rest.
Proof.
  intros Hne. unfold registered. destruct rest as [| s' rest]; [contradiction |].
  change (last (s :: s' :: rest)) with (last (s' :: rest)).
  destruct (last (s' :: rest)) as [[h [| f fs]] |]; reflexivity.
Qed.

Lemma finalize_with_current (st : scan) (h : IMsgFormat) (fs : list IMsgFormat) :
  scan_MSGSTypes (finalize (with_current st (foldl push_nestedKey h fs)))
  = Map_set (scan_MSGSTypes st) (type_of_section (h, fs)).1 (type_of_section (h, fs)).2.
Proof.
  unfold finalize, with_current, type_of_section, type_name, with_keyType.
  cbn [currentMSG scan_MSGSTypes fst snd].
  assert (E : forall m, foldl push_nestedKey m fs
                        = {| key := key m; keyType := keyType m; isArray := isArray m;
                             nestedKeys := nestedKeys m ++ fs;
                             constantValue := constantValue m;
                             arrayLength := arrayLength m |}).
  { induction fs as [| f r IH]; intros m; cbn [foldl].
    - rewrite app_nil_r. now destruct m.
    - rewrite IH. unfold push_nestedKey. cbn. now rewrite <- app_assoc. }
  rewrite E. reflexivity.
Qed.

Lemma scan_formats_sections (sections : list (IMsgFormat * list IMsgFormat)) :
  forall st : scan,
  Forall wf_section sections ->
  sections <> [] ->
  scan_topLevelKeys (scan_formats st (concat (map section_lines sections)))
  = scan_topLevelKeys st /\
  scan_MSGSTypes (scan_formats st (concat (map section_lines sections)))
  = foldl (fun m e => Map_set m e.1 e.2) (scan_MSGSTypes (close st))
          (map type_of_section (registered sections)).
Proof.
  induction sections as [| [h fs] rest IH]; intros st Hwf Hne; [contradiction |].
  inversion Hwf as [| ? ? (Hmsg & Hkey & Hfs) Hrest]; subst. cbn [fst snd] in *.
  cbn [map concat section_lines fst snd app scan_formats].
  assert (Hstep : forall b, scan_format b st h = with_current (close st) h).
  { intros b. unfold scan_format, close, with_current. unfold is_msg in Hmsg.
    rewrite Hmsg. reflexivity. }
  assert (Htop : scan_topLevelKeys (close st) = scan_topLevelKeys st).
  { unfold close. destruct (has_key (currentMSG st)); reflexivity. }
  rewrite Hstep.
  rewrite scan_formats_pushes by (cbn [currentMSG with_current]; assumption).
  cbn [currentMSG with_current scan_topLevelKeys scan_MSGSTypes].
  destruct rest as [| s' rest'].
  - cbn [map concat]. destruct fs as [| f fs'].
    + cbn [registered last removelast map foldl scan_topLevelKeys scan_MSGSTypes
           with_current]. unfold registered. cbn. split; [exact Htop | reflexivity].
    + change (foldl push_nestedKey h (f :: fs')) with (foldl push_nestedKey h (f :: fs')).
      split; [exact Htop |].
      pose proof (finalize_with_current (close st) h (f :: fs')) as Hf.
      unfold with_current in Hf. cbn [scan_topLevelKeys scan_MSGSTypes] in Hf.
      unfold registered. cbn [last map foldl]. exact Hf.
  - assert (Hmore : forall a b (l : list IMsgFormat),
                      l <> [] ->
                      match l, fs with
                      | [], [] => a
                      | [], _ :: _ => b
                      | _ :: _, _ =>
                        scan_formats
                          {| scan_topLevelKeys := scan_topLevelKeys (close st);
                             scan_MSGSTypes := scan_MSGSTypes (close st);
                             currentMSG := foldl push_nestedKey h fs |} l
                      end
                      = scan_formats
                          {| scan_topLevelKeys := scan_topLevelKeys (close st);
                             scan_MSGSTypes := scan_MSGSTypes (close st);
                             currentMSG := foldl push_nestedKey h fs |} l).
    { intros a b [| x l] Hl; [contradiction | reflexivity]. }
    unfold with_current. cbn [scan_topLevelKeys scan_MSGSTypes].
    rewrite Hmore by (cbn [map concat section_lines app]; discriminate).
    set (st2 := {| scan_topLevelKeys := scan_topLevelKeys (close st);
                   scan_MSGSTypes := scan_MSGSTypes (close st);
                   currentMSG := foldl push_nestedKey h fs |}).
    destruct (IH st2 Hrest ltac:(discriminate)) as [IH1 IH2].
    rewrite IH1, IH2. split; [exact Htop |].
    rewrite (registered_cons (h, fs) (s' :: rest')) by discriminate. cbn [map foldl].
    f_equal. unfold close at 1. subst st2. cbn [currentMSG].
    rewrite has_key_pushes, Hkey.
    exact (finalize_with_current (close st) h fs).
Qed.

(** X17. How a definition is divided: the lines before the first [MSG:]
    line are the top-level keys, in order; every [MSG:] line opens a
    section, and a section becomes a type under the last segment of its
    name in lower case, its lines being the nested keys; a later section
    of the same name replaces the earlier one in place; a last section
    without lines is not registered. *)
Theorem parseMsgDefinition_sections (msgDef : jsstring) (top : list IMsgFormat)
    (sections : list (IMsgFormat * list IMsgFormat)) :
  mapM parseLine (filteredLines msgDef)
    = Ok (top ++ concat (map section_lines sections)) ->
  Forall (fun f => is_msg f = false) top ->
  Forall wf_section sections ->
  parseMsgDefinition msgDef
  = Ok {| topLevelKeys := top;
          MSGSTypes := Map_of (map type_of_section (registered sections)) |}.
Proof.
  intros Hparse Htop Hsec.
  rewrite parseMsgDefinition_filteredLines, scan_lines_formats, Hparse.
  cbn [fmap completion_fmap mbind completion_bind].
  rewrite scan_formats_top by (try reflexivity; assumption).
  cbn [scan_topLevelKeys scan_MSGSTypes currentMSG app].
  destruct sections as [| s rest].
  - reflexivity.
  - set (st := {| scan_topLevelKeys := top; scan_MSGSTypes := []; currentMSG := _ |}).
    destruct (scan_formats_sections (s :: rest) st Hsec ltac:(discriminate)) as [H1 H2].
    rewrite H1, H2. reflexivity.
Qed.

Lemma parseMsgDefinition_sections_witness :
  let top := [scalar_field "h" "header" None; scalar_field "v" "uint8" None] in
  let sections := [(scalar_field "std_msgs/Header" "msg:" None,
                    [scalar_field "seq" "uint32" None; scalar_field "stamp" "time" None])] in
  mapM parseLine (filteredLines nested_definition)
    = Ok (top ++ concat (map section_lines sections)) /\
  parseMsgDefinition nested_definition
  = Ok {| topLevelKeys := top;
          MSGSTypes := Map_of (map type_of_section (registered sections)) |}.
Proof.
  intros top sections.
  assert (H1 : mapM parseLine (filteredLines nested_definition)
               = Ok (top ++ concat (map section_lines sections))) by reflexivity.
  split; [exact H1 |].
  refine (parseMsgDefinition_sections nested_definition top sections H1 _ _).
  - repeat constructor.
  - constructor; [| constructor]. repeat split. repeat constructor.
Defined.

Lemma parseLine_throws (line : jsstring) :
  match parseLine line with
  | Ok _ => ~ lacks_key line
  | Throw e => e = TypeError /\ lacks_key line
  end.
Proof.
  unfold parseLine, lacks_key.
  destruct (split_spaces (trim line)) as [| keyType [| key rest]].
  - split; [reflexivity | cbn; lia].
  - split; [reflexivity | cbn; lia].
  - destruct (if includes key 61 then _ else _) as [k c].
    destruct (match arrayRegex keyType with Some _ => _ | None => _ end) as [[a t] n].
    cbn [length]. lia.
Qed.

Lemma mapM_parseLine_throws (lines : list jsstring) :
  match mapM parseLine lines with
  | Ok _ => Forall (fun line => ~ lacks_key line) lines
  | Throw e => e = TypeError /\ Exists lacks_key lines
  end.
Proof.
  induction lines as [| line rest IH]; cbn [mapM]; [constructor |].
  pose proof (parseLine_throws line) as Hl.
  destruct (parseLine line) as [f | e]; cbn [mbind completion_bind].
  - destruct (mapM parseLine rest) as [fs | e]; cbn [mbind completion_bind].
    + now constructor.
    + destruct IH as [-> IH]. split; [reflexivity | now right].
  - destruct Hl as [-> Hl]. split; [reflexivity | now left].
Qed.

(** X18. [parseMsgDefinition] throws on exactly the definitions that have
    a retained line of fewer than two tokens (a type without a name), and
    what it throws is a TypeError. *)
Theorem parseMsgDefinition_throws (msgDef : jsstring) :
  match parseMsgDefinition msgDef with
  | Ok _ => Forall (fun line => ~ lacks_key line) (filteredLines msgDef)
  | Throw e => e = TypeError /\ Exists lacks_key (filteredLines msgDef)
  end.
Proof.
  rewrite parseMsgDefinition_filteredLines, scan_lines_formats.
  pose proof (mapM_parseLine_throws (filteredLines msgDef)) as H.
  destruct (mapM parseLine (filteredLines msgDef)) as [fs | e];
    cbn [fmap completion_fmap mbind completion_bind]; exact H.
Qed.

Lemma parseMsgDefinition_skips_line_witness :
  (10 ∉ js "# a comment") /\
  retained (trim (js "# a comment")) = false /\
  parseMsgDefinition (js "uint8 a" ++ 10 :: js "# a comment" ++ 10 :: js "uint8 b")
  = parseMsgDefinition (js "uint8 a" ++ 10 :: js "uint8 b").
Proof.
  assert (H1 : 10 ∉ js "# a comment").
  { apply (bool_decide_unpack _). vm_compute. exact I. }
  assert (H2 : retained (trim (js "# a comment")) = false) by reflexivity.
  split; [exact H1 | split; [exact H2 |]].
  exact (proj1 (parseMsgDefinition_skips_line (js "uint8 a") _ (js "uint8 b") H1 H2)).
Defined.

End SchemaCompiler.

(** ** The primitive readers and arrays (message-reader.ts) *)

Section Primitives.
Import Schema MessageReader.


Lemma get8_advances (signed : bool) (s s' : DecState) (v : Z) :
  get8 signed s = (s', Ok v) -> s' = advanced s 1.
Proof.
  unfold get8, view_get, mbind, SE_bind, get_offset, advance, get_view, lift, advanced.
  cbn [fst reader this offset buffer view].
  destruct (le_unsigned <$> read_bytes _ _ 1) as [x | e]; [| discriminate].
  cbn. now intros [= <- _].
Qed.

Lemma getLE_advances (n : nat) (signed : bool) (s s' : DecState) (v : Z) :
  getLE n signed s = (s', Ok v) -> s' = advanced s (Z.of_nat n).
Proof.
  unfold getLE, view_get, mbind, SE_bind, get_offset, advance, get_view, lift, advanced.
  cbn [fst reader this offset buffer view].
  destruct (le_unsigned <$> read_bytes _ _ n) as [x | e]; [| discriminate].
  cbn. now intros [= <- _].
Qed.

(** X19. A primitive reader that returns has moved the cursor by the
    size of its type, and has changed nothing else: one byte for bool,
    int8, uint8, byte and char, two for the 16-bit integers, four for the
    32-bit integers and float32, eight for float64, the 64-bit integers,
    time and duration, none for json. *)
Theorem parsingMethods_advances (m : StdType) (n : Z) (s s' : DecState) (v : JSValue) :
  stdType_size m = Some n ->
  parsingMethods m s = (s', Ok v) ->
  s' = advanced s n.
Proof.
  destruct m; cbn [stdType_size]; intros [= <-]; cbn [parsingMethods];
    unfold fmap, SE_fmap, mbind, SE_bind, mret, SE_ret.
  all: try (destruct (get8 _ s) as [s1 [x | e]] eqn:E; [| discriminate];
            apply get8_advances in E; now intros [= <- _]).
  all: try (destruct (getLE _ _ s) as [s1 [x | e]] eqn:E; [| discriminate];
            apply getLE_advances in E; now intros [= <- _]).
  all: try (unfold get_buffer, get_offset, lift, advance, advanced;
            cbn [fst reader this offset buffer];
            match goal with
            | |- context [Int53.readInt64LE ?b ?o] => destruct (Int53.readInt64LE b o)
            | |- context [Int53.readUInt64LE ?b ?o] => destruct (Int53.readUInt64LE b o)
            | |- context [extractTime ?b ?o] => destruct (extractTime b o)
            end; [| discriminate]; now intros [= <- _]).
  intros [= <- _]. unfold advanced, advance. cbn. destruct s as [[b o] t]. cbn.
  now rewrite Z.add_0_r.
Qed.

Lemma parsingMethods_advances_witness :
  stdType_size t_uint16 = Some 2 /\
  parsingMethods t_uint16 (decoding [1; 2; 3] 0) = (decoding [1; 2; 3] 2, Ok (VNumber 513)) /\
  decoding [1; 2; 3] 2 = advanced (decoding [1; 2; 3] 0) 2.
Proof.
  assert (H1 : stdType_size t_uint16 = Some 2) by reflexivity.
  assert (H2 : parsingMethods t_uint16 (decoding [1; 2; 3] 0)
               = (decoding [1; 2; 3] 2, Ok (VNumber 513))) by reflexivity.
  split; [exact H1 | split; [exact H2 |]].
  exact (parsingMethods_advances t_uint16 2 _ _ _ H1 H2).
Defined.

(** X20. The readers that go through the DataView are bounded by the
    ArrayBuffer, not by the buffer of the message: with the cursor at the
    end of the message or beyond it, uint32 returns bytes that follow the
    message in the ArrayBuffer, where the readers that go through the
    buffer (time, uint64, string) throw a RangeError. *)
Theorem view_readers_reach_past_buffer (s : DecState) :
  0 <= offset (reader s) ->
  blength (buffer (reader s)) <= offset (reader s) ->
  offset (reader s) + 4 <= Z.of_nat (length (view (reader s))) ->
  parsingMethods t_uint32 s
  = (advanced s 4,
     Ok (VNumber (le_unsigned
                    (take 4 (drop (Z.to_nat (offset (reader s)) - length (bytes (buffer (reader s))))
                                  (trailing (buffer (reader s)))))))) /\
  (parsingMethods t_time s).2 = Throw RangeError /\
  (parsingMethods t_uint64 s).2 = Throw RangeError /\
  (parsingMethods t_string s).2 = Throw RangeError.
Proof.
  intros H0 Hend Hview.
  assert (Hr : forall off, offset (reader s) <= off ->
                 readUInt32LE (buffer (reader s)) off = Throw RangeError).
  { intros off Hoff. unfold readUInt32LE, read_bytes. unfold blength in Hend.
    destruct (0 <=? off); cbn [andb]; [| reflexivity].
    rewrite (proj2 (Z.leb_gt _ _)) by lia. reflexivity. }
  repeat split.
  - cbn [parsingMethods]. unfold fmap, SE_fmap, getLE, view_get, mbind, SE_bind,
      get_offset, get_view, lift, advance, advanced, mret, SE_ret.
    cbn [fst reader this offset buffer view].
    rewrite read_bytes_ok by lia.
    cbn [fmap completion_fmap]. unfold view. do 4 f_equal.
    unfold blength in Hend. rewrite drop_app_ge by lia. reflexivity.
  - cbn [parsingMethods]. unfold mbind, SE_bind, get_buffer, get_offset, lift, extractTime.
    cbn [fst snd]. rewrite !Hr by lia. reflexivity.
  - cbn [parsingMethods]. unfold mbind, SE_bind, get_buffer, get_offset, lift,
      Int53.readUInt64LE.
    cbn [fst snd]. rewrite !Hr by lia. reflexivity.
  - cbn [parsingMethods]. unfold mbind, SE_bind, get_buffer, get_offset, lift, readInt32LE.
    cbn [fst snd]. rewrite !Hr by lia. reflexivity.
Qed.

(** X21. The string reader reads a string back: on a length in four
    little-endian bytes followed by that many bytes it returns these
    bytes, each masked to seven bits, and moves the cursor behind them. *)
Theorem string_reader_round_trip (s : DecState) (pre str tail : list byte) :
  bytes (buffer (reader s)) = pre ++ u32le (Z.of_nat (length str)) ++ str ++ tail ->
  offset (reader s) = Z.of_nat (length pre) ->
  Z.of_nat (length str) < 2 ^ 31 ->
  parsingMethods t_string s
  = (advanced s (4 + Z.of_nat (length str)),
     Ok (VString (map (fun c => Z.land (byteZ c) 0x7F) str))).
Proof.
  intros Hb Hoff Hlen.
  assert (Hread : readInt32LE (buffer (reader s)) (offset (reader s))
                  = Ok (Z.of_nat (length str))).
  { rewrite Hoff. destruct (buffer (reader s)) as [bs beyond]. cbn [bytes] in Hb. subst bs.
    apply readInt32LE_u32le. lia. }
  cbn [parsingMethods].
  unfold mbind, SE_bind, get_buffer, get_offset, lift, advance, mret, SE_ret.
  cbn [fst reader this offset buffer]. rewrite Hread. cbn [reader offset buffer this].
  unfold advanced, advance. cbn [fst reader this offset buffer].
  f_equal; [now rewrite Z.add_assoc |]. do 2 f_equal.
  unfold toString_ascii, blength. rewrite Hb, Hoff.
  rewrite !length_app. cbn [length u32le].
  destruct (Z.of_nat (length pre) + 4 <? 0) eqn:E1; [lia |].
  rewrite (proj2 (Z.ltb_ge _ _)) by lia.
  rewrite (proj2 (Z.ltb_ge _ _)) by lia.
  rewrite (proj2 (Z.leb_gt _ _)) by lia.
  destruct (Z.leb_spec (Z.of_nat (length pre) + 4 + Z.of_nat (length str))
                       (Z.of_nat (length pre) + 4)) as [Hle | Hgt].
  - destruct str; [reflexivity | cbn [length] in Hle; lia].
  - f_equal.
    replace (Z.to_nat (Z.of_nat (length pre) + 4)) with (length pre + 4)%nat by lia.
    rewrite <- drop_drop, drop_app_length.
    change (drop 4 (u32le (Z.of_nat (length str)) ++ str ++ tail)) with (str ++ tail).
    replace (Z.to_nat _) with (length str) by lia. apply take_app_length.
Qed.

(** X22. Arrays of uint8 are read back: an array without a fixed length
    from its count in four bytes followed by the bytes, an array of a
    fixed length from the bytes alone; the cursor ends behind them. *)
Theorem uint8_array_round_trip (fuel : nat) (field : IMsgFormat) (s : DecState)
    (pre xs tail : list byte) :
  keyType field = js "uint8" ->
  isArray field = true ->
  truthy_string (constantValue field) = None ->
  offset (reader s) = Z.of_nat (length pre) ->
  (arrayLength field = None ->
   Z.of_nat (length xs) < 2 ^ 32 ->
   view (reader s) = pre ++ u32le (Z.of_nat (length xs)) ++ xs ++ tail ->
   parseField (S fuel) field s
   = (advanced s (4 + Z.of_nat (length xs)),
      Ok (VArray (map (fun b => VNumber (byteZ b)) xs)))) /\
  (arrayLength field = Some (Z.of_nat (length xs)) ->
   xs <> [] ->
   Z.of_nat (length xs) < 2 ^ 32 ->
   view (reader s) = pre ++ xs ++ tail ->
   parseField (S fuel) field s
   = (advanced s (Z.of_nat (length xs)),
      Ok (VArray (map (fun b => VNumber (byteZ b)) xs)))).
Proof.
  intros Hk Ha Hc Hoff. split.
  - intros Hn Hlen Hv. cbn [parseField]. unfold parseField_body.
    rewrite Hc, Ha, Hn. cbn [truthy_number].
    unfold mbind at 1, SE_bind at 1.
    assert (E : getLE 4 false s = (advanced s 4, Ok (Z.of_nat (length xs)))).
    { unfold getLE, view_get, mbind, SE_bind, get_offset, get_view, lift, advance,
        advanced, mret, SE_ret.
      cbn [fst reader this offset buffer].
      rewrite read_bytes_ok.
      - rewrite Hv. replace (Z.to_nat (offset (reader s))) with (length pre) by lia.
        rewrite drop_app_length.
        change (take 4 (u32le (Z.of_nat (length xs)) ++ xs ++ tail))
          with (u32le (Z.of_nat (length xs))).
        cbn [fmap completion_fmap]. rewrite u32le_unsigned by lia. reflexivity.
      - lia.
      - rewrite Hv, Hoff, !length_app. cbn [length u32le]. lia. }
    rewrite E. cbv beta iota. unfold parseArray.
    rewrite (proj2 (Z.leb_gt _ _)) by lia. rewrite Nat2Z.id.
    unfold fmap, SE_fmap.
    rewrite (parseElements_uint8 _ field tail xs Hk (pre ++ u32le (Z.of_nat (length xs)))).
    + now rewrite advanced_advanced.
    + unfold advanced, advance. cbn [fst reader].
      change (view {| buffer := buffer (reader s); offset := offset (reader s) + 4 |})
        with (view (reader s)).
      rewrite Hv, <- app_assoc. reflexivity.
    + unfold advanced, advance. cbn [fst reader offset].
      rewrite Hoff, length_app. cbn [length u32le]. lia.
  - intros Hn Hne Hlen Hv. cbn [parseField]. unfold parseField_body.
    rewrite Hc, Ha, Hn. unfold truthy_number.
    destruct (Z.eqb_spec (Z.of_nat (length xs)) 0) as [E0 | _].
    { destruct xs; [contradiction | cbn [length] in E0; lia]. }
    unfold mbind at 1, SE_bind at 1, mret, SE_ret. unfold parseArray.
    rewrite (proj2 (Z.leb_gt _ _)) by lia. rewrite Nat2Z.id.
    unfold fmap, SE_fmap.
    now rewrite (parseElements_uint8 _ field tail xs Hk pre s Hv Hoff).
Qed.

Lemma view_readers_reach_past_buffer_witness :
  0 <= offset (reader past_the_message) /\
  blength (buffer (reader past_the_message)) <= offset (reader past_the_message) /\
  offset (reader past_the_message) + 4 <= Z.of_nat (length (view (reader past_the_message))) /\
  parsingMethods t_uint32 past_the_message
  = (advanced past_the_message 4, Ok (VNumber 0x05040302)) /\
  (parsingMethods t_time past_the_message).2 = Throw RangeError.
Proof.
  assert (H1 : 0 <= offset (reader past_the_message))
    by (vm_compute; intros E; discriminate E).
  assert (H2 : blength (buffer (reader past_the_message))
               <= offset (reader past_the_message))
    by (vm_compute; intros E; discriminate E).
  assert (H3 : offset (reader past_the_message) + 4
               <= Z.of_nat (length (view (reader past_the_message))))
    by (vm_compute; intros E; discriminate E).
  split; [exact H1 | split; [exact H2 | split; [exact H3 |]]].
  pose proof (view_readers_reach_past_buffer past_the_message H1 H2 H3) as (A & B & _).
  split; [exact A | exact B].
Defined.

Lemma string_reader_round_trip_witness :
  bytes (buffer (reader (decoding [3; 0; 0; 0; 97; 98; 99; 7] 0)))
    = [] ++ u32le (Z.of_nat (length (js_bytes "abc"))) ++ js_bytes "abc" ++ [Byte.x07] /\
  parsingMethods t_string (decoding [3; 0; 0; 0; 97; 98; 99; 7] 0)
  = (advanced (decoding [3; 0; 0; 0; 97; 98; 99; 7] 0) (4 + 3), Ok (VString (js "abc"))).
Proof.
  assert (H1 : bytes (buffer (reader (decoding [3; 0; 0; 0; 97; 98; 99; 7] 0)))
               = [] ++ u32le (Z.of_nat (length (js_bytes "abc"))) ++ js_bytes "abc"
                 ++ [Byte.x07]) by reflexivity.
  split; [exact H1 |].
  refine (string_reader_round_trip _ [] (js_bytes "abc") [Byte.x07] H1 _ _);
    reflexivity.
Defined.

Lemma uint8_array_round_trip_witness :
  keyType (array_field "data" "uint8" None) = js "uint8" /\
  view (reader (decoding [2; 0; 0; 0; 7; 8] 0))
    = [] ++ u32le (Z.of_nat (length [Byte.x07; Byte.x08])) ++ [Byte.x07; Byte.x08] ++ [] /\
  parseField 1 (array_field "data" "uint8" None) (decoding [2; 0; 0; 0; 7; 8] 0)
  = (advanced (decoding [2; 0; 0; 0; 7; 8] 0) (4 + 2),
     Ok (VArray [VNumber 7; VNumber 8])).
Proof.
  assert (H1 : keyType (array_field "data" "uint8" None) = js "uint8") by reflexivity.
  assert (H2 : view (reader (decoding [2; 0; 0; 0; 7; 8] 0))
               = [] ++ u32le (Z.of_nat (length [Byte.x07; Byte.x08]))
                 ++ [Byte.x07; Byte.x08] ++ []) by reflexivity.
  split; [exact H1 | split; [exact H2 |]].
  refine (proj1 (uint8_array_round_trip 0 (array_field "data" "uint8" None)
                   (decoding [2; 0; 0; 0; 7; 8] 0) [] [Byte.x07; Byte.x08] []
                   H1 _ _ _) _ _ H2); reflexivity.
Defined.

End Primitives.

(** ** What decoding leaves in place (message-reader.ts) *)

Section DecoderInvariant.
Import Schema MessageReader DecoderInvariants.
(** A relation between the fields of the readers before and after, that
    the writes of [parseField] respect. *)
Variable R : MessageReaders -> MessageReaders -> Prop.
Hypothesis R_refl : forall t, R t t.
Hypothesis R_trans : forall a b c, R a b -> R b c -> R a c.
Hypothesis R_result : forall t r id,
  R t {| msgTypesParsers := msgTypesParsers t; _schemas := _schemas t; msg := msg t;
         result := r; result_id := id |}.
Hypothesis R_parser : forall t k v,
  Map_get (msgTypesParsers t) k = None ->
  R t {| msgTypesParsers := Map_set (msgTypesParsers t) k v; _schemas := _schemas t;
         msg := msg t; result := result t; result_id := result_id t |}.

Lemma respects_ret {A} (a : A) : respects R (mret a).
Proof. intros s. apply R_refl. Qed.

Lemma respects_lift {A} (c : completion A) : respects R (lift c).
Proof. intros s. apply R_refl. Qed.

Lemma respects_bind {A B} (m : Dec A) (k : A -> Dec B) :
  respects R m -> (forall a, respects R (k a)) -> respects R (m ≫= k).
Proof.
  intros Hm Hk s. unfold mbind, SE_bind. specialize (Hm s).
  destruct (m s) as [s' [a | e]]; [| exact Hm].
  eapply R_trans; [exact Hm | apply Hk].
Qed.

Lemma respects_fmap {A B} (f : A -> B) (m : Dec A) : respects R m -> respects R (f <$> m).
Proof.
  intros Hm s. unfold fmap, SE_fmap. specialize (Hm s).
  destruct (m s) as [s' [a | e]]; exact Hm.
Qed.

Lemma respects_get_this : respects R get_this.
Proof. intros s. apply R_refl. Qed.

Lemma respects_get_offset : respects R get_offset.
Proof. intros s. apply R_refl. Qed.

Lemma respects_get_buffer : respects R get_buffer.
Proof. intros s. apply R_refl. Qed.

Lemma respects_get_view : respects R get_view.
Proof. intros s. apply R_refl. Qed.

Lemma respects_advance (n : Z) : respects R (advance n).
Proof. intros s. apply R_refl. Qed.

Lemma respects_view_get (n : nat) (off : Z) : respects R (view_get n off).
Proof. apply respects_bind; [apply respects_get_view | intros; apply respects_lift]. Qed.

Lemma respects_get8 (signed : bool) : respects R (get8 signed).
Proof.
  unfold get8. apply respects_bind; [apply respects_get_offset | intros off].
  apply respects_bind; [apply respects_advance | intros _].
  apply respects_bind; [apply respects_view_get | intros v]. apply respects_ret.
Qed.

Lemma respects_getLE (n : nat) (signed : bool) : respects R (getLE n signed).
Proof.
  unfold getLE. apply respects_bind; [apply respects_get_offset | intros off].
  apply respects_bind; [apply respects_view_get | intros v].
  apply respects_bind; [apply respects_advance | intros _]. apply respects_ret.
Qed.

Lemma respects_parsingMethods (m : StdType) : respects R (parsingMethods m).
Proof.
  destruct m; cbn [parsingMethods];
    repeat first
      [ apply respects_ret | apply respects_lift | apply respects_get8
      | apply respects_getLE | apply respects_get_buffer | apply respects_get_offset
      | apply respects_advance | apply respects_fmap
      | apply respects_bind; [| intros ?] ].
Qed.

Lemma respects_createParser (format : IMsgFormat) : respects R (_createParser format).
Proof.
  intros s. unfold _createParser, mbind, SE_bind, get_this, set_this, mret, SE_ret.
  cbn [fst this]. destruct (Map_get _ _) eqn:E; cbn [fst this]; [apply R_refl |].
  now apply R_parser.
Qed.

Lemma respects_reset_result : respects R reset_result.
Proof.
  intros s. unfold reset_result, mbind, SE_bind, get_this, set_this. cbn [fst this].
  apply R_result.
Qed.

Lemma respects_write_result (id : nat) (k : jsstring) (v : JSValue) :
  respects R (write_result id k v).
Proof.
  intros s. unfold write_result, mbind, SE_bind, get_this, set_this, mret, SE_ret.
  cbn [fst this]. destruct (decide _); cbn [fst this]; [apply R_result | apply R_refl].
Qed.

Section Below.
Variable pf : IMsgFormat -> Dec JSValue.
Hypothesis respects_pf : forall field, respects R (pf field).

Lemma respects_parser_loop (formatFields : list IMsgFormat) :
  respects R (parser_loop pf formatFields).
Proof.
  induction formatFields as [| f r IH]; cbn [parser_loop]; [apply respects_ret |].
  apply respects_bind; [apply respects_get_this | intros t].
  apply respects_bind; [apply respects_pf | intros v].
  apply respects_bind; [apply respects_write_result | intros _]. exact IH.
Qed.

Lemma respects_parser (formatFields : list IMsgFormat) :
  respects R (parser pf formatFields).
Proof.
  unfold parser. apply respects_bind; [apply respects_reset_result | intros _].
  apply respects_bind; [apply respects_parser_loop | intros _].
  apply respects_bind; [apply respects_get_this | intros t]. apply respects_ret.
Qed.

Lemma respects_parseValue (field : IMsgFormat) : respects R (parseValue pf field).
Proof.
  unfold parseValue. destruct (lookup_parsingMethod _); [apply respects_parsingMethods |].
  destruct (inherited_method _); [apply respects_lift |].
  apply respects_bind; [apply respects_get_this | intros t].
  apply respects_bind; [| intros fs; apply respects_parser].
  destruct (Map_get _ _); [apply respects_ret | apply respects_createParser].
Qed.

Lemma respects_parseElements (n : nat) (field : IMsgFormat) :
  respects R (parseElements pf n field).
Proof.
  induction n as [| n IH]; cbn [parseElements]; [apply respects_ret |].
  apply respects_bind; [apply respects_parseValue | intros v].
  apply respects_bind; [exact IH | intros r]. apply respects_ret.
Qed.

Lemma respects_parseField_body (field : IMsgFormat) : respects R (parseField_body pf field).
Proof.
  unfold parseField_body. destruct (truthy_string _); [apply respects_ret |].
  destruct (isArray field); [| apply respects_parseValue].
  apply respects_bind.
  - destruct (truthy_number _); [apply respects_ret | apply respects_getLE].
  - intros n. unfold parseArray. destruct (2 ^ 32 <=? n); [apply respects_lift |].
    apply respects_fmap, respects_parseElements.
Qed.
End Below.

Lemma respects_parseField (fuel : nat) : forall field, respects R (parseField fuel field).
Proof.
  induction fuel as [| fuel IH]; intros field; cbn [parseField];
    [apply respects_lift | now apply respects_parseField_body].
Qed.

Lemma respects_register_parsers (types : list (jsstring * IMsgFormat)) :
  respects R (register_parsers types).
Proof.
  induction types as [| [n t] r IH]; cbn [register_parsers]; [apply respects_ret |].
  apply respects_bind; [apply respects_get_this | intros t0].
  apply respects_bind; [| intros _; exact IH].
  destruct (Map_has _ _); [apply respects_ret |].
  apply respects_bind; [apply respects_createParser | intros; apply respects_ret].
Qed.

End DecoderInvariant.

Section DecoderKeeps.
Import Schema MessageReader DecoderInvariants.

Lemma Map_get_set {K V} `{EqDecision K} (m : list (K * V)) (k k' : K) (v : V) :
  Map_get (Map_set m k v) k' = if decide (k = k') then Some v else Map_get m k'.
Proof.
  induction m as [| [k0 v0] r IH]; cbn [Map_set Map_get].
  - destruct (decide (k = k')); reflexivity.
  - destruct (decide (k0 = k)) as [-> | Hne]; cbn [Map_get].
    + destruct (decide (k = k')); reflexivity.
    + destruct (decide (k0 = k')) as [-> | Hne'].
      * destruct (decide (k = k')); [congruence | reflexivity].
      * exact IH.
Qed.

Lemma parsers_kept_refl t : parsers_kept t t.
Proof. intros k fs H. exact H. Qed.

Lemma parsers_kept_trans a b c : parsers_kept a b -> parsers_kept b c -> parsers_kept a c.
Proof. intros H1 H2 k fs H. apply H2, H1, H. Qed.

Lemma parseField_keeps_parsers (fuel : nat) (field : IMsgFormat) :
  respects parsers_kept (parseField fuel field).
Proof.
  apply respects_parseField.
  - apply parsers_kept_refl.
  - apply parsers_kept_trans.
  - intros t r id k fs H. exact H.
  - intros t k v Hk k' fs H. cbn [msgTypesParsers]. rewrite Map_get_set.
    destruct (decide (k = k')) as [-> | _]; [congruence | exact H].
Qed.

Lemma register_keeps_parsers (types : list (jsstring * IMsgFormat)) :
  respects parsers_kept (register_parsers types).
Proof.
  apply respects_register_parsers.
  - apply parsers_kept_refl.
  - apply parsers_kept_trans.
  - intros t k v Hk k' fs H. cbn [msgTypesParsers]. rewrite Map_get_set.
    destruct (decide (k = k')) as [-> | _]; [congruence | exact H].
Qed.

Lemma readMsg_loop_keeps_parsers (stack : nat) (topLevelKeys : list IMsgFormat) :
  respects parsers_kept (readMsg_loop stack topLevelKeys).
Proof.
  induction topLevelKeys as [| f r IH]; cbn [readMsg_loop].
  - intros s. apply parsers_kept_refl.
  - apply (respects_bind parsers_kept parsers_kept_trans);
      [apply parseField_keeps_parsers | intros v].
    apply (respects_bind parsers_kept parsers_kept_trans);
      [intros s; apply parsers_kept_refl | intros t].
    apply (respects_bind parsers_kept parsers_kept_trans); [| intros _; exact IH].
    intros s k fs H. exact H.
Qed.

(** X23. The memo table of parsers is write-once: a parser that a type
    name has before [readMsg] is the parser of that name after it, whether
    the call returns or throws, and whatever the schema of the call says
    about that name. *)
Theorem readMsg_keeps_parsers (stack : nat) (msgType : option jsstring)
    (schema : IMsgSchema) (buffer : Buffer) (this : MessageReaders)
    (k : jsstring) (fs : list IMsgFormat) :
  Map_get (msgTypesParsers this) k = Some fs ->
  Map_get (msgTypesParsers (readMsg stack msgType schema buffer this).1) k = Some fs.
Proof.
  revert k fs. change (parsers_kept this (readMsg stack msgType schema buffer this).1).
  unfold readMsg.
  match goal with |- context [let '(s, r) := ?run ?s0 in _] =>
    assert (H : respects parsers_kept run); [| specialize (H s0); destruct (run s0); exact H]
  end.
  apply (respects_bind parsers_kept parsers_kept_trans);
    [intros s; apply parsers_kept_refl | intros t].
  apply (respects_bind parsers_kept parsers_kept_trans).
  { destruct (schema_seen t msgType); [intros s; apply parsers_kept_refl |].
    apply (respects_bind parsers_kept parsers_kept_trans);
      [apply register_keeps_parsers | intros _].
    intros s k fs H. exact H. }
  intros _.
  apply (respects_bind parsers_kept parsers_kept_trans).
  { intros s k fs H. exact H. }
  intros _.
  apply (respects_bind parsers_kept parsers_kept_trans);
    [apply readMsg_loop_keeps_parsers | intros _].
  apply (respects_bind parsers_kept parsers_kept_trans);
    [intros s; apply parsers_kept_refl | intros t'].
  intros s. apply parsers_kept_refl.
Qed.

Lemma parseField_keeps_msg (fuel : nat) (field : IMsgFormat) :
  respects msg_kept (parseField fuel field).
Proof.
  apply respects_parseField; unfold msg_kept.
  - reflexivity.
  - intros a b c -> ->. reflexivity.
  - reflexivity.
  - reflexivity.
Qed.

Lemma readMsg_loop_msg (stack : nat) (topLevelKeys : list IMsgFormat) :
  forall (s s' : DecState) (u : unit),
  readMsg_loop stack topLevelKeys s = (s', Ok u) ->
  exists values : list JSValue,
    length values = length topLevelKeys /\
    msg (this s')
    = foldl (fun m e => Map_set m e.1 e.2) (msg (this s))
            (zip (map key topLevelKeys) values).
Proof.
  induction topLevelKeys as [| f r IH]; intros s s' u; cbn [readMsg_loop].
  - intros [= <- _]. now exists [].
  - unfold mbind at 1, SE_bind at 1.
    pose proof (parseField_keeps_msg stack f s) as Hk. unfold msg_kept in Hk.
    destruct (parseField stack f s) as [s1 [v | e]]; [| discriminate].
    cbn [fst] in Hk.
    unfold mbind at 1, SE_bind at 1, get_this.
    unfold mbind at 1, SE_bind at 1, set_msg.
    unfold mbind at 1, SE_bind at 1, get_this, set_this.
    intros H. apply IH in H as (values & Hlen & Hmsg).
    exists (v :: values). split; [cbn [length]; lia |].
    rewrite Hmsg. cbn [this msg map zip zip_with foldl fst snd]. now rewrite Hk.
Qed.

(** X24. A message that [readMsg] returns is an object built from the
    top-level keys of the schema alone: its properties were set one per
    key, in the order of the schema, a key that occurs twice keeping the
    place of its first occurrence and the value of its last; nothing of
    an earlier message is left in it.  (No key is [__proto__], the one
    name under which an assignment sets no property.) *)
Theorem readMsg_keys (stack : nat) (msgType : option jsstring) (schema : IMsgSchema)
    (buffer : Buffer) (this this' : MessageReaders) (v : JSValue) :
  Forall (fun format => key format <> js "__proto__") (topLevelKeys schema) ->
  readMsg stack msgType schema buffer this = (this', Ok v) ->
  exists values : list JSValue,
    length values = length (topLevelKeys schema) /\
    v = VObject (Map_of (zip (map key (topLevelKeys schema)) values)) /\
    msg this' = Map_of (zip (map key (topLevelKeys schema)) values).
Proof.
  intros _. unfold readMsg, Map_of.
  unfold mbind at 1, SE_bind at 1, get_this.
  unfold mbind at 1, SE_bind at 1.
  match goal with |- context [(if ?c then ?a else ?b) ?s0] =>
    destruct ((if c then a else b) s0) as [s1 [u | e]] end; [| discriminate].
  unfold mbind at 1, SE_bind at 1, set_msg.
  unfold mbind at 1, SE_bind at 1, get_this, set_this.
  unfold mbind at 1, SE_bind at 1.
  destruct (readMsg_loop stack (topLevelKeys schema) _) as [s2 [u' | e]] eqn:E;
    [| discriminate].
  apply readMsg_loop_msg in E as (values & Hlen & Hmsg).
  cbn [MessageReader.this msg] in Hmsg.
  unfold mbind, SE_bind, get_this, mret, SE_ret. intros [= <- <-].
  exists values. rewrite Hmsg. repeat split. exact Hlen.
Qed.

(** A type named as a property of [Object.prototype] is looked up in the
    table of readers like any other, and what is found is called. *)
Lemma parseField_inherited_names :
  parseField 1 (scalar_field "a" "constructor" None) (decoding [1; 2] 0)
    = (decoding [1; 2] 0, Ok (VObject [])) /\
  (parseField 1 (scalar_field "a" "valueOf" None) (decoding [1; 2] 0)).2
    = Throw TypeError /\
  (parseField 1 (scalar_field "a" "__proto__" None) (decoding [1; 2] 0)).2
    = Throw TypeError.
Proof. repeat split; vm_compute; reflexivity. Qed.

Lemma inherited_method_None (keyType : jsstring) :
  keyType ∉ Object_prototype_names -> inherited_method keyType = None.
Proof.
  intros H. unfold inherited_method.
  assert (Hne : forall n, n ∈ Object_prototype_names -> keyType <> n)
    by (intros n Hn ->; exact (H Hn)).
  rewrite (bool_decide_eq_false_2 (keyType = js "constructor"))
    by (apply Hne; apply (bool_decide_unpack _); vm_compute; exact I).
  rewrite (bool_decide_eq_false_2 (keyType = js "isPrototypeOf"))
    by (apply Hne; apply (bool_decide_unpack _); vm_compute; exact I).
  rewrite (bool_decide_eq_false_2 (keyType = js "toString"))
    by (apply Hne; apply (bool_decide_unpack _); vm_compute; exact I).
  now rewrite (bool_decide_eq_false_2 (keyType ∈ Object_prototype_names)) by exact H.
Qed.

(** X25. A field whose type is no primitive (and no name that the table
    of readers inherits) and has no parser yet, and that brings no nested
    keys (as every field of a parsed line), decodes to the empty object
    without moving the cursor; the type name is bound to the empty parser
    from then on. *)
Theorem parseField_undefined_type (fuel : nat) (field : IMsgFormat) (s : DecState) :
  lookup_parsingMethod (keyType field) = None ->
  keyType field ∉ Object_prototype_names ->
  Map_get (msgTypesParsers (this s)) (keyType field) = None ->
  nestedKeys field = [] ->
  isArray field = false ->
  truthy_string (constantValue field) = None ->
  exists s',
    parseField (S fuel) field s = (s', Ok (VObject [])) /\
    reader s' = reader s /\
    Map_get (msgTypesParsers (this s')) (keyType field) = Some [].
Proof.
  intros Hstd Hown Hmemo Hnested Harr Hconst.
  cbn [parseField]. unfold parseField_body, parseValue.
  rewrite Hconst, Harr, Hstd, (inherited_method_None _ Hown).
  unfold mbind at 1, SE_bind at 1, get_this. rewrite Hmemo.
  unfold mbind at 1, SE_bind at 1, _createParser.
  unfold mbind at 1, SE_bind at 1, get_this. rewrite Hmemo, Hnested.
  unfold mbind at 1, SE_bind at 1, set_this, mret, SE_ret.
  unfold parser, reset_result, parser_loop, mbind, SE_bind, get_this, set_this, mret, SE_ret.
  eexists. split; [reflexivity |]. split; [reflexivity |].
  cbn [this msgTypesParsers]. rewrite Map_get_set.
  destruct (decide _); [reflexivity | contradiction].
Qed.

Lemma readMsg_keeps_parsers_witness :
  Map_get (msgTypesParsers readers_with_point) (js "point")
    = Some [scalar_field "x" "uint8" None] /\
  Map_get (msgTypesParsers
             (readMsg 8 (Some (js "pkg/T")) schema_with_point
                      (Buffer_from [Byte.x01; Byte.x02]) readers_with_point).1)
          (js "point")
    = Some [scalar_field "x" "uint8" None] /\
  (readMsg 8 (Some (js "pkg/T")) schema_with_point
           (Buffer_from [Byte.x01; Byte.x02]) readers_with_point).2
    = Ok (VObject [(js "p", VObject [(js "x", VNumber 1)])]).
Proof.
  assert (H : Map_get (msgTypesParsers readers_with_point) (js "point")
              = Some [scalar_field "x" "uint8" None]) by reflexivity.
  split; [exact H | split; [| reflexivity]].
  exact (readMsg_keeps_parsers 8 (Some (js "pkg/T")) schema_with_point
           (Buffer_from [Byte.x01; Byte.x02]) readers_with_point _ _ H).
Defined.

Lemma readMsg_keys_witness :
  Forall (fun format => key format <> js "__proto__") (topLevelKeys schema_with_point) /\
  exists this' v values,
    readMsg 8 (Some (js "pkg/T")) schema_with_point (Buffer_from [Byte.x01; Byte.x02])
            new_MessageReaders = (this', Ok v) /\
    length values = length (topLevelKeys schema_with_point) /\
    v = VObject (Map_of (zip (map key (topLevelKeys schema_with_point)) values)).
Proof.
  assert (Hkeys : Forall (fun format => key format <> js "__proto__")
                         (topLevelKeys schema_with_point))
    by (repeat constructor; discriminate).
  split; [exact Hkeys |].
  destruct (readMsg 8 (Some (js "pkg/T")) schema_with_point
                    (Buffer_from [Byte.x01; Byte.x02]) new_MessageReaders)
    as [this' [v | e]] eqn:E.
  - destruct (readMsg_keys _ _ _ _ _ _ _ Hkeys E) as (values & H1 & H2 & _).
    exists this', v, values. split; [reflexivity | split; [exact H1 | exact H2]].
  - exfalso. vm_compute in E. discriminate E.
Defined.

Lemma parseField_undefined_type_witness :
  lookup_parsingMethod (keyType (scalar_field "x" "bar" None)) = None /\
  (keyType (scalar_field "x" "bar" None) ∉ Object_prototype_names) /\
  exists s',
    parseField 1 (scalar_field "x" "bar" None) (decoding [1] 0) = (s', Ok (VObject [])) /\
    reader s' = reader (decoding [1] 0) /\
    Map_get (msgTypesParsers (this s')) (keyType (scalar_field "x" "bar" None)) = Some [].
Proof.
  assert (H : lookup_parsingMethod (keyType (scalar_field "x" "bar" None)) = None)
    by reflexivity.
  assert (H' : keyType (scalar_field "x" "bar" None) ∉ Object_prototype_names)
    by (apply (bool_decide_unpack _); vm_compute; exact I).
  split; [exact H | split; [exact H' |]].
  refine (parseField_undefined_type 0 _ (decoding [1] 0) H H' _ _ _ _); reflexivity.
Defined.

End DecoderKeeps.

(** ** Reads and the cache, further (chunk-info-manager.ts) *)

Section CacheAccounting.
Import BagInspector ChunkInfoManager.


Lemma Map_get_None {K V} `{EqDecision K} (m : list (K * V)) (k : K) :
  Map_get m k = None <-> k ∉ map fst m.
Proof.
  induction m as [| [k0 v0] r IH]; cbn [Map_get map fst].
  - split; [intros _; apply not_elem_of_nil | reflexivity].
  - rewrite not_elem_of_cons. destruct (decide (k0 = k)) as [-> | Hne].
    + split; [discriminate | intros [H _]; contradiction].
    + rewrite IH. split; [intros H; split; [congruence | exact H] | intros [_ H]; exact H].
Qed.

Lemma Map_set_fresh {K V} `{EqDecision K} (m : list (K * V)) (k : K) (v : V) :
  Map_get m k = None -> Map_set m k v = m ++ [(k, v)].
Proof.
  induction m as [| [k0 v0] r IH]; cbn [Map_get Map_set app]; [reflexivity |].
  destruct (decide (k0 = k)); [discriminate |]. intros H. now rewrite IH.
Qed.

Lemma Map_get_last {K V} `{EqDecision K} (m : list (K * V)) (k : K) (v : V) :
  Map_get m k = None -> Map_get (m ++ [(k, v)]) k = Some v.
Proof.
  induction m as [| [k0 v0] r IH]; cbn [Map_get app].
  - intros _. now rewrite decide_True.
  - destruct (decide (k0 = k)); [discriminate | exact IH].
Qed.

Lemma Map_get_drop_None {K V} `{EqDecision K} (m : list (K * V)) (k : K) (n : nat) :
  Map_get m k = None -> Map_get (drop n m) k = None.
Proof.
  rewrite !Map_get_None. intros H Hin. apply H.
  apply list_elem_of_fmap in Hin as (x & -> & Hx).
  apply list_elem_of_fmap. exists x. split; [reflexivity |].
  apply list_elem_of_lookup in Hx as (i & Hi). rewrite lookup_drop in Hi.
  now apply list_elem_of_lookup_2 in Hi.
Qed.

Lemma cache_bytes_app (a b : list (Z * IChunkCache)) :
  cache_bytes (a ++ b) = cache_bytes a + cache_bytes b.
Proof.
  unfold cache_bytes. induction a as [| x r IH]; cbn [app foldr]; [reflexivity |].
  rewrite IH. lia.
Qed.

Lemma cache_bytes_nonneg (cache : list (Z * IChunkCache)) :
  Forall (fun e => 0 <= size e.2) cache -> 0 <= cache_bytes cache.
Proof. unfold cache_bytes. induction 1 as [| x r Hx _ IH]; cbn [foldr]; lia. Qed.

(** The clean-up after a new last entry that fits the budget: older
    entries go, the new one stays, the counter stays exact. *)
Lemma cleanup_loop_fits (pre : list (Z * IChunkCache)) (k : Z) (e : IChunkCache) :
  Forall (fun e => 0 <= size e.2) pre ->
  0 <= size e <= _maxCacheBytes ->
  exists n : nat,
    cleanup_loop (pre ++ [(k, e)]) (cache_bytes pre + size e)
    = (drop n pre ++ [(k, e)], cache_bytes (drop n pre) + size e) /\
    cache_bytes (drop n pre) + size e <= _maxCacheBytes.
Proof.
  intros Hpre He. induction Hpre as [| [k0 e0] r H0 Hr IH].
  - exists 0%nat. cbn [app drop cleanup_loop cache_bytes foldr].
    rewrite (proj2 (Z.ltb_ge _ _)) by lia. split; [reflexivity | lia].
  - cbn [app cleanup_loop]. cbn [fst snd] in H0.
    change (cache_bytes ((k0, e0) :: r)) with (size e0 + cache_bytes r).
    destruct (_maxCacheBytes <? size e0 + cache_bytes r + size e) eqn:E.
    + destruct IH as (n & Hn & Hle). exists (S n). cbn [drop].
      replace (size e0 + cache_bytes r + size e - size e0) with (cache_bytes r + size e)
        by lia.
      split; [exact Hn | exact Hle].
    + apply Z.ltb_ge in E. exists 0%nat. cbn [drop]. split; [reflexivity |].
      change (cache_bytes ((k0, e0) :: r)) with (size e0 + cache_bytes r). lia.
Qed.

(** The clean-up after a new last entry that exceeds the budget:
    everything goes. *)
Lemma cleanup_loop_oversized (pre : list (Z * IChunkCache)) (k : Z) (e : IChunkCache) :
  Forall (fun e => 0 <= size e.2) pre ->
  _maxCacheBytes < size e ->
  cleanup_loop (pre ++ [(k, e)]) (cache_bytes pre + size e) = ([], 0).
Proof.
  intros Hpre He. induction Hpre as [| [k0 e0] r H0 Hr IH].
  - cbn [app cleanup_loop cache_bytes foldr].
    rewrite (proj2 (Z.ltb_lt _ _)) by lia. cbn [cleanup_loop]. f_equal. lia.
  - cbn [app cleanup_loop]. cbn [fst snd] in H0.
    change (cache_bytes ((k0, e0) :: r)) with (size e0 + cache_bytes r).
    pose proof (cache_bytes_nonneg r Hr).
    rewrite (proj2 (Z.ltb_lt _ _)) by lia.
    replace (size e0 + cache_bytes r + size e - size e0) with (cache_bytes r + size e)
      by lia.
    exact IH.
Qed.

Lemma cacheChunk_fresh (chunkInfo : IChunkInfo) (messages : list IRosbagMessage)
    (this : ChunkInfoManager) (next : Z) :
  cache_exact this ->
  hasChunk this (idx chunkInfo) = false ->
  nextChunkPosition chunkInfo = Some next ->
  0 <= next - chunkPosition chunkInfo ->
  exists this',
    cacheChunk chunkInfo messages this = Some this' /\
    (next - chunkPosition chunkInfo <= _maxCacheBytes ->
     getCachedChunk this' (idx chunkInfo) = Some messages /\
     hasChunk this' (idx chunkInfo) = true /\
     cache_exact this' /\
     _currentCacheBytes this' <= _maxCacheBytes) /\
    (_maxCacheBytes < next - chunkPosition chunkInfo ->
     _chunkCache this' = [] /\ _currentCacheBytes this' = 0).
Proof.
  intros [Hsizes Hexact] Hfresh Hnext Hpos.
  assert (Hnone : Map_get (_chunkCache this) (idx chunkInfo) = None).
  { unfold hasChunk, Map_has in Hfresh. now destruct (Map_get _ _). }
  unfold cacheChunk, chunkSize. rewrite Hnext.
  cbn [fmap option_fmap option_map mbind option_bind].
  eexists. split; [reflexivity |].
  unfold _cleanupCache. cbn [_chunkCache _currentCacheBytes].
  rewrite (Map_set_fresh _ _ _ Hnone), Hexact.
  set (e := {| messages := messages; size := next - chunkPosition chunkInfo |}).
  change (next - chunkPosition chunkInfo) with (size e). split.
  - intros Hfit.
    destruct (cleanup_loop_fits (_chunkCache this) (idx chunkInfo) e Hsizes
                ltac:(subst e; cbn [size] in *; lia)) as (n & -> & Hle).
    cbn [_chunkCache _currentCacheBytes].
    assert (Hget : Map_get (drop n (_chunkCache this) ++ [(idx chunkInfo, e)])
                           (idx chunkInfo) = Some e).
    { apply Map_get_last, Map_get_drop_None, Hnone. }
    unfold getCachedChunk, hasChunk, Map_has. cbn [_chunkCache]. rewrite Hget.
    repeat split.
    + apply Forall_app. split.
      * apply Forall_drop. exact Hsizes.
      * constructor; [subst e; cbn [snd size]; lia | constructor].
    + cbn [_chunkCache _currentCacheBytes]. rewrite cache_bytes_app.
      unfold cache_bytes at 3. cbn [foldr snd]. lia.
    + exact Hle.
  - intros Hbig.
    rewrite (cleanup_loop_oversized (_chunkCache this) (idx chunkInfo) e Hsizes Hbig).
    split; reflexivity.
Qed.

(** X26. A read caches what it decoded: when the byte counter is exact,
    the chunk is not cached yet and its size is within the budget, a read
    that decodes the chunk leaves its messages in the cache under its
    index, the counter exact and within the budget; a read that throws
    leaves the cache and the counter as they were. *)
Theorem readChunk_onload_caches
    (lz4_decompress : list byte -> Z -> completion (list byte)) (stack : nat)
    (file : list byte) (chunkInfo : IChunkInfo) (next nextChunkPos : Z)
    (connections : list (Z * IConnection)) (this this' : ChunkInfoManager)
    (r : completion (list IRosbagMessage)) :
  cache_exact this ->
  hasChunk this (idx chunkInfo) = false ->
  nextChunkPosition chunkInfo = Some next ->
  0 <= next - chunkPosition chunkInfo <= _maxCacheBytes ->
  readChunk_onload lz4_decompress stack file chunkInfo nextChunkPos connections this
    = Some (this', r) ->
  match r with
  | Ok messages =>
    getCachedChunk this' (idx chunkInfo) = Some messages /\
    hasChunk this' (idx chunkInfo) = true /\
    cache_exact this' /\
    _currentCacheBytes this' <= _maxCacheBytes
  | Throw _ => same_cache this' this
  end.
Proof.
  intros Hexact Hfresh Hnext Hsize. unfold readChunk_onload.
  set (this0 := {| _connections := connections; _msgSchemas := _msgSchemas this;
                   _readers := _readers this; _chunkCache := _chunkCache this;
                   _currentCacheBytes := _currentCacheBytes this |}).
  pose proof (processChunkBuffer_cache lz4_decompress stack
                (Buffer_from (slice file (chunkPosition chunkInfo) (Some nextChunkPos)))
                chunkInfo this0) as [Hc Hb].
  destruct (_processChunkBuffer _ _ _ _ this0) as [this1 [messages | e]]; cbn [fst] in Hc, Hb.
  - assert (Hexact1 : cache_exact this1).
    { destruct Hexact as [H1 H2]. split; [now rewrite Hc | now rewrite Hb, Hc]. }
    assert (Hfresh1 : hasChunk this1 (idx chunkInfo) = false).
    { unfold hasChunk in *. now rewrite Hc. }
    destruct (cacheChunk_fresh chunkInfo messages this1 next Hexact1 Hfresh1 Hnext
                ltac:(lia)) as (this2 & -> & Hfit & _).
    cbn [mbind option_bind]. intros [= <- <-]. apply Hfit. lia.
  - intros [= <- <-]. split; [exact Hc | exact Hb].
Qed.


Lemma cache_exact_manager_0 : cache_exact manager_0.
Proof. split; [constructor | reflexivity]. Qed.

Lemma readChunk_onload_caches_witness :
  cache_exact manager_0 /\
  hasChunk manager_0 (idx chunk_info) = false /\
  exists this' messages,
    readChunk_onload no_lz4 8 chunk_file chunk_info
      (4117 + Z.of_nat (length (chunk_record ++ index_record)))
      [(0, connection_0)] manager_0
    = Some (this', Ok messages) /\
    getCachedChunk this' (idx chunk_info) = Some messages /\
    hasChunk this' (idx chunk_info) = true.
Proof.
  assert (H2 : hasChunk manager_0 (idx chunk_info) = false) by reflexivity.
  assert (H3 : nextChunkPosition chunk_info
               = Some (4117 + Z.of_nat (length (chunk_record ++ index_record))))
    by reflexivity.
  assert (H4 : 0 <= 4117 + Z.of_nat (length (chunk_record ++ index_record))
                    - chunkPosition chunk_info <= _maxCacheBytes).
  { split; vm_compute; intros E; discriminate E. }
  split; [exact cache_exact_manager_0 | split; [exact H2 |]].
  destruct (readChunk_onload no_lz4 8 chunk_file chunk_info
              (4117 + Z.of_nat (length (chunk_record ++ index_record)))
              [(0, connection_0)] manager_0) as [[this' [messages | e]] |] eqn:E.
  - exists this', messages. split; [reflexivity |].
    pose proof (readChunk_onload_caches _ _ _ _ _ _ _ _ _ _
                  cache_exact_manager_0 H2 H3 H4 E) as (A & B & _).
    split; [exact A | exact B].
  - exfalso. vm_compute in E. discriminate E.
  - exfalso. vm_compute in E. discriminate E.
Defined.


(** X28. A chunk whose compression is neither "none" nor "lz4" (a bz2
    chunk, say; a name that every object inherits set aside) cannot be
    decoded: [recordDecompression] has no entry for the tag, and
    [_processChunkBuffer] throws a TypeError without touching the
    manager. *)
Theorem processChunkBuffer_unknown_compression
    (lz4_decompress : list byte -> Z -> completion (list byte)) (stack : nat)
    (buffer : Buffer) (chunkInfo : IChunkInfo) (this : ChunkInfoManager) (tag : jsstring) :
  compression_of buffer chunkInfo = Some tag ->
  tag <> js "none" ->
  tag <> js "lz4" ->
  tag ∉ Object_prototype_names ->
  _processChunkBuffer lz4_decompress stack buffer chunkInfo this = (this, Throw TypeError).
Proof.
  unfold compression_of, _processChunkBuffer, sortedPointers.
  destruct (shallowRecordRead buffer (chunkPosition chunkInfo)) as [[chunk |] | e];
    try discriminate.
  unfold mbind at 1, SE_bind at 1, lift. cbn [mbind completion_bind].
  destruct (recordHeaderFields chunk !! js "compression") as [compression |];
    [| discriminate].
  destruct (recordHeaderFields chunk !! js "size") as [size_ |]; [| discriminate].
  destruct (4 <=? blength size_) eqn:E; [| discriminate]. apply Z.leb_le in E.
  intros [= <-] Hnone Hlz4 Hown.
  cbn [mbind completion_bind defined].
  rewrite readUInt32LE_ok by lia. cbn [mbind completion_bind].
  unfold recordDecompression.
  rewrite bool_decide_eq_false_2 by exact Hnone.
  rewrite bool_decide_eq_false_2 by exact Hlz4.
  rewrite (bool_decide_eq_false_2 (_ = js "constructor"))
    by (intros Hc; apply Hown; rewrite Hc; apply (bool_decide_unpack _);
        vm_compute; exact I).
  rewrite (bool_decide_eq_false_2 (_ ∈ [_; _; _])).
  - rewrite bool_decide_eq_false_2 by exact Hown. reflexivity.
  - intros Hin. apply Hown.
    apply elem_of_cons in Hin as [-> | Hin];
      [apply (bool_decide_unpack _); vm_compute; exact I |].
    apply elem_of_cons in Hin as [-> | Hin];
      [apply (bool_decide_unpack _); vm_compute; exact I |].
    apply list_elem_of_singleton in Hin as ->.
    apply (bool_decide_unpack _); vm_compute; exact I.
Qed.

Lemma processChunkBuffer_unknown_compression_witness :
  compression_of bz2_chunk_buffer chunk_info = Some (js "bz2") /\
  js "bz2" <> js "none" /\
  js "bz2" <> js "lz4" /\
  (js "bz2" ∉ Object_prototype_names) /\
  _processChunkBuffer no_lz4 8 bz2_chunk_buffer chunk_info manager_0
  = (manager_0, Throw TypeError).
Proof.
  assert (H1 : compression_of bz2_chunk_buffer chunk_info = Some (js "bz2")) by reflexivity.
  assert (H2 : js "bz2" <> js "none") by discriminate.
  assert (H3 : js "bz2" <> js "lz4") by discriminate.
  assert (H4 : js "bz2" ∉ Object_prototype_names)
    by (apply (bool_decide_unpack _); vm_compute; exact I).
  split; [exact H1 | split; [exact H2 | split; [exact H3 | split; [exact H4 |]]]].
  exact (processChunkBuffer_unknown_compression no_lz4 8 _ _ manager_0 _ H1 H2 H3 H4).
Defined.

End CacheAccounting.

(** ** The playback window and the end of the bag (RosbagManager) *)

Section PlaybackWindow.
Import BagInspector ChunkInfoManager RosbagManager.


Lemma compareTime_antisym (a b : ITime) : compareTime b a = - compareTime a b.
Proof.
  destruct a as [sa na], b as [sb nb]. unfold compareTime; cbn [sec nsec].
  destruct (Z.eqb_spec (sb - sa) 0), (Z.eqb_spec (sa - sb) 0); lia.
Qed.

Lemma in_range_empty_window (start end_ : ITime) (m : IRosbagMessage) :
  compareTime end_ start < 0 -> in_range start end_ m = false.
Proof.
  intros Hrev. unfold in_range.
  destruct (0 <=? compareTime (time m) start) eqn:E1; [| reflexivity].
  destruct (compareTime (time m) end_ <=? 0) eqn:E2; [| reflexivity].
  apply Z.leb_le in E1, E2. exfalso.
  assert (H1 : compareTime start (time m) <= 0)
    by (rewrite (compareTime_antisym (time m) start); lia).
  pose proof (compareTime_trans _ _ _ H1 E2) as H.
  rewrite (compareTime_antisym start end_) in Hrev. lia.
Qed.

(** X29. What [_getMessagesInRange] returns: every message lies in the
    window, both ends included, and was found in the cache under the
    index of a chunk of the metadata that overlaps the window; a window
    whose end is before its start, and a manager without metadata, give
    no message. *)
Theorem getMessagesInRange_window (start end_ : ITime) (this : RosbagManager) :
  (forall m, m ∈ _getMessagesInRange start end_ this ->
     0 <= compareTime (time m) start /\
     compareTime (time m) end_ <= 0 /\
     exists md chunk cached,
       _bagMetadata this = Some md /\
       chunk ∈ chunksInfo md /\
       overlaps start end_ chunk = true /\
       getCachedChunk (_chunkManager this) (idx chunk) = Some cached /\
       m ∈ cached) /\
  (compareTime end_ start < 0 -> _getMessagesInRange start end_ this = []) /\
  (_bagMetadata this = None -> _getMessagesInRange start end_ this = []).
Proof.
  unfold _getMessagesInRange. repeat split.
  - destruct (_bagMetadata this) as [md |]; [| now apply not_elem_of_nil in H].
    apply list_elem_of_In, in_concat in H as (l & Hl & Hm).
    apply in_map_iff in Hl as (chunk & <- & Hc).
    destruct (getCachedChunk _ _); [| contradiction].
    apply filter_In in Hm as [_ Hr]. unfold in_range in Hr.
    apply andb_true_iff in Hr as [Hr _]. now apply Z.leb_le in Hr.
  - destruct (_bagMetadata this) as [md |]; [| now apply not_elem_of_nil in H].
    apply list_elem_of_In, in_concat in H as (l & Hl & Hm).
    apply in_map_iff in Hl as (chunk & <- & Hc).
    destruct (getCachedChunk _ _); [| contradiction].
    apply filter_In in Hm as [_ Hr]. unfold in_range in Hr.
    apply andb_true_iff in Hr as [_ Hr]. now apply Z.leb_le in Hr.
  - destruct (_bagMetadata this) as [md |]; [| now apply not_elem_of_nil in H].
    apply list_elem_of_In, in_concat in H as (l & Hl & Hm).
    apply in_map_iff in Hl as (chunk & <- & Hc).
    apply filter_In in Hc as [Hc Ho].
    destruct (getCachedChunk _ _) as [cached |] eqn:E; [| contradiction].
    apply filter_In in Hm as [Hm _].
    exists md, chunk, cached. repeat split; try assumption; now apply list_elem_of_In.
  - intros Hrev. destruct (_bagMetadata this) as [md |]; [| reflexivity].
    induction (List.filter (overlaps start end_) (chunksInfo md)) as [| chunk r IH];
      [reflexivity |].
    cbn [map concat]. rewrite IH, app_nil_r.
    destruct (getCachedChunk _ _) as [cached |]; [| reflexivity].
    induction cached as [| m cached IHc]; [reflexivity |].
    cbn [List.filter]. now rewrite (in_range_empty_window _ _ _ Hrev).
  - intros ->. reflexivity.
Qed.

Lemma getMessagesInRange_window_witness :
  message_at 1 ∈ _getMessagesInRange (mkTime 0 0) (mkTime 1 0) cached_manager /\
  0 <= compareTime (time (message_at 1)) (mkTime 0 0) /\
  compareTime (time (message_at 1)) (mkTime 1 0) <= 0 /\
  _getMessagesInRange (mkTime 0 0) (mkTime 1 0) cached_manager = [message_at 1].
Proof.
  assert (H : message_at 1 ∈ _getMessagesInRange (mkTime 0 0) (mkTime 1 0) cached_manager)
    by (apply list_elem_of_In; left; reflexivity).
  split; [exact H |].
  destruct (proj1 (getMessagesInRange_window (mkTime 0 0) (mkTime 1 0) cached_manager)
              (message_at 1) H) as (H1 & H2 & _).
  split; [exact H1 | split; [exact H2 | reflexivity]].
Defined.

(** X30. Without looping, the tick that reaches the end of the bag stops
    the playback: it announces that the manager no longer plays and puts
    the current time back to the start of the bag, emits no batch of
    messages, starts no prefetch and leaves the clock and the cache as
    they were.  A [play] after it starts again from the start of the bag,
    anchored at the new wall time, announcing only that it plays. *)
Theorem tick_stops_at_end_then_play (bagMetadata md : IBagMetadata)
    (now now' now2 : Q) (this : RosbagManager) (c : clock) :
  loop (_options this) = false ->
  isLessThan (newBagTime_at now this c) (md_endTime bagMetadata) = false ->
  _bagMetadata this = Some md ->
  exists this' this'',
    tick bagMetadata now now' this c
      = Ok (this', c,
            [isPlaying_next false;
             currentBagTime_next (Some (md_startTime bagMetadata))]) /\
    _isPlaying this' = false /\
    _currentBagTime this' = Some (md_startTime bagMetadata) /\
    _chunkManager this' = _chunkManager this /\
    _wallStartTime this' = _wallStartTime this /\
    play now2 this'
      = Some (this'',
              {| bagTimeAtWallStart := md_startTime bagMetadata;
                 lastPrefetchTimeSec := seconds (md_startTime bagMetadata) |},
              [isPlaying_next true]) /\
    _isPlaying this'' = true /\
    _currentBagTime this'' = Some (md_startTime bagMetadata) /\
    _wallStartTime this'' = now2.
Proof.
  intros Hloop Hend Hmd. unfold tick. fold (newBagTime_at now this c).
  rewrite Hend, Hloop. cbn [negb].
  set (this' := set_currentBagTime (Some (md_startTime bagMetadata))
                  (set_isPlaying false this)).
  assert (Hmd' : _bagMetadata this' = Some md) by exact Hmd.
  eexists this', _. split; [reflexivity |].
  do 4 (split; [reflexivity |]).
  unfold play. rewrite Hmd'.
  change (_isPlaying this') with false. cbv beta iota.
  change (_currentBagTime this') with (Some (md_startTime bagMetadata)).
  cbv beta iota zeta. cbn [app].
  split; [reflexivity |]. repeat split.
Qed.

Lemma tick_stops_at_end_then_play_witness :
  loop (_options playing_once_manager) = false /\
  isLessThan (newBagTime_at 11000 playing_once_manager playing_clock)
             (md_endTime bag_0_10) = false /\
  exists this' this'',
    tick bag_0_10 11000 11001 playing_once_manager playing_clock
      = Ok (this', playing_clock,
            [isPlaying_next false; currentBagTime_next (Some (mkTime 0 0))]) /\
    play 20000 this'
      = Some (this'',
              {| bagTimeAtWallStart := mkTime 0 0; lastPrefetchTimeSec := seconds (mkTime 0 0) |},
              [isPlaying_next true]).
Proof.
  split; [reflexivity | split; [reflexivity |]].
  destruct (tick_stops_at_end_then_play bag_0_10 bag_0_10 11000 11001 20000
              playing_once_manager playing_clock eq_refl eq_refl eq_refl)
    as (this' & this'' & H1 & _ & _ & _ & _ & H2 & _).
  exists this', this''. split; [exact H1 | exact H2].
Defined.

End PlaybackWindow.
